(** * yosys-smtbmc: the BMC / temporal-induction driver of [backends/smt2/smtbmc.py]

  A shallow embedding of the driver script: the option loop, the constraint
  file parser, the net-reference resolver [get_constr_expr], the BMC and
  induction loops over an external solver session, and the exit status.

  The solver session ([smtio]) is an external collaborator.  What the driver
  sends to it is recorded as a transcript of structured events; the answer to
  the n-th [check_sat] call is given by a stream [answers : nat -> string]. *)

From Stdlib Require Import ZArith String Ascii List Bool Lia DecimalString DecimalPos.
From stdpp Require Import base option list gmap strings.
Import ListNotations.

Local Open Scope string_scope.
Local Open Scope Z_scope.
Local Open Scope list_scope.

(** ** Python string helpers *)

Module Py.

(** ["%d" % z] *)
Definition fmt_d (z : Z) : string := NilZero.string_of_int (Z.to_int z).

Definition is_digit (c : ascii) : bool :=
  let n := nat_of_ascii c in (48 <=? n)%nat && (n <=? 57)%nat.

Definition digit_val (c : ascii) : Z := Z.of_nat (nat_of_ascii c) - 48.

(** The digit part of [int(s)]: decimal digits, single underscores allowed
    between digits.  [prev] tells whether the previous character was a
    digit. *)
Fixpoint int_digits (acc : Z) (prev : bool) (s : string) : option Z :=
  match s with
  | EmptyString => if prev then Some acc else None
  | String c t =>
      if is_digit c then int_digits (10 * acc + digit_val c) true t
      else if Ascii.eqb c "_" && prev then int_digits acc false t
      else None
  end.

(** White space of [str.split()] and [str.strip()] among the code points
    below 256. *)
Definition is_space (c : ascii) : bool :=
  let n := nat_of_ascii c in
  ((9 <=? n) && (n <=? 13) || (28 <=? n) && (n <=? 32)
   || (n =? 133) || (n =? 160))%nat.

Fixpoint lstrip (s : string) : string :=
  match s with
  | String c t => if is_space c then lstrip t else s
  | EmptyString => ""
  end.

Fixpoint rstrip (s : string) : string :=
  match s with
  | String c t =>
      match rstrip t with
      | EmptyString => if is_space c then "" else String c ""
      | t' => String c t'
      end
  | EmptyString => ""
  end.

(** [int(s)]: surrounding white space is dropped, then an optional sign and
    the digits; [None] stands for [ValueError]. *)
Definition int (s : string) : option Z :=
  match lstrip (rstrip s) with
  | String c t =>
      if Ascii.eqb c "-" then Z.opp <$> int_digits 0 false t
      else if Ascii.eqb c "+" then int_digits 0 false t
      else int_digits 0 false (String c t)
  | EmptyString => None
  end.

(** [s.split()]: maximal runs of non-space characters.  [cur] is the token
    being read. *)
Fixpoint split_ws (cur : option string) (s : string) : list string :=
  match s with
  | EmptyString => match cur with Some w => [w] | None => [] end
  | String c t =>
      if is_space c then
        match cur with
        | Some w => w :: split_ws None t
        | None => split_ws None t
        end
      else
        split_ws (Some (match cur with Some w => w +:+ String c "" | None => String c "" end)) t
  end.

Definition split (s : string) : list string := split_ws None s.

(** [s.split(sep)] for a one-character separator: empty fields are kept. *)
Fixpoint split_on (sep : ascii) (cur : string) (s : string) : list string :=
  match s with
  | EmptyString => [cur]
  | String c t =>
      if Ascii.eqb c sep then cur :: split_on sep "" t
      else split_on sep (cur +:+ String c "") t
  end.

(** [sep.join(l)] *)
Fixpoint join (sep : string) (l : list string) : string :=
  match l with
  | [] => ""
  | [x] => x
  | x :: rest => x +:+ sep +:+ join sep rest
  end.

(** [s.startswith("#")] *)
Definition starts_with_hash (s : string) : bool :=
  match s with String c _ => Ascii.eqb c "#" | EmptyString => false end.

(** [range(lo, hi)] *)
Definition range (lo hi : Z) : list Z := seqZ lo (hi - lo).

(** [range(hi, -1, -1)] *)
Definition range_down (hi : Z) : list Z := rev (range 0 (hi + 1)).

(** [s.replace(old, new)] for a one-character [old]. *)
Fixpoint replace (old : ascii) (new : string) (s : string) : string :=
  match s with
  | EmptyString => ""
  | String c t =>
      if Ascii.eqb c old then new +:+ replace old new t
      else String c (replace old new t)
  end.

(** [s[:-1]] *)
Fixpoint drop_last (s : string) : string :=
  match s with
  | String c (String _ _ as t) => String c (drop_last t)
  | _ => ""
  end.

End Py.

(** ** Net references: [netref_regex] and [re.sub]

    [netref_regex] is [(^|[( ])\[(-?[0-9]+:|)([^\]]+)\](?=[ )]|$)].  The
    matcher below follows the order in which the regex engine tries the
    alternatives.  Inside each alternative there is nothing to backtrack
    into: [-?[0-9]+:] has one way of matching a prefix, and [[^\]]+\]] must
    run up to the first closing bracket. *)

Module Netref.

(** A match: groups 1, 2 and 3, and the text after the match. *)
Record rmatch := RMatch {
  group1 : string;
  group2 : string;
  group3 : string;
  after : string
}.

(** The longest prefix of digits. *)
Fixpoint span_digits (s : string) : string * string :=
  match s with
  | String c t =>
      if Py.is_digit c then let '(d, r) := span_digits t in (String c d, r)
      else ("", s)
  | EmptyString => ("", "")
  end.

(** [-?[0-9]+:] at the head of [s]: the matched text and the rest. *)
Definition match_state_sel (s : string) : option (string * string) :=
  let '(sign, s1) :=
    match s with
    | String c t => if Ascii.eqb c "-" then ("-", t) else ("", s)
    | EmptyString => ("", s)
    end in
  let '(ds, s2) := span_digits s1 in
  match ds, s2 with
  | String _ _, String c s3 =>
      if Ascii.eqb c ":" then Some (sign +:+ ds +:+ ":", s3) else None
  | _, _ => None
  end.

(** The text up to the first ["]"] and the text after it. *)
Fixpoint until_close (s : string) : option (string * string) :=
  match s with
  | EmptyString => None
  | String c t =>
      if Ascii.eqb c "]" then Some ("", t)
      else '(n, r) ← until_close t; Some (String c n, r)
  end.

(** [(?=[ )]|$)]: [$] also matches before a newline that ends the string. *)
Definition lookahead (s : string) : bool :=
  match s with
  | EmptyString => true
  | String c t =>
      Ascii.eqb c " " || Ascii.eqb c ")"
      || (Ascii.eqb c "010" && String.eqb t "")
  end.

(** [([^\]]+)\](?=[ )]|$)] after group 2 has matched [sel]. *)
Definition match_name (g1 sel s : string) : option rmatch :=
  match until_close s with
  | Some (String c n, r) =>
      if lookahead r then Some (RMatch g1 sel (String c n) r) else None
  | _ => None
  end.

(** [\[(-?[0-9]+:|)([^\]]+)\](?=[ )]|$)] after group 1 has matched [g1]. *)
Definition match_bracket (g1 s : string) : option rmatch :=
  match s with
  | String c t =>
      if Ascii.eqb c "[" then
        match match_state_sel t with
        | Some (sel, t') =>
            match match_name g1 sel t' with
            | Some m => Some m
            | None => match_name g1 "" t
            end
        | None => match_name g1 "" t
        end
      else None
  | EmptyString => None
  end.

(** The whole pattern at one position; [at_start] tells whether the position
    is the start of the string, where [^] matches. *)
Definition match_here (at_start : bool) (s : string) : option rmatch :=
  let alt2 :=
    match s with
    | String c t =>
        if Ascii.eqb c "(" || Ascii.eqb c " "
        then match_bracket (String c "") t else None
    | EmptyString => None
    end in
  if at_start then
    match match_bracket "" s with
    | Some m => Some m
    | None => alt2
    end
  else alt2.

(** [regex.sub(repl, s)]: scan from the left; at a match emit [repl m] and go
    on after the match, otherwise copy one character.  A match is never
    empty, so [fuel] above the length of [s] is never used up. *)
Fixpoint sub_from (repl : rmatch -> string) (fuel : nat) (at_start : bool)
    (s : string) : string :=
  match fuel with
  | O => s
  | S fuel' =>
      match match_here at_start s with
      | Some m => repl m +:+ sub_from repl fuel' false (after m)
      | None =>
          match s with
          | EmptyString => ""
          | String c t => String c (sub_from repl fuel' false t)
          end
      end
  end.

(** The substitution from a position on; [at_start] as in [match_here]. *)
Definition sub_at (repl : rmatch -> string) (at_start : bool) (s : string)
    : string :=
  sub_from repl (S (String.length s)) at_start s.

Definition sub (repl : rmatch -> string) (s : string) : string :=
  sub_at repl true s.

End Netref.

(** ** Exceptions

    The script catches nothing after the option parser: a failed [assert], a
    failed [int()] and a failed [open()] end the run with a traceback.
    [SystemExit] is [sys.exit]. *)

Inductive exn :=
| AssertionError
| ValueError (literal : string)
| SystemExit (code : Z)
| OSError (filename : string).

Inductive res (A : Type) :=
| Ok (a : A)
| Raise (e : exn).
Arguments Ok {A} a.
Arguments Raise {A} e.

Definition res_bind {A B} (r : res A) (k : A -> res B) : res B :=
  match r with
  | Ok a => k a
  | Raise e => Raise e
  end.

Notation "x <-? r ; k" := (res_bind r (fun x => k))
  (at level 100, r at next level, right associativity).

(** [int(s)], raising [ValueError]. *)
Definition int_or_raise (s : string) : res Z :=
  match Py.int s with
  | Some z => Ok z
  | None => Raise (ValueError s)
  end.

(** [assert b] *)
Definition py_assert (b : bool) : res unit :=
  if b then Ok tt else Raise AssertionError.

(** [str(e)]: what the traceback prints after the exception's name. *)
Definition exn_message (e : exn) : string :=
  match e with
  | AssertionError => ""
  | ValueError s => "invalid literal for int() with base 10: '" +:+ s +:+ "'"
  | SystemExit _ => ""
  | OSError fn => "[Errno 2] No such file or directory: '" +:+ fn +:+ "'"
  end.

(** ** The constraint database

    Step keys are Python ints, or strings ["final-%d"] for final-state
    constraints.  The tables are [defaultdict(list)] of pairs
    [(location, expression)]. *)

Module Constr.

Definition key : Type := Z + string.

Definition step_key (i : Z) : key := inl i.
Definition final_key (i : Z) : key := inr ("final-" +:+ Py.fmt_d i).

Definition entry : Type := string * string.

(** Parser state: the three globals, and the two per-file variables. *)
Record state := State {
  constr_final_start : option Z;
  constr_asserts : gmap key (list entry);
  constr_assumes : gmap key (list entry);
  current_states : option (gset key);
  current_line : Z
}.

Definition init : state := State None ∅ ∅ None 0.

(** [db[k].append(e)] on a [defaultdict(list)]. *)
Definition db_append (e : entry) (k : key) (db : gmap key (list entry))
    : gmap key (list entry) :=
  <[k := default [] (db !! k) ++ [e]]> db.

(** [for state in current_states: db[state].append(e)] *)
Definition append_all (e : entry) (states : gset key)
    (db : gmap key (list entry)) : gmap key (list entry) :=
  set_fold (db_append e) db states.

(** One item of a [state] line, added to the set [cs]. *)
Definition state_item (num_steps : Z) (token : string) (cs : gset key)
    : res (gset key) :=
  match Py.split_on ":" "" token with
  | [_] =>
      i <-? int_or_raise token;
      Ok (cs ∪ {[step_key i]})
  | [lo; hi] =>
      lower <-? int_or_raise lo;
      upper <-? (if String.eqb hi "*" then Ok num_steps else int_or_raise hi);
      Ok (cs ∪ list_to_set (step_key <$> Py.range lower (upper + 1)))
  | _ => Raise AssertionError
  end.

Fixpoint state_items (num_steps : Z) (tokens : list string) (cs : gset key)
    : res (gset key) :=
  match tokens with
  | [] => Ok cs
  | token :: rest =>
      cs' <-? state_item num_steps token cs;
      state_items num_steps rest cs'
  end.

Definition set_states (cs : gset key) (st : state) : state :=
  State (constr_final_start st) (constr_asserts st) (constr_assumes st)
        (Some cs) (current_line st).

Definition loc (fn : string) (line : Z) : string :=
  fn +:+ ":" +:+ Py.fmt_d line.

(** The body of [for line in f], after [current_line += 1]. *)
Definition directive (num_steps : Z) (fn : string) (line : string)
    (st : state) : res state :=
  if Py.starts_with_hash line then Ok st else
  match Py.split line with
  | [] => Ok st
  | tok0 :: args =>
      if String.eqb tok0 "initial" then
        Ok (set_states {[step_key 0]} st)
      else if String.eqb tok0 "final" then
        match args with
        | [] =>
            Ok (State (Some 0) (constr_asserts st) (constr_assumes st)
                  (Some (list_to_set (final_key <$> Py.range 0 (num_steps + 1))))
                  (current_line st))
        | [a] =>
            i <-? int_or_raise a;
            _ <-? py_assert (i <? 0);
            Ok (State (match constr_final_start st with
                       | None => Some (- i)
                       | Some s => Some (Z.min s (- i))
                       end)
                  (constr_asserts st) (constr_assumes st)
                  (Some (list_to_set (final_key <$> Py.range (- i) (num_steps + 1))))
                  (current_line st))
        | _ => Raise AssertionError
        end
      else if String.eqb tok0 "state" then
        cs <-? state_items num_steps args ∅;
        Ok (set_states cs st)
      else if String.eqb tok0 "always" then
        match args with
        | [] =>
            Ok (set_states (list_to_set (step_key <$> Py.range 0 (num_steps + 1))) st)
        | [a] =>
            i <-? int_or_raise a;
            _ <-? py_assert (i <? 0);
            Ok (set_states (list_to_set (step_key <$> Py.range (- i) (num_steps + 1))) st)
        | _ => Raise AssertionError
        end
      else if String.eqb tok0 "assert" then
        match current_states st with
        | None => Raise AssertionError
        | Some cs =>
            Ok (State (constr_final_start st)
                  (append_all (loc fn (current_line st), Py.join " " args) cs
                     (constr_asserts st))
                  (constr_assumes st) (current_states st) (current_line st))
        end
      else if String.eqb tok0 "assume" then
        match current_states st with
        | None => Raise AssertionError
        | Some cs =>
            Ok (State (constr_final_start st) (constr_asserts st)
                  (append_all (loc fn (current_line st), Py.join " " args) cs
                     (constr_assumes st))
                  (current_states st) (current_line st))
        end
      else Raise AssertionError
  end.

Definition parse_line (num_steps : Z) (fn : string) (line : string)
    (st : state) : res state :=
  directive num_steps fn line
    (State (constr_final_start st) (constr_asserts st) (constr_assumes st)
       (current_states st) (current_line st + 1)).

Fixpoint parse_lines (num_steps : Z) (fn : string) (lines : list string)
    (st : state) : res state :=
  match lines with
  | [] => Ok st
  | line :: rest =>
      st' <-? parse_line num_steps fn line st;
      parse_lines num_steps fn rest st'
  end.

(** One file of [inconstr]: [current_states] and [current_line] start anew. *)
Definition parse_file (num_steps : Z) (fn : string) (lines : list string)
    (st : state) : res state :=
  parse_lines num_steps fn lines
    (State (constr_final_start st) (constr_asserts st) (constr_assumes st)
       None 0).

(** [for fn in inconstr]; a file is given by its name and its lines. *)
Fixpoint parse_files (num_steps : Z) (files : list (string * list string))
    (st : state) : res state :=
  match files with
  | [] => Ok st
  | (fn, lines) :: rest =>
      st' <-? parse_file num_steps fn lines st;
      parse_files num_steps rest st'
  end.

End Constr.

(** ** Run configuration: the script's global variables *)

Record config := Config {
  skip_steps : Z;
  step_size : Z;
  num_steps : Z;
  vcdfile : option string;
  vlogtbfile : option string;
  inconstr : list string;
  outconstr : option string;
  gentrace : bool;
  tempind : bool;
  dumpall : bool;
  assume_skipped : option Z;
  final_only : bool;
  topmod : option string
}.

Definition defaults : config :=
  Config 0 1 20 None None [] None false false false None false None.

Definition set_horizon (sk sz n : Z) (c : config) : config :=
  Config sk sz n (vcdfile c) (vlogtbfile c) (inconstr c) (outconstr c)
    (gentrace c) (tempind c) (dumpall c) (assume_skipped c) (final_only c)
    (topmod c).

(** [usage()] ends in [sys.exit(1)]. *)
Definition usage {A} : res A := Raise (SystemExit 1).

(** The body of [for o, a in opts].  [so_handle] is [so.handle] of the
    solver options object, which lives in [smtio]. *)
Definition set_option (so_handle : string -> string -> bool)
    (o a : string) (c : config) : res config :=
  if String.eqb o "-t" then
    match Py.split_on ":" "" a with
    | [a0] =>
        n <-? int_or_raise a0;
        Ok (set_horizon (skip_steps c) (step_size c) n c)
    | [a0; a1] =>
        sk <-? int_or_raise a0;
        n <-? int_or_raise a1;
        Ok (set_horizon sk (step_size c) n c)
    | [a0; a1; a2] =>
        sk <-? int_or_raise a0;
        sz <-? int_or_raise a1;
        n <-? int_or_raise a2;
        Ok (set_horizon sk sz n c)
    | _ => Raise AssertionError
    end
  else if String.eqb o "--assume-skipped" then
    k <-? int_or_raise a;
    Ok (Config (skip_steps c) (step_size c) (num_steps c) (vcdfile c)
          (vlogtbfile c) (inconstr c) (outconstr c) (gentrace c) (tempind c)
          (dumpall c) (Some k) (final_only c) (topmod c))
  else if String.eqb o "--final-only" then
    Ok (Config (skip_steps c) (step_size c) (num_steps c) (vcdfile c)
          (vlogtbfile c) (inconstr c) (outconstr c) (gentrace c) (tempind c)
          (dumpall c) (assume_skipped c) true (topmod c))
  else if String.eqb o "--smtc" then
    Ok (Config (skip_steps c) (step_size c) (num_steps c) (vcdfile c)
          (vlogtbfile c) (inconstr c ++ [a]) (outconstr c) (gentrace c)
          (tempind c) (dumpall c) (assume_skipped c) (final_only c) (topmod c))
  else if String.eqb o "--dump-vcd" then
    Ok (Config (skip_steps c) (step_size c) (num_steps c) (Some a)
          (vlogtbfile c) (inconstr c) (outconstr c) (gentrace c) (tempind c)
          (dumpall c) (assume_skipped c) (final_only c) (topmod c))
  else if String.eqb o "--dump-vlogtb" then
    Ok (Config (skip_steps c) (step_size c) (num_steps c) (vcdfile c)
          (Some a) (inconstr c) (outconstr c) (gentrace c) (tempind c)
          (dumpall c) (assume_skipped c) (final_only c) (topmod c))
  else if String.eqb o "--dump-smtc" then
    Ok (Config (skip_steps c) (step_size c) (num_steps c) (vcdfile c)
          (vlogtbfile c) (inconstr c) (Some a) (gentrace c) (tempind c)
          (dumpall c) (assume_skipped c) (final_only c) (topmod c))
  else if String.eqb o "--dump-all" then
    Ok (Config (skip_steps c) (step_size c) (num_steps c) (vcdfile c)
          (vlogtbfile c) (inconstr c) (outconstr c) (gentrace c) (tempind c)
          true (assume_skipped c) (final_only c) (topmod c))
  else if String.eqb o "-i" then
    Ok (Config (skip_steps c) (step_size c) (num_steps c) (vcdfile c)
          (vlogtbfile c) (inconstr c) (outconstr c) (gentrace c) true
          (dumpall c) (assume_skipped c) (final_only c) (topmod c))
  else if String.eqb o "-g" then
    Ok (Config (skip_steps c) (step_size c) (num_steps c) (vcdfile c)
          (vlogtbfile c) (inconstr c) (outconstr c) true (tempind c)
          (dumpall c) (assume_skipped c) (final_only c) (topmod c))
  else if String.eqb o "-m" then
    Ok (Config (skip_steps c) (step_size c) (num_steps c) (vcdfile c)
          (vlogtbfile c) (inconstr c) (outconstr c) (gentrace c) (tempind c)
          (dumpall c) (assume_skipped c) (final_only c) (Some a))
  else if so_handle o a then Ok c
  else usage.

Fixpoint set_options (so_handle : string -> string -> bool)
    (opts : list (string * string)) (c : config) : res config :=
  match opts with
  | [] => Ok c
  | (o, a) :: rest =>
      c' <-? set_option so_handle o a c;
      set_options so_handle rest c'
  end.

(** The command line as [getopt.getopt] returns it: [None] when it raised,
    otherwise the option pairs and the positional arguments.  Everything up
    to the exclusion check of [-i] and [--smtc]. *)
Definition startup (so_handle : string -> string -> bool)
    (cmdline : option (list (string * string) * list string))
    : res (config * string) :=
  match cmdline with
  | None => usage
  | Some (opts, args) =>
      c <-? set_options so_handle opts defaults;
      match args with
      | [input] =>
          if tempind c && negb (length (inconstr c) =? 0)%nat
          then Raise (SystemExit 1)
          else Ok (c, input)
      | _ => usage
      end
  end.

(** ** The solver transcript

    What the driver writes to the solver is kept in structured form;
    [render] further down gives the text of each command. *)

Inductive table := Asserts | Assumes.

(** The module's predicates [<topmod>_u], [_h], [_i], [_is], [_t], [_a]
    applied to frames [s<i>].  [Constr t final i] is
    [get_constr_expr(t, i, final=final)]. *)
Inductive atom :=
| P_u (i : Z)
| P_h (i : Z)
| P_i (i : Z)
| P_is (i : Z)
| P_t (i j : Z)
| P_a (i : Z)
| Constr (t : table) (final : bool) (i : Z).

Inductive command :=
| DeclareFun (i : Z)
| Assert (a : atom)
| AssertNot (a : atom)
| AssertNotAnd (l : list atom)
| Push (n : Z)
| Pop (n : Z)
| ExitCmd
| Raw (line : string).

Inductive message :=
| MsgSolver
| MsgSkipInduction (step : Z)
| MsgTryInduction (step : Z)
| MsgInductionFailed
| MsgInductionOk
| MsgSkipAssume (step : Z)
| MsgSkip (step : Z)
| MsgChecking (step last : Z)
| MsgBmcFailed
| MsgCheckingFinal (i : Z)
| MsgSolving (last : Z)
| MsgNoSolution
| MsgStatus (passed : bool).

(** Calls on the solver session and on the reporting functions, in program
    order.  The trace writers and the reporting functions are recorded as
    calls; [Get] is a call of [smt.get] by a reporting function. *)
Inductive event :=
| Setup (logic : string)
| Write (c : command)
| Info (line : string)
| CheckSat
| PrintAnyconsts (state : Z)
| PrintFailedAsserts (state : Z) (final : bool)
| WriteVcdTrace (file : string) (start stop : Z) (index : string)
| WriteVlogtbTrace (file : string) (start stop : Z) (index : string)
| WriteConstrTrace (file : string) (start stop : Z) (index : string)
| Print (m : message)
| Wait
| Get (expr : string).

(** A computation that talks to the solver: given the number of [check_sat]
    calls made so far, its value, the events it adds and the new count. *)
Definition M (A : Type) : Type := nat -> A * list event * nat.

Definition ret {A} (a : A) : M A := fun n => (a, [], n).

Definition bind {A B} (m : M A) (k : A -> M B) : M B :=
  fun n =>
    let '(a, ev1, n1) := m n in
    let '(b, ev2, n2) := k a n1 in
    (b, ev1 ++ ev2, n2).

Notation "x <- m ;; k" := (bind m (fun x => k))
  (at level 100, m at next level, right associativity).
Notation "m ;; k" := (bind m (fun _ => k))
  (at level 100, right associativity).

Definition emit (e : event) : M unit := fun n => (tt, [e], n).
Definition write (c : command) : M unit := emit (Write c).
Definition say (m : message) : M unit := emit (Print m).

(** [for x in l: body(x)] *)
Fixpoint for_each {A} (l : list A) (body : A -> M unit) : M unit :=
  match l with
  | [] => ret tt
  | x :: rest => body x ;; for_each rest body
  end.

Definition value {A} (r : A * list event * nat) : A := r.1.1.
Definition events {A} (r : A * list event * nat) : list event := r.1.2.
Definition checks {A} (r : A * list event * nat) : nat := r.2.

(** The assertion-scope depth the solver is at after reading [ev]. *)
Fixpoint scope_depth (ev : list event) : Z :=
  match ev with
  | [] => 0
  | Write (Push n) :: rest => n + scope_depth rest
  | Write (Pop n) :: rest => scope_depth rest - n
  | _ :: rest => scope_depth rest
  end.

Section Driver.

(** The answer of the solver to its n-th [check_sat]. *)
Variable answers : nat -> string.

Variable c : config.
Variable db : Constr.state.

Definition check_sat : M string :=
  fun n => (answers n, [CheckSat], S n).

Definition print_anyconsts (state : Z) : M unit := emit (PrintAnyconsts state).

Definition print_failed_asserts (state : Z) (final : bool) : M unit :=
  emit (PrintFailedAsserts state final).

Definition write_trace (steps_start steps_stop : Z) (index : string) : M unit :=
  (match vcdfile c with
   | Some f => emit (WriteVcdTrace f steps_start steps_stop index)
   | None => ret tt
   end) ;;
  (match vlogtbfile c with
   | Some f => emit (WriteVlogtbTrace f steps_start steps_stop index)
   | None => ret tt
   end) ;;
  (match outconstr c with
   | Some f => emit (WriteConstrTrace f steps_start steps_stop index)
   | None => ret tt
   end).

(** *** Temporal induction *)

(** The loop [for step in range(num_steps, -1, -1)] over the steps still to
    come; the value is [retstatus]. *)
Fixpoint induction_loop (steps : list Z) (skip_counter : Z) (retstatus : bool)
    : M bool :=
  match steps with
  | [] => ret retstatus
  | step :: rest =>
      write (DeclareFun step) ;;
      write (Assert (P_u step)) ;;
      write (Assert (P_h step)) ;;
      write (AssertNot (P_is step)) ;;
      (if step =? num_steps c then
         write (AssertNot (P_a step))
       else
         write (Assert (P_t step (step + 1))) ;;
         write (Assert (P_a step))) ;;
      if num_steps c - skip_steps c <? step then
        say (MsgSkipInduction step) ;;
        induction_loop rest skip_counter retstatus
      else
        let skip_counter := skip_counter + 1 in
        if skip_counter <? step_size c then
          say (MsgSkipInduction step) ;;
          induction_loop rest skip_counter retstatus
        else
          let skip_counter := 0 in
          say (MsgTryInduction step) ;;
          ans <- check_sat ;;
          if String.eqb ans "sat" then
            (if step =? 0 then
               say MsgInductionFailed ;;
               print_anyconsts (num_steps c) ;;
               print_failed_asserts (num_steps c) false ;;
               write_trace step (num_steps c + 1) "%"
             else if dumpall c then
               print_anyconsts (num_steps c) ;;
               print_failed_asserts (num_steps c) false ;;
               write_trace step (num_steps c + 1) (Py.fmt_d step)
             else ret tt) ;;
            induction_loop rest skip_counter retstatus
          else
            say MsgInductionOk ;;
            ret true
  end.

Definition induction : M bool :=
  induction_loop (Py.range_down (num_steps c)) (step_size c) false.

(** *** Bounded model checking and trace generation *)

(** How an iteration of [while step < num_steps] ends. *)
Inductive flow :=
| Continue
| Break.

(** Lines 571-582: the frame of the cursor. *)
Definition bmc_frame (step : Z) : M unit :=
  write (DeclareFun step) ;;
  write (Assert (P_u step)) ;;
  write (Assert (P_h step)) ;;
  write (Assert (Constr Assumes false step)) ;;
  if step =? 0 then
    write (Assert (P_i 0)) ;;
    write (Assert (P_is 0))
  else
    write (Assert (P_t (step - 1) step)) ;;
    write (AssertNot (P_is step)).

(** Lines 585-590: a skipped step. *)
Definition bmc_skip (step : Z) : M unit :=
  match assume_skipped c with
  | Some k =>
      if k <=? step then
        say (MsgSkipAssume step) ;;
        write (Assert (P_a step)) ;;
        write (Assert (Constr Asserts false step))
      else say (MsgSkip step)
  | None => say (MsgSkip step)
  end.

(** Lines 594-602: [for i in range(1, step_size)], the value is
    [last_check_step]. *)
Fixpoint extend_window (step : Z) (offsets : list Z) (last_check_step : Z)
    : M Z :=
  match offsets with
  | [] => ret last_check_step
  | i :: rest =>
      if step + i <? num_steps c then
        write (DeclareFun (step + i)) ;;
        write (Assert (P_u (step + i))) ;;
        write (Assert (P_h (step + i))) ;;
        write (Assert (P_t (step + i - 1) (step + i))) ;;
        write (Assert (Constr Assumes false (step + i))) ;;
        extend_window step rest (step + i)
      else extend_window step rest last_check_step
  end.

(** Lines 605-624: the assert check of a window. *)
Definition check_asserts (step last_check_step : Z) (retstatus : bool)
    : M (flow * bool) :=
  if negb (final_only c) then
    say (MsgChecking step last_check_step) ;;
    write (Push 1) ;;
    write (AssertNotAnd
             ((P_a <$> Py.range step (last_check_step + 1))
              ++ (Constr Asserts false <$> Py.range step (last_check_step + 1)))) ;;
    ans <- check_sat ;;
    if String.eqb ans "sat" then
      say MsgBmcFailed ;;
      print_anyconsts step ;;
      for_each (Py.range step (last_check_step + 1))
        (fun i => print_failed_asserts i false) ;;
      write_trace 0 (last_check_step + 1) "%" ;;
      ret (Break, false)
    else
      write (Pop 1) ;;
      ret (Continue, retstatus)
  else ret (Continue, retstatus).

(** Lines 626-628 and 654-656: the asserts of the window are assumed. *)
Definition commit_asserts (step last_check_step : Z) : M unit :=
  for_each (Py.range step (last_check_step + 1))
    (fun i =>
       write (Assert (P_a i)) ;;
       write (Assert (Constr Asserts false i))).

(** Lines 635-649: the final-state check at step [i]. *)
Definition check_final (i : Z) (retstatus : bool) : M (flow * bool) :=
  say (MsgCheckingFinal i) ;;
  write (Push 1) ;;
  write (Assert (Constr Assumes true i)) ;;
  write (AssertNot (Constr Asserts true i)) ;;
  ans <- check_sat ;;
  if String.eqb ans "sat" then
    say MsgBmcFailed ;;
    print_anyconsts i ;;
    print_failed_asserts i true ;;
    write_trace 0 (i + 1) "%" ;;
    ret (Break, false)
  else
    write (Pop 1) ;;
    ret (Continue, retstatus).

(** Lines 631-649: [for i in range(step, last_check_step+1)] with its
    [continue] and [break]; the value is [retstatus]. *)
Fixpoint final_checks (final_start : Z) (steps : list Z) (retstatus : bool)
    : M bool :=
  match steps with
  | [] => ret retstatus
  | i :: rest =>
      if i <? final_start then final_checks final_start rest retstatus
      else
        r <- check_final i retstatus ;;
        match r with
        | (Break, retstatus) => ret retstatus
        | (Continue, retstatus) => final_checks final_start rest retstatus
        end
  end.

(** Lines 604-666: what is done with the window [step .. last_check_step]. *)
Definition bmc_window (step last_check_step : Z) (retstatus : bool)
    : M (flow * bool) :=
  if negb (gentrace c) then
    r <- check_asserts step last_check_step retstatus ;;
    match r with
    | (Break, retstatus) => ret (Break, retstatus)
    | (Continue, retstatus) =>
        commit_asserts step last_check_step ;;
        match Constr.constr_final_start db with
        | Some final_start =>
            retstatus <- final_checks final_start
                           (Py.range step (last_check_step + 1)) retstatus ;;
            if negb retstatus then ret (Break, retstatus)
            else ret (Continue, retstatus)
        | None => ret (Continue, retstatus)
        end
    end
  else
    commit_asserts step last_check_step ;;
    say (MsgSolving last_check_step) ;;
    ans <- check_sat ;;
    if negb (String.eqb ans "sat") then
      say MsgNoSolution ;;
      ret (Break, false)
    else if dumpall c then
      print_anyconsts 0 ;;
      write_trace 0 (last_check_step + 1) (Py.fmt_d step) ;;
      ret (Continue, retstatus)
    else ret (Continue, retstatus).

(** One iteration of [while step < num_steps]: the flow, the next value of
    [step] and [retstatus]. *)
Definition bmc_iteration (step : Z) (retstatus : bool)
    : M (flow * Z * bool) :=
  bmc_frame step ;;
  if step <? skip_steps c then
    bmc_skip step ;;
    ret (Continue, step + 1, retstatus)
  else
    last_check_step <- extend_window step (Py.range 1 (step_size c)) step ;;
    r <- bmc_window step last_check_step retstatus ;;
    match r with
    | (Break, retstatus) => ret (Break, step, retstatus)
    | (Continue, retstatus) => ret (Continue, step + step_size c, retstatus)
    end.

(** [while step < num_steps].  The loop need not end ([step_size] may be 0
    or negative): [None] when [fuel] iterations were not enough, otherwise
    [retstatus]. *)
Fixpoint bmc_loop (fuel : nat) (step : Z) (retstatus : bool)
    : M (option bool) :=
  match fuel with
  | O => ret None
  | S fuel' =>
      if step <? num_steps c then
        r <- bmc_iteration step retstatus ;;
        match r with
        | (Break, _, retstatus) => ret (Some retstatus)
        | (Continue, step', retstatus) => bmc_loop fuel' step' retstatus
        end
      else ret (Some retstatus)
  end.

(** Lines 568-672. *)
Definition bmc (fuel : nat) : M (option bool) :=
  r <- bmc_loop fuel 0 true ;;
  match r with
  | None => ret None
  | Some retstatus =>
      (if gentrace c then
         print_anyconsts 0 ;;
         write_trace 0 (num_steps c) "%"
       else ret tt) ;;
      ret (Some retstatus)
  end.

(** Lines 521-679 after the declarations: the driver chosen by [-i], then
    [(exit)], the status line, and the exit code. *)
Definition drive (fuel : nat) : M (option Z) :=
  r <- (if tempind c then b <- induction ;; ret (Some b) else bmc fuel) ;;
  match r with
  | None => ret None
  | Some retstatus =>
      write ExitCmd ;;
      emit Wait ;;
      say (MsgStatus retstatus) ;;
      ret (Some (if retstatus then 0 else 1))
  end.

End Driver.

(** ** Resolving constraint expressions: [get_constr_expr]

    [net_expr] and [get_path] are methods of the solver session ([smtio]);
    [top] is the value of [topmod] when the drivers run. *)

Section Resolver.

Variable net_expr : string -> string -> list string -> string.
Variable get_path : string -> string -> list string.
Variable top : string.

(** [int(state_sel[:-1])].  Group 2 of a match is empty or a sign, digits and
    a colon, so [int] does not raise here (lemma [state_sel_int]). *)
Definition sel_int (state_sel : string) : Z :=
  default 0 (Py.int (Py.drop_last state_sel)).

(** The step a net reference with selector [state_sel] is resolved at. *)
Definition netref_step (state : Z) (state_sel : string) : Z :=
  match state_sel with
  | EmptyString => state
  | String c _ =>
      if Ascii.eqb c "-" then state + sel_int state_sel
      else sel_int state_sel
  end.

Definition replace_netref (state : Z) (m : Netref.rmatch) : string :=
  let st := netref_step state (Netref.group2 m) in
  let expr := net_expr top ("s" +:+ Py.fmt_d st) (get_path top (Netref.group3 m)) in
  Netref.group1 m +:+ expr.

(** [get_constr_expr(db, state, final)] with [getvalues=False]. *)
Definition get_constr_expr (db : gmap Constr.key (list Constr.entry))
    (state : Z) (final : bool) : string :=
  match db !! (if final then Constr.final_key state else Constr.step_key state) with
  | None => "true"
  | Some entries =>
      let expr_list :=
        (fun e : Constr.entry => Netref.sub (replace_netref state) e.2) <$> entries in
      match expr_list with
      | [] => "true"
      | [e] => e
      | _ => "(and " +:+ Py.join " " expr_list +:+ ")"
      end
  end.

(** The text written for each command. *)
Definition render_atom (cdb : Constr.state) (a : atom) : string :=
  match a with
  | P_u i => "(" +:+ top +:+ "_u s" +:+ Py.fmt_d i +:+ ")"
  | P_h i => "(" +:+ top +:+ "_h s" +:+ Py.fmt_d i +:+ ")"
  | P_i i => "(" +:+ top +:+ "_i s" +:+ Py.fmt_d i +:+ ")"
  | P_is i => "(" +:+ top +:+ "_is s" +:+ Py.fmt_d i +:+ ")"
  | P_t i j => "(" +:+ top +:+ "_t s" +:+ Py.fmt_d i +:+ " s" +:+ Py.fmt_d j +:+ ")"
  | P_a i => "(" +:+ top +:+ "_a s" +:+ Py.fmt_d i +:+ ")"
  | Constr Asserts final i => get_constr_expr (Constr.constr_asserts cdb) i final
  | Constr Assumes final i => get_constr_expr (Constr.constr_assumes cdb) i final
  end.

Definition render (cdb : Constr.state) (cmd : command) : string :=
  match cmd with
  | DeclareFun i => "(declare-fun s" +:+ Py.fmt_d i +:+ " () " +:+ top +:+ "_s)"
  | Assert a => "(assert " +:+ render_atom cdb a +:+ ")"
  | AssertNot a => "(assert (not " +:+ render_atom cdb a +:+ "))"
  | AssertNotAnd l =>
      "(assert (not (and " +:+ Py.join " " (render_atom cdb <$> l) +:+ ")))"
  | Push n => "(push " +:+ Py.fmt_d n +:+ ")"
  | Pop n => "(pop " +:+ Py.fmt_d n +:+ ")"
  | ExitCmd => "(exit)"
  | Raw line => line
  end.

End Resolver.

(** ** Reporting: [print_anyconsts_worker] and [print_failed_asserts_worker] *)

(** The part of [smt.modinfo[mod]] read here: the items of the dictionaries
    [cells] (cell name, cell type), [anyconsts] (function, info) and
    [asserts] (function, info). *)
Record modinfo := ModInfo {
  cells : list (string * string);
  anyconsts : list (string * string);
  asserts : list (string * string)
}.

Section Anyconsts.

Variable smt_modinfo : string -> option modinfo.

(** The expressions passed to [smt.get], in order.  The recursion follows the
    cell hierarchy, which is data of the solver session: [None] when it is
    deeper than [fuel]. *)
Fixpoint print_anyconsts_worker (fuel : nat) (mod_ state path : string)
    : option (res (list string)) :=
  match fuel with
  | O => None
  | S fuel' =>
      match smt_modinfo mod_ with
      | None => Some (Raise AssertionError)
      | Some mi =>
          match
            fold_left
              (fun acc (cell : string * string) =>
                 match acc with
                 | Some (Ok qs) =>
                     match
                       print_anyconsts_worker fuel' cell.2
                         ("(|" +:+ mod_ +:+ "_h " +:+ cell.1 +:+ "| " +:+ state +:+ ")")
                         (path +:+ "." +:+ cell.1)
                     with
                     | Some (Ok qs') => Some (Ok (qs ++ qs'))
                     | other => other
                     end
                 | other => other
                 end)
              (cells mi) (Some (Ok []))
          with
          | Some (Ok qs) =>
              Some (Ok (qs ++ ((fun fi : string * string =>
                                  "(|" +:+ fi.1 +:+ "| " +:+ state +:+ ")")
                               <$> anyconsts mi)))
          | other => other
          end
      end
  end.

(** The model queries of [print_anyconsts(state)]. *)
Definition print_anyconsts_queries (fuel : nat) (top : string) (state : Z)
    : option (res (list string)) :=
  print_anyconsts_worker fuel top ("s" +:+ Py.fmt_d state) top.

(** Lines 482-493, with [get] the values [smt.get] returns from the model at
    hand: the expressions passed to [smt.get], in order.  A module whose
    asserts hold is not looked into. *)
Fixpoint print_failed_asserts_worker (get : string -> string) (fuel : nat)
    (mod_ state path : string) : option (res (list string)) :=
  match fuel with
  | O => None
  | S fuel' =>
      match smt_modinfo mod_ with
      | None => Some (Raise AssertionError)
      | Some mi =>
          let holds := "(|" +:+ mod_ +:+ "_a| " +:+ state +:+ ")" in
          if String.eqb (get holds) "true" then Some (Ok [holds])
          else
            match
              fold_left
                (fun acc (cell : string * string) =>
                   match acc with
                   | Some (Ok qs) =>
                       match
                         print_failed_asserts_worker get fuel' cell.2
                           ("(|" +:+ mod_ +:+ "_h " +:+ cell.1 +:+ "| " +:+ state +:+ ")")
                           (path +:+ "." +:+ cell.1)
                       with
                       | Some (Ok qs') => Some (Ok (qs ++ qs'))
                       | other => other
                       end
                   | other => other
                   end)
                (cells mi) (Some (Ok [holds]))
            with
            | Some (Ok qs) =>
                Some (Ok (qs ++ ((fun fi : string * string =>
                                    "(|" +:+ fi.1 +:+ "| " +:+ state +:+ ")")
                                 <$> asserts mi)))
            | other => other
            end
      end
  end.

End Anyconsts.

(** ** The reporting calls of a run

    The drivers record a call of [print_anyconsts], [print_failed_asserts]
    or a trace writer as one event.  Here the calls are carried out: each
    is followed by the [smt.get] calls of its worker, and the first call
    that raises ends the run; its event is the last of the transcript (the
    [smt.get] calls it made before it raised are not listed).  A worker
    raises at a module that is not in [smt.modinfo], a trace writer when
    its file cannot be opened.  The values [smt.get_list] returns for the
    user asserts, and what the trace writers read from the model and write
    once the file is open, stay within the event of the call. *)

Section Reports.

Variable smt_modinfo : string -> option modinfo.

(** [smt_get n expr]: the value [smt.get(expr)] returns from the model of
    the [n]-th [check_sat]. *)
Variable smt_get : nat -> string -> string.

(** Whether [open(filename, "w")] succeeds. *)
Variable writable : string -> bool.

Variable top : string.

(** [open(file.replace("%", index), "w")] at the head of a trace writer. *)
Definition open_trace (file index : string) : res (list string) :=
  if writable (Py.replace "%" index file) then Ok []
  else Raise (OSError (Py.replace "%" index file)).

(** The [smt.get] calls of the reporting call [e] after [n] checks, or the
    exception it raises. *)
Definition report_call (fuel n : nat) (e : event)
    : option (res (list string)) :=
  match e with
  | PrintAnyconsts state => print_anyconsts_queries smt_modinfo fuel top state
  | PrintFailedAsserts state false =>
      print_failed_asserts_worker smt_modinfo (smt_get n) fuel top
        ("s" +:+ Py.fmt_d state) top
  | WriteVcdTrace file _ _ index => Some (open_trace file index)
  | WriteVlogtbTrace file _ _ index => Some (open_trace file index)
  | WriteConstrTrace file _ _ index => Some (open_trace file index)
  | _ => Some (Ok [])
  end.

(** The events of the drivers with the reporting calls carried out, and the
    exception that ended them, if any; [n] counts the checks made. *)
Fixpoint reports (fuel n : nat) (ev : list event)
    : option (list event * option exn) :=
  match ev with
  | [] => Some ([], None)
  | e :: rest =>
      match report_call fuel n e with
      | None => None
      | Some (Raise x) => Some ([e], Some x)
      | Some (Ok gets) =>
          match
            reports fuel (match e with CheckSat => S n | _ => n end) rest
          with
          | None => None
          | Some (ev', x) => Some (e :: (Get <$> gets) ++ ev', x)
          end
      end
  end.

End Reports.

(** ** The whole script *)

(** What the script is run with.  [files] gives the lines of a file that can
    be opened for reading, [writable] tells whether a file can be opened for
    writing; [so_handle], [smt_topmod], [smt_modinfo] and [smt_get] belong to
    [smtio] ([smt.topmod] and [smt.modinfo] are read after the input was
    sent). *)
Record world := World {
  so_handle : string -> string -> bool;
  cmdline : option (list (string * string) * list string);
  files : string -> option (list string);
  writable : string -> bool;
  smt_topmod : option string;
  smt_modinfo : string -> option modinfo;
  answers : nat -> string;
  smt_get : nat -> string -> string
}.

(** [open(fn, "r")] and the lines read from it. *)
Definition open_file (files : string -> option (list string)) (fn : string)
    : res (list string) :=
  match files fn with
  | Some lines => Ok lines
  | None => Raise (OSError fn)
  end.

(** Lines 148-229: [for fn in inconstr], each file opened when its turn
    comes. *)
Fixpoint read_constraints (files : string -> option (list string))
    (num_steps : Z) (fns : list string) (st : Constr.state)
    : res Constr.state :=
  match fns with
  | [] => Ok st
  | fn :: rest =>
      lines <-? open_file files fn;
      st' <-? Constr.parse_file num_steps fn lines st;
      read_constraints files num_steps rest st'
  end.

(** [for line in f: smt.write(line); smt.info(line)] *)
Definition send_input (lines : list string) : list event :=
  lines ≫= (fun line => [Write (Raw line); Info line]).

(** Lines 288-289: [-m], or else the top module of the solver session. *)
Definition top_module (w : world) (c : config) : option string :=
  match topmod c with
  | Some t => Some t
  | None => smt_topmod w
  end.

(** Lines 90-679.  The value is how the process ends and what the solver
    session saw; [None] when a reporting call went deeper into the cell
    hierarchy than [fuel], or the BMC loop did not end within [fuel]
    iterations and no reporting call raised in them. *)
Definition main (w : world) (fuel : nat) : option (res Z * list event) :=
  match startup (so_handle w) (cmdline w) with
  | Raise e => Some (Raise e, [])
  | Ok (c, input) =>
      match read_constraints (files w) (num_steps c) (inconstr c) Constr.init with
      | Raise e => Some (Raise e, [])
      | Ok cdb =>
          let ev0 := [Print MsgSolver; Setup "QF_AUFBV"] in
          match open_file (files w) input with
          | Raise e => Some (Raise e, ev0)
          | Ok lines =>
              let ev1 := ev0 ++ send_input lines in
              match top_module w c with
              | None => Some (Raise AssertionError, ev1)
              | Some top =>
                  match smt_modinfo w top with
                  | None => Some (Raise AssertionError, ev1)
                  | Some _ =>
                      let '(code, ev, _) := drive (answers w) c cdb fuel 0%nat in
                      match
                        reports (smt_modinfo w) (smt_get w) (writable w)
                          top fuel 0%nat ev
                      with
                      | None => None
                      | Some (ev', Some e) => Some (Raise e, ev1 ++ ev')
                      | Some (ev', None) =>
                          match code with
                          | Some code => Some (Raise (SystemExit code), ev1 ++ ev')
                          | None => None
                          end
                      end
                  end
              end
          end
      end
  end.

(** The exit status of the process: [sys.exit(n)] gives [n], an uncaught
    exception gives 1. *)
Definition exit_code (r : res Z) : Z :=
  match r with
  | Ok n => n
  | Raise (SystemExit n) => n
  | Raise _ => 1
  end.

(** Equality of events is decidable. *)
#[global] Instance table_eq_dec : EqDecision table.
Proof. solve_decision. Defined.
#[global] Instance atom_eq_dec : EqDecision atom.
Proof. solve_decision. Defined.
#[global] Instance command_eq_dec : EqDecision command.
Proof. solve_decision. Defined.
#[global] Instance message_eq_dec : EqDecision message.
Proof. solve_decision. Defined.
#[global] Instance event_eq_dec : EqDecision event.
Proof. solve_decision. Defined.

(** * Vocabulary of the properties *)

(** The value of a string of decimal digits. *)
Definition dec_value (ds : string) : Z :=
  fold_left (fun acc ch => 10 * acc + Py.digit_val ch) (list_ascii_of_string ds) 0.

(** A non-empty string of decimal digits. *)
Definition digits (ds : string) : Prop :=
  ds <> "" /\ Forall (fun ch => Py.is_digit ch = true) (list_ascii_of_string ds).



(** Whether [s] holds a ["["] at its start (when [at_start]) or right after
    a ["("] or a space. *)
Fixpoint opens (at_start : bool) (s : string) : bool :=
  match s with
  | EmptyString => false
  | String c t =>
      (at_start && Ascii.eqb c "[")
      || opens (Ascii.eqb c "(" || Ascii.eqb c " ") t
  end.





(** The events of the trace writers. *)
Definition trace_events (c : config) (start stop : Z) (index : string)
    : list event :=
  match vcdfile c with
  | Some f => [WriteVcdTrace f start stop index]
  | None => []
  end
  ++ match vlogtbfile c with
     | Some f => [WriteVlogtbTrace f start stop index]
     | None => []
     end
  ++ match outconstr c with
     | Some f => [WriteConstrTrace f start stop index]
     | None => []
     end.

(** The events of the frame of the cursor, of a skipped step, of the window
    extension and of the commit. *)
Definition frame_events (step : Z) : list event :=
  [Write (DeclareFun step); Write (Assert (P_u step));
   Write (Assert (P_h step)); Write (Assert (Constr Assumes false step))]
  ++ (if step =? 0
      then [Write (Assert (P_i 0)); Write (Assert (P_is 0))]
      else [Write (Assert (P_t (step - 1) step)); Write (AssertNot (P_is step))]).

Definition assumed_skipped (c : config) (step : Z) : bool :=
  match assume_skipped c with
  | Some k => k <=? step
  | None => false
  end.

Definition skip_events (c : config) (step : Z) : list event :=
  if assumed_skipped c step
  then [Print (MsgSkipAssume step); Write (Assert (P_a step));
        Write (Assert (Constr Asserts false step))]
  else [Print (MsgSkip step)].

Definition extension_events (i : Z) : list event :=
  [Write (DeclareFun i); Write (Assert (P_u i)); Write (Assert (P_h i));
   Write (Assert (P_t (i - 1) i)); Write (Assert (Constr Assumes false i))].

Fixpoint extend_last (c : config) (step : Z) (offsets : list Z) (last : Z) : Z :=
  match offsets with
  | [] => last
  | i :: rest =>
      if step + i <? num_steps c then extend_last c step rest (step + i)
      else extend_last c step rest last
  end.

Definition extend_events (c : config) (step : Z) (offsets : list Z)
    : list event :=
  offsets ≫= (fun i =>
    if step + i <? num_steps c then extension_events (step + i) else []).

Definition commit_events (step last : Z) : list event :=
  Py.range step (last + 1) ≫= (fun i =>
    [Write (Assert (P_a i)); Write (Assert (Constr Asserts false i))]).

(** The obligation of a window, and the report of a failed check. *)
Definition obligation (step last : Z) : list atom :=
  (P_a <$> Py.range step (last + 1))
  ++ (Constr Asserts false <$> Py.range step (last + 1)).

Definition failure_report (c : config) (step last : Z) : list event :=
  [Print MsgBmcFailed; PrintAnyconsts step]
  ++ ((fun i => PrintFailedAsserts i false) <$> Py.range step (last + 1))
  ++ trace_events c 0 (last + 1) "%".

Definition final_report (c : config) (i : Z) : list event :=
  [Print MsgBmcFailed; PrintAnyconsts i; PrintFailedAsserts i true]
  ++ trace_events c 0 (i + 1) "%".

(** The events up to the answer of a final-state check. *)
Definition final_query (i : Z) : list event :=
  [Print (MsgCheckingFinal i); Write (Push 1);
   Write (Assert (Constr Assumes true i));
   Write (AssertNot (Constr Asserts true i)); CheckSat].

(** The right edge of the window of the cursor. *)
Definition window_last (c : config) (step : Z) : Z :=
  extend_last c step (Py.range 1 (step_size c)) step.

Definition window_events (c : config) (step : Z) : list event :=
  frame_events step ++ extend_events c step (Py.range 1 (step_size c)).

(** An event that neither opens nor closes a scope. *)
Definition scopeless (e : event) : Prop :=
  match e with
  | Write (Push _) | Write (Pop _) => False
  | _ => True
  end.

(** An answer as the drivers read it: ["sat"], or not. *)
Definition settle (a : string) : string :=
  if String.eqb a "sat" then "sat" else "unsat".

(** The asserts of step [i] are assumed by the events [ev]. *)
Definition assumed (i : Z) (ev : list event) : Prop :=
  Write (Assert (P_a i)) ∈ ev \/ Write (Assert (Constr Asserts false i)) ∈ ev.

(** The asserts of step [i] are part of an obligation checked in [ev]. *)
Definition checked (i : Z) (ev : list event) : Prop :=
  exists l, Write (AssertNotAnd l) ∈ ev
            /\ (P_a i ∈ l \/ Constr Asserts false i ∈ l).

(** An atom about the asserts of a step mentions only steps from [lo] on. *)
Definition atom_from (lo : Z) (a : atom) : Prop :=
  match a with
  | P_a j | Constr Asserts false j => lo <= j
  | _ => True
  end.

(** What an event may do with the asserts of a step: assume them when the
    step is not skipped or is skipped from [assume_skipped] on, check them
    when the step is not skipped. *)
Definition respects_skip (c : config) (e : event) : Prop :=
  match e with
  | Write (Assert (P_a j)) | Write (Assert (Constr Asserts false j)) =>
      skip_steps c <= j \/ assumed_skipped c j = true
  | Write (AssertNotAnd l) => Forall (atom_from (skip_steps c)) l
  | _ => True
  end.



(** The answers number [n] to [n' - 1] all let the loop go on. *)
Definition runs_on (go : string -> bool) (answers : nat -> string)
    (n n' : nat) : Prop :=
  (n <= n')%nat /\ forall k, (n <= k < n')%nat -> go (answers k) = true.

(** The answers from number [n] on let the loop go on until answer number
    [n' - 1], which ends it. *)
Definition stops (go : string -> bool) (answers : nat -> string)
    (n n' : nat) : Prop :=
  (n < n')%nat
  /\ (forall k, (n <= k < n' - 1)%nat -> go (answers k) = true)
  /\ go (answers (n' - 1)%nat) = false.

(** In BMC mode the loop goes on after an answer other than ["sat"], in
    trace generation mode after ["sat"]. *)
Definition bmc_go (c : config) (a : string) : bool :=
  if gentrace c then String.eqb a "sat" else negb (String.eqb a "sat").







(** [needle] occurs in [hay]. *)
Fixpoint contains (needle hay : string) : bool :=
  String.prefix needle hay
  || match hay with
     | String _ t => contains needle t
     | EmptyString => false
     end.

Definition directives : list string :=
  ["initial"; "final"; "state"; "always"; "assert"; "assume"].

(** An item of a [state] line that is neither an integer nor a range
    [lo:hi] of integers, where [hi] may be [*]. *)
Definition bad_item (token : string) : Prop :=
  match Py.split_on ":" "" token with
  | [_] => Py.int token = None
  | [lo; hi] => Py.int lo = None \/ (hi <> "*" /\ Py.int hi = None)
  | _ => True
  end.

(** The arguments of [final] or [always] when they are not: none, or one
    negative integer. *)
Definition bad_argument (args : list string) : Prop :=
  match args with
  | [] => False
  | [a] => match Py.int a with Some i => 0 <= i | None => True end
  | _ => True
  end.

(** A line the format does not allow, when the active steps are [cs]. *)
Definition bad_line (cs : option (gset Constr.key)) (line : string) : Prop :=
  Py.starts_with_hash line = false
  /\ exists tok args,
       Py.split line = tok :: args
       /\ (~ In tok directives
           \/ ((tok = "assert" \/ tok = "assume") /\ cs = None)
           \/ ((tok = "final" \/ tok = "always") /\ bad_argument args)
           \/ (tok = "state" /\ Exists bad_item args)).

(** The exceptions of the parser: a failed [assert], or [int()] on [tok]. *)
Definition parser_exn (e : exn) : Prop :=
  e = AssertionError \/ exists tok, e = ValueError tok.

Definition induction_frame (c : config) (step : Z) : list event :=
  [Write (DeclareFun step); Write (Assert (P_u step));
   Write (Assert (P_h step)); Write (AssertNot (P_is step))]
  ++ (if step =? num_steps c
      then [Write (AssertNot (P_a step))]
      else [Write (Assert (P_t step (step + 1))); Write (Assert (P_a step))]).

Definition induction_report (c : config) (step : Z) : list event :=
  if step =? 0 then
    [Print MsgInductionFailed; PrintAnyconsts (num_steps c);
     PrintFailedAsserts (num_steps c) false]
    ++ trace_events c step (num_steps c + 1) "%"
  else if dumpall c then
    [PrintAnyconsts (num_steps c); PrintFailedAsserts (num_steps c) false]
    ++ trace_events c step (num_steps c + 1) (Py.fmt_d step)
  else [].


Definition closing (rs : bool) : list event :=
  [Write ExitCmd; Wait; Print (MsgStatus rs)].

(** The value read from the digits of a decimal number, most significant
    digit first, after [acc]. *)
Fixpoint uint_value (acc : Z) (d : Decimal.uint) : Z :=
  match d with
  | Decimal.Nil => acc
  | Decimal.D0 l => uint_value (10 * acc) l
  | Decimal.D1 l => uint_value (10 * acc + 1) l
  | Decimal.D2 l => uint_value (10 * acc + 2) l
  | Decimal.D3 l => uint_value (10 * acc + 3) l
  | Decimal.D4 l => uint_value (10 * acc + 4) l
  | Decimal.D5 l => uint_value (10 * acc + 5) l
  | Decimal.D6 l => uint_value (10 * acc + 6) l
  | Decimal.D7 l => uint_value (10 * acc + 7) l
  | Decimal.D8 l => uint_value (10 * acc + 8) l
  | Decimal.D9 l => uint_value (10 * acc + 9) l
  end.

(** The lower end of the scope of [always] and [final]: 0 without
    argument, [k] for the argument [-k]. *)
Definition scope_from (args : list string) (lo : Z) : Prop :=
  (args = [] /\ lo = 0)
  \/ exists a m, args = [a] /\ Py.int a = Some m /\ m < 0 /\ lo = - m.

(** The steps an item of a [state] line stands for: a number, or a range
    [lo:hi] with both ends included, [*] for the horizon. *)
Definition item_covers (n : Z) (token : string) (i : Z) : Prop :=
  match Py.split_on ":" "" token with
  | [_] => Py.int token = Some i
  | [lo; hi] =>
      exists l u, Py.int lo = Some l
                  /\ (if String.eqb hi "*" then u = n else Py.int hi = Some u)
                  /\ l <= i <= u
  | _ => False
  end.

(** A line the parser passes over: a comment, or nothing but white space. *)
Definition passed_over (line : string) : Prop :=
  Py.starts_with_hash line = true \/ Py.split line = [].

(** What one line does to the two tables: nothing, or one entry added to
    the lists of the active keys of one of them. *)
Definition line_effect (st st' : Constr.state) : Prop :=
  (Constr.constr_asserts st' = Constr.constr_asserts st
   /\ Constr.constr_assumes st' = Constr.constr_assumes st)
  \/ (exists e cs,
        Constr.constr_asserts st' = Constr.append_all e cs (Constr.constr_asserts st)
        /\ Constr.constr_assumes st' = Constr.constr_assumes st)
  \/ (exists e cs,
        Constr.constr_assumes st' = Constr.append_all e cs (Constr.constr_assumes st)
        /\ Constr.constr_asserts st' = Constr.constr_asserts st).

(** The table [new] has every key of [old], with the list of [old] as the
    front part of its list. *)
Definition extends (old new : gmap Constr.key (list Constr.entry)) : Prop :=
  forall k l, old !! k = Some l -> exists more, new !! k = Some (l ++ more).

(** No key of the table holds an empty list. *)
Definition filled (db : gmap Constr.key (list Constr.entry)) : Prop :=
  forall k, db !! k <> Some [].

(** The arguments of the [--smtc] options of a command line, in order. *)
Definition smtc_arguments (opts : list (string * string)) : list string :=
  omap (fun oa : string * string =>
          if String.eqb oa.1 "--smtc" then Some oa.2 else None) opts.

(** An option that is not [-t]: its value is a test of the loop on [o]. *)
Definition sets_horizon (o : string) : bool := String.eqb o "-t".

(** A command that mentions a user constraint. *)
Definition constrained (cmd : command) : Prop :=
  match cmd with
  | Assert (Constr _ _ _) | AssertNot (Constr _ _ _) => True
  | AssertNotAnd l => exists t f i, Constr t f i ∈ l
  | _ => False
  end.

(** An event of a session without scopes and without user constraints. *)
Definition plain (e : event) : Prop :=
  match e with
  | Write cmd => scopeless e /\ ~ constrained cmd
  | _ => True
  end.

(** The frames declared in a session, in order. *)
Definition declared (ev : list event) : list Z :=
  omap (fun e => match e with Write (DeclareFun i) => Some i | _ => None end) ev.

(** The events of what is done with a window once its frames are declared:
    obligations, their commits, final-state checks and reports, but no
    frame. *)
Definition window_event (e : event) : Prop :=
  match e with
  | Write (Assert (P_a _)) | Write (Assert (Constr _ _ _))
  | Write (AssertNot (Constr Asserts true _)) | Write (AssertNotAnd _)
  | Write (Push _) | Write (Pop _) => True
  | Write _ | Setup _ | Info _ | Wait => False
  | _ => True
  end.

(** What belongs to the frame [s_i]: the module's [_u] and [_h], the user
    assumptions of the step, and the transition from the frame before or,
    for [s0], the initial state. *)
Definition framed (ev : list event) (i : Z) : Prop :=
  (Write (Assert (P_u i)) ∈ ev)
  /\ (Write (Assert (P_h i)) ∈ ev)
  /\ (Write (Assert (Constr Assumes false i)) ∈ ev)
  /\ ((Write (Assert (P_t (i - 1) i)) ∈ ev)
      \/ (i = 0 /\ (Write (Assert (P_i 0)) ∈ ev)
          /\ (Write (Assert (P_is 0)) ∈ ev))).

(** An event of a session that only builds a model: no scope, no negated
    obligation, nothing of a final-state constraint, no report of failed
    asserts. *)
Definition solving_event (e : event) : Prop :=
  match e with
  | Write (Push _) | Write (Pop _) | Write (AssertNotAnd _)
  | Write (Assert (Constr _ true _)) | Write (AssertNot (Constr _ _ _))
  | Write (AssertNot (P_a _)) | PrintFailedAsserts _ _ => False
  | _ => True
  end.

(** [instance_of smt_modinfo mod_ state m s]: the design has an instance of
    module [m] in or below the instance of [mod_] whose state is the
    expression [state]; [s] is the expression of the state of that
    instance. *)
Inductive instance_of (smt_modinfo : string -> option modinfo)
    : string -> string -> string -> string -> Prop :=
| instance_here (mod_ state : string) :
    instance_of smt_modinfo mod_ state mod_ state
| instance_cell (mod_ state : string) (mi : modinfo) (cell : string * string)
    (m s : string) :
    smt_modinfo mod_ = Some mi ->
    cell ∈ cells mi ->
    instance_of smt_modinfo cell.2
      ("(|" +:+ mod_ +:+ "_h " +:+ cell.1 +:+ "| " +:+ state +:+ ")") m s ->
    instance_of smt_modinfo mod_ state m s.

(** The design of the instance below: a top module with one cell. *)
Definition two_level (mod_ : string) : option modinfo :=
  if String.eqb mod_ "top" then Some (ModInfo [("u1", "sub")] [] [])
  else if String.eqb mod_ "sub" then Some (ModInfo [] [("sub#0", "sub.v:3")] [])
  else None.

(** A run of [-m cpu design.smt2] on a design whose top module is [top]. *)
Definition wrong_top_world : world :=
  World (fun _ _ => false) (Some ([("-m", "cpu")], ["design.smt2"]))
    (fun _ => Some []) (fun _ => true) (Some "top")
    (fun m => if String.eqb m "top" then Some (ModInfo [] [] []) else None)
    (fun _ => "unsat") (fun _ _ => "true").

(** The events that are no reporting call: [reports] passes them on. *)
Definition silent (e : event) : Prop :=
  match e with
  | PrintAnyconsts _ | PrintFailedAsserts _ false
  | WriteVcdTrace _ _ _ _ | WriteVlogtbTrace _ _ _ _
  | WriteConstrTrace _ _ _ _ => False
  | _ => True
  end.

(** The number of checks made after the events [ev], [n] having been made
    before them. *)
Definition solved (n : nat) (ev : list event) : nat :=
  fold_left (fun n e => match e with CheckSat => S n | _ => n end) ev n.


(** The files [write_trace] writes to. *)
Definition trace_files (c : config) : list string :=
  match vcdfile c with Some f => [f] | None => [] end
  ++ match vlogtbfile c with Some f => [f] | None => [] end
  ++ match outconstr c with Some f => [f] | None => [] end.





(** The checks of one window. *)
Definition window_checks (c : config) (db : Constr.state) (step last : Z) : Z :=
  if gentrace c then 1
  else (if final_only c then 0 else 1)
       + match Constr.constr_final_start db with
         | Some fs => Z.max 0 (last + 1 - Z.max step fs)
         | None => 0
         end.





(** A run with the constraint file [c.smtc], whose third line is not a
    directive. *)
Definition bad_constraints_world : world :=
  World (fun _ _ => false) (Some ([("--smtc", "c.smtc")], ["design.smt2"]))
    (fun fn =>
       if String.eqb fn "c.smtc"
       then Some ["state 0"; "assert [x]"; "bogus 1"]
       else Some [])
    (fun _ => true) (Some "top") (fun _ => Some (ModInfo [] [] []))
    (fun _ => "unsat") (fun _ _ => "true").



(** Trace generation at [-t 1] on a design with one free constant, for which
    the solver finds no trace. *)
Definition no_solution_world : world :=
  World (fun _ _ => false) (Some ([("-g", ""); ("-t", "1")], ["design.smt2"]))
    (fun _ => Some []) (fun _ => true) (Some "top")
    (fun m =>
       if String.eqb m "top" then Some (ModInfo [] [("top#0", "top.v:7")] [])
       else None)
    (fun _ => "unsat") (fun _ _ => "true").

(** * Properties *)

(** ** Python helpers *)

Lemma length_append (a b : string) :
  String.length (a +:+ b) = (String.length a + String.length b)%nat.
Proof. induction a as [|ch a IH]; simpl; [reflexivity | now rewrite IH]. Qed.

Lemma digit_plain (ch : ascii) :
  Py.is_digit ch = true ->
  Py.is_space ch = false /\ ch <> "-"%char /\ ch <> "+"%char
  /\ ch <> ":"%char /\ ch <> "]"%char.
Proof.
  destruct ch as [[] [] [] [] [] [] [] []]; vm_compute; intros Hd;
    try discriminate Hd; repeat split; discriminate.
Qed.

Lemma digits_cons (ch : ascii) (ds : string) :
  Forall (fun x => Py.is_digit x = true) (list_ascii_of_string (String ch ds)) ->
  Py.is_digit ch = true
  /\ Forall (fun x => Py.is_digit x = true) (list_ascii_of_string ds).
Proof. simpl. intros Hall. inversion Hall; subst. now split. Qed.

(** [int()] reads a string of digits as its decimal value. *)
Lemma int_digits_value (ds : string) :
  forall acc prev,
    Forall (fun x => Py.is_digit x = true) (list_ascii_of_string ds) ->
    ds <> "" \/ prev = true ->
    Py.int_digits acc prev ds
    = Some (fold_left (fun a ch => 10 * a + Py.digit_val ch)
              (list_ascii_of_string ds) acc).
Proof.
  induction ds as [|ch ds IH]; intros acc prev Hall Hne.
  - destruct Hne as [Hne | ->]; [now destruct Hne | reflexivity].
  - apply digits_cons in Hall as [Hch Hall]. simpl. rewrite Hch.
    apply IH; [assumption | now right].
Qed.

Lemma rstrip_plain (s : string) :
  Forall (fun x => Py.is_space x = false) (list_ascii_of_string s) ->
  Py.rstrip s = s.
Proof.
  induction s as [|ch s IH]; simpl; intros Hall; [reflexivity |].
  inversion Hall as [|? ? Hch Htl]; subst. rewrite (IH Htl).
  destruct s; [now rewrite Hch | reflexivity].
Qed.

Lemma digits_no_space (ds : string) :
  Forall (fun x => Py.is_digit x = true) (list_ascii_of_string ds) ->
  Forall (fun x => Py.is_space x = false) (list_ascii_of_string ds).
Proof.
  intros Hall. eapply Forall_impl; [exact Hall |].
  intros ch Hch. now apply digit_plain in Hch.
Qed.

Lemma int_of_digits (ds : string) :
  digits ds -> Py.int ds = Some (dec_value ds).
Proof.
  intros [Hne Hall]. unfold Py.int, dec_value.
  rewrite (rstrip_plain ds (digits_no_space ds Hall)).
  destruct ds as [|ch ds]; [now destruct Hne |].
  pose proof (digits_cons _ _ Hall) as [Hch _].
  apply digit_plain in Hch as (Hsp & Hm & Hp & _).
  cbn [Py.lstrip]. rewrite Hsp.
  apply Ascii.eqb_neq in Hm, Hp. rewrite Hm, Hp.
  apply int_digits_value; [assumption | now left].
Qed.

Lemma int_of_minus_digits (ds : string) :
  digits ds -> Py.int (String "-" ds) = Some (- dec_value ds).
Proof.
  intros [Hne Hall]. unfold Py.int, dec_value.
  assert (Hsp : Forall (fun x => Py.is_space x = false)
                  (list_ascii_of_string (String "-" ds))).
  { simpl. constructor; [reflexivity | now apply digits_no_space]. }
  rewrite (rstrip_plain _ Hsp). cbn [Py.lstrip].
  change (Py.is_space "-") with false. cbn iota.
  change (Ascii.eqb "-" "-") with true. cbn iota.
  now rewrite (int_digits_value ds 0 false Hall (or_introl Hne)).
Qed.

Lemma drop_last_snoc (s : string) (ch : ascii) :
  Py.drop_last (s +:+ String ch "") = s.
Proof.
  induction s as [|x s IH]; [reflexivity |].
  change (String x s +:+ String ch "") with (String x (s +:+ String ch "")).
  simpl. rewrite IH. destruct s; reflexivity.
Qed.

(** ** The net-reference pattern *)
















Lemma append_assoc (a b d : string) : (a +:+ b) +:+ d = a +:+ (b +:+ d).
Proof.
  induction a as [|ch a IH]; [reflexivity |].
  change (String ch ((a +:+ b) +:+ d) = String ch (a +:+ (b +:+ d))).
  now rewrite IH.
Qed.

Lemma netref_step_plain (state : Z) : netref_step state "" = state.
Proof. reflexivity. Qed.



(** ** Where a net reference can start *)

Lemma opens_weaken (s : string) (b : bool) :
  opens true s = false -> opens b s = false.
Proof.
  destruct s as [|c t]; [reflexivity |]. cbn [opens].
  destruct b; [trivial |]. cbn [andb orb].
  intros H. apply orb_false_iff in H as [_ H]. exact H.
Qed.

Lemma match_bracket_opens (g1 s : string) :
  opens true s = false -> Netref.match_bracket g1 s = None.
Proof.
  destruct s as [|c t]; [reflexivity |]. cbn [opens Netref.match_bracket].
  intros H. apply orb_false_iff in H as [H _]. cbn [andb] in H.
  now rewrite H.
Qed.

Lemma match_here_opens (b : bool) (s : string) :
  opens b s = false -> Netref.match_here b s = None.
Proof.
  intros H. unfold Netref.match_here.
  assert (Halt : match s with
                 | String c t =>
                     if Ascii.eqb c "(" || Ascii.eqb c " "
                     then Netref.match_bracket (String c "") t else None
                 | EmptyString => None
                 end = None).
  { destruct s as [|c t]; [reflexivity |]. cbn [opens] in H.
    apply orb_false_iff in H as [_ H].
    destruct (Ascii.eqb c "(" || Ascii.eqb c " "); [| reflexivity].
    now apply match_bracket_opens. }
  rewrite Halt. destruct b; [| reflexivity].
  now rewrite match_bracket_opens.
Qed.

Lemma sub_from_opens (repl : Netref.rmatch -> string) (fuel : nat) :
  forall b s, opens b s = false -> Netref.sub_from repl fuel b s = s.
Proof.
  induction fuel as [|fuel IH]; intros b s H; [reflexivity |].
  cbn [Netref.sub_from]. rewrite (match_here_opens b s H).
  destruct s as [|c t]; [reflexivity |]. f_equal. apply IH.
  cbn [opens] in H. apply orb_false_iff in H as [_ H].
  destruct (Ascii.eqb c "(" || Ascii.eqb c " ");
    [now apply opens_weaken | exact H].
Qed.

(** X9.  A net reference is only recognised at the start of the expression
    or right after an opening parenthesis or a space: an expression with no
    ["["] in such a place, for instance one whose brackets are all bit
    selects glued to a name, is handed to the solver unchanged, whatever
    the step. *)
Theorem netref_needs_delimiter (net_expr : string -> string -> list string -> string)
    (get_path : string -> string -> list string) (top : string) (state : Z)
    (expr : string) :
  opens true expr = false ->
  Netref.sub (replace_netref net_expr get_path top state) expr = expr.
Proof.
  intros H. unfold Netref.sub, Netref.sub_at. now apply sub_from_opens.
Qed.

Lemma netref_needs_delimiter_witness :
  Netref.sub (replace_netref (fun _ _ _ => "?") (fun _ _ => []) "top" 3)
    "(= mem[3] #b0)" = "(= mem[3] #b0)".
Proof.
  apply (netref_needs_delimiter (fun _ _ _ => "?") (fun _ _ => []) "top" 3
           "(= mem[3] #b0)").
  reflexivity.
Defined.

(** Group 2 of a match is empty or ends in a colon after a sign and digits:
    [int(state_sel[:-1])] is defined. *)
Lemma span_digits_digits (s d r : string) :
  Netref.span_digits s = (d, r) ->
  Forall (fun ch => Py.is_digit ch = true) (list_ascii_of_string d).
Proof.
  revert d r. induction s as [|ch s IH]; simpl; intros d r Heq.
  - inversion Heq; subst. constructor.
  - destruct (Py.is_digit ch) eqn:Hch.
    + destruct (Netref.span_digits s) as [d' r'] eqn:Hs.
      inversion Heq; subst. simpl. constructor; [exact Hch | eauto].
    + inversion Heq; subst. constructor.
Qed.

Lemma match_state_sel_shape (s sel r : string) :
  Netref.match_state_sel s = Some (sel, r) ->
  exists sign ds,
    (sign = "" \/ sign = "-") /\ digits ds /\ sel = sign +:+ ds +:+ ":".
Proof.
  unfold Netref.match_state_sel.
  destruct (match s with
            | String c t => if Ascii.eqb c "-" then ("-", t) else ("", s)
            | EmptyString => ("", s)
            end) as [sign s1] eqn:Hsign.
  assert (Hs : sign = "" \/ sign = "-").
  { destruct s as [|ch t]; [inversion Hsign; now left |].
    destruct (Ascii.eqb ch "-"); inversion Hsign; [now right | now left]. }
  destruct (Netref.span_digits s1) as [ds s2] eqn:Hsp.
  pose proof (span_digits_digits _ _ _ Hsp) as Hall.
  destruct ds as [|d ds]; [discriminate |].
  destruct s2 as [|ch s3]; [discriminate |].
  destruct (Ascii.eqb ch ":"); [| discriminate].
  intros Heq; inversion Heq; subst.
  exists sign, (String d ds). repeat split; [exact Hs | discriminate | exact Hall].
Qed.

Lemma state_sel_int (b : bool) (s : string) (m : Netref.rmatch) :
  Netref.match_here b s = Some m ->
  Netref.group2 m = ""
  \/ exists z, Py.int (Py.drop_last (Netref.group2 m)) = Some z.
Proof.
  assert (Hname : forall g1 sel t m',
            Netref.match_name g1 sel t = Some m' -> Netref.group2 m' = sel).
  { intros g1 sel t m'. unfold Netref.match_name.
    destruct (Netref.until_close t) as [[[|ch n] r] |]; try discriminate.
    destruct (Netref.lookahead r); [| discriminate].
    intros Heq; inversion Heq; reflexivity. }
  assert (Hbr : forall g1 t m',
            Netref.match_bracket g1 t = Some m' ->
            Netref.group2 m' = ""
            \/ exists z, Py.int (Py.drop_last (Netref.group2 m')) = Some z).
  { intros g1 t m'. unfold Netref.match_bracket.
    destruct t as [|ch t]; [discriminate |].
    destruct (Ascii.eqb ch "["); [| discriminate].
    destruct (Netref.match_state_sel t) as [[sel t'] |] eqn:Hsel.
    - destruct (Netref.match_name g1 sel t') as [m1 |] eqn:Hn.
      + intros Heq; inversion Heq; subst. right.
        rewrite (Hname _ _ _ _ Hn).
        apply match_state_sel_shape in Hsel as (sign & ds & Hs & Hds & ->).
        rewrite <- append_assoc, drop_last_snoc.
        destruct Hs as [-> | ->].
        * exists (dec_value ds). now apply int_of_digits.
        * exists (- dec_value ds). now apply int_of_minus_digits.
      + intros Heq. left. eapply Hname, Heq.
    - intros Heq. left. eapply Hname, Heq. }
  unfold Netref.match_here.
  assert (Halt : match s with
                 | String ch t =>
                     if Ascii.eqb ch "(" || Ascii.eqb ch " "
                     then Netref.match_bracket (String ch "") t else None
                 | EmptyString => None
                 end = Some m ->
                 Netref.group2 m = ""
                 \/ exists z, Py.int (Py.drop_last (Netref.group2 m)) = Some z).
  { destruct s as [|ch t]; [discriminate |].
    destruct (Ascii.eqb ch "(" || Ascii.eqb ch " "); [| discriminate].
    apply Hbr. }
  destruct b; [| exact Halt].
  destruct (Netref.match_bracket "" s) as [m' |] eqn:Hb; [| exact Halt].
  intros Heq; inversion Heq; subst. eapply Hbr, Hb.
Qed.





Section Resolution.

Variable net_expr : string -> string -> list string -> string.
Variable get_path : string -> string -> list string.
Variable top : string.
Variable state : Z.





End Resolution.


(** ** The solver monad *)

Lemma bind_run {X Y} (m : M X) (k : X -> M Y) (n : nat) :
  bind m k n
  = (value (k (value (m n)) (checks (m n))),
     events (m n) ++ events (k (value (m n)) (checks (m n))),
     checks (k (value (m n)) (checks (m n)))).
Proof.
  unfold bind, value, events, checks.
  destruct (m n) as [[a e1] n1]. simpl.
  destruct (k a n1) as [[b e2] n2]. reflexivity.
Qed.

Lemma scope_depth_app (ev1 ev2 : list event) :
  scope_depth (ev1 ++ ev2) = scope_depth ev1 + scope_depth ev2.
Proof.
  induction ev1 as [|e ev1 IH]; [reflexivity |].
  destruct e as [| cmd | | | | | | | | | |]; try exact IH.
  destruct cmd; simpl in *; lia.
Qed.

Lemma write_trace_run (c : config) (start stop : Z) (index : string) (n : nat) :
  write_trace c start stop index n = (tt, trace_events c start stop index, n).
Proof.
  unfold write_trace, trace_events, bind, emit, ret.
  destruct (vcdfile c), (vlogtbfile c), (outconstr c); reflexivity.
Qed.

Lemma for_each_run {X} (l : list X) (body : X -> M unit) (f : X -> list event) :
  (forall x n, body x n = (tt, f x, n)) ->
  forall n, for_each l body n = (tt, l ≫= f, n).
Proof.
  intros Hbody. induction l as [|x l IH]; intros n; [reflexivity |].
  cbn [for_each]. unfold bind. rewrite Hbody, IH. reflexivity.
Qed.

Lemma bmc_frame_run (step : Z) (n : nat) :
  bmc_frame step n = (tt, frame_events step, n).
Proof.
  unfold bmc_frame, frame_events, bind, write, emit.
  destruct (step =? 0); reflexivity.
Qed.

Lemma bmc_skip_run (c : config) (step : Z) (n : nat) :
  bmc_skip c step n = (tt, skip_events c step, n).
Proof.
  unfold bmc_skip, skip_events, assumed_skipped, bind, write, say, emit.
  destruct (assume_skipped c) as [k |]; [| reflexivity].
  destruct (k <=? step); reflexivity.
Qed.

Lemma extend_window_run (c : config) (step : Z) (offsets : list Z) :
  forall last n,
    extend_window c step offsets last n
    = (extend_last c step offsets last, extend_events c step offsets, n).
Proof.
  induction offsets as [|i rest IH]; intros last n; [reflexivity |].
  cbn [extend_window extend_last]. unfold extend_events. cbn [mbind list_bind].
  destruct (step + i <? num_steps c).
  - unfold bind, write, emit. rewrite IH. reflexivity.
  - rewrite IH. reflexivity.
Qed.

Lemma commit_asserts_run (step last : Z) (n : nat) :
  commit_asserts step last n = (tt, commit_events step last, n).
Proof.
  unfold commit_asserts, commit_events. apply for_each_run. reflexivity.
Qed.

Lemma list_bind_singleton {X Y} (f : X -> Y) (l : list X) :
  l ≫= (fun x => [f x]) = f <$> l.
Proof. induction l as [|x l IH]; [reflexivity |]. cbn. now rewrite IH. Qed.

Lemma check_asserts_run (answers : nat -> string) (c : config)
    (step last : Z) (retstatus : bool) (n : nat) :
  check_asserts answers c step last retstatus n
  = if final_only c then (Continue, retstatus, [], n)
    else if String.eqb (answers n) "sat" then
      (Break, false,
       [Print (MsgChecking step last); Write (Push 1);
        Write (AssertNotAnd (obligation step last)); CheckSat]
       ++ failure_report c step last, S n)
    else
      (Continue, retstatus,
       [Print (MsgChecking step last); Write (Push 1);
        Write (AssertNotAnd (obligation step last)); CheckSat; Write (Pop 1)],
       S n).
Proof.
  unfold check_asserts. destruct (final_only c); [reflexivity |].
  cbn [negb].
  cbv beta iota zeta delta [bind say write emit check_sat ret print_anyconsts].
  destruct (String.eqb (answers n) "sat"); [| reflexivity].
  rewrite (for_each_run _ _ (fun i => [PrintFailedAsserts i false]));
    [| reflexivity].
  rewrite write_trace_run, list_bind_singleton. unfold failure_report, obligation.
  cbn. rewrite app_nil_r. reflexivity.
Qed.

Lemma check_final_run (answers : nat -> string) (c : config)
    (i : Z) (retstatus : bool) (n : nat) :
  check_final answers c i retstatus n
  = if String.eqb (answers n) "sat" then
      (Break, false,
       [Print (MsgCheckingFinal i); Write (Push 1);
        Write (Assert (Constr Assumes true i));
        Write (AssertNot (Constr Asserts true i)); CheckSat]
       ++ final_report c i, S n)
    else
      (Continue, retstatus,
       [Print (MsgCheckingFinal i); Write (Push 1);
        Write (Assert (Constr Assumes true i));
        Write (AssertNot (Constr Asserts true i)); CheckSat; Write (Pop 1)],
       S n).
Proof.
  unfold check_final.
  cbv beta iota zeta delta
    [bind say write emit check_sat ret print_anyconsts print_failed_asserts].
  destruct (String.eqb (answers n) "sat"); [| reflexivity].
  rewrite write_trace_run. unfold final_report. cbn. rewrite app_nil_r.
  reflexivity.
Qed.

Lemma triple_eta {X} (r : X * list event * nat) :
  r = (value r, events r, checks r).
Proof. destruct r as [[a e] n]. reflexivity. Qed.

Lemma final_checks_cons (answers : nat -> string) (c : config)
    (final_start i : Z) (rest : list Z) (retstatus : bool) (n : nat) :
  final_checks answers c final_start (i :: rest) retstatus n
  = if i <? final_start then
      final_checks answers c final_start rest retstatus n
    else if String.eqb (answers n) "sat" then
      (false, final_query i ++ final_report c i, S n)
    else
      let r := final_checks answers c final_start rest retstatus (S n) in
      (value r, (final_query i ++ [Write (Pop 1)]) ++ events r, checks r).
Proof.
  cbn [final_checks]. destruct (i <? final_start); [reflexivity |].
  unfold bind. rewrite check_final_run.
  destruct (String.eqb (answers n) "sat").
  - cbn. rewrite app_nil_r. reflexivity.
  - cbv zeta.
    destruct (final_checks answers c final_start rest retstatus (S n))
      as [[rs e] n']. reflexivity.
Qed.

(** The window in BMC mode. *)
Lemma bmc_window_check (answers : nat -> string) (c : config)
    (db : Constr.state) (step last : Z) (retstatus : bool) (n : nat) :
  gentrace c = false ->
  bmc_window answers c db step last retstatus n
  = let r1 := check_asserts answers c step last retstatus n in
    match value r1 with
    | (Break, rs1) => (Break, rs1, events r1, checks r1)
    | (Continue, rs1) =>
        match Constr.constr_final_start db with
        | Some final_start =>
            let r2 := final_checks answers c final_start
                        (Py.range step (last + 1)) rs1 (checks r1) in
            (if negb (value r2) then Break else Continue, value r2,
             events r1 ++ commit_events step last ++ events r2, checks r2)
        | None =>
            (Continue, rs1, events r1 ++ commit_events step last, checks r1)
        end
    end.
Proof.
  intros Hg. unfold bmc_window. rewrite Hg. cbn [negb]. cbv zeta.
  unfold bind at 1.
  destruct (check_asserts answers c step last retstatus n) as [[[fl rs1] e1] n1].
  cbn [value events checks fst snd]. destruct fl.
  - unfold bind. rewrite commit_asserts_run.
    destruct (Constr.constr_final_start db) as [fs |].
    + destruct (final_checks answers c fs (Py.range step (last + 1)) rs1 n1)
        as [[rs2 e2] n2]. cbn [value events checks fst snd].
      destruct rs2; cbn; rewrite app_nil_r; reflexivity.
    + cbn. rewrite app_nil_r. reflexivity.
  - cbn. rewrite app_nil_r. reflexivity.
Qed.

(** The window in trace generation mode. *)
Lemma bmc_window_gentrace (answers : nat -> string) (c : config)
    (db : Constr.state) (step last : Z) (retstatus : bool) (n : nat) :
  gentrace c = true ->
  bmc_window answers c db step last retstatus n
  = if String.eqb (answers n) "sat" then
      (Continue, retstatus,
       commit_events step last ++ [Print (MsgSolving last); CheckSat]
       ++ (if dumpall c
           then PrintAnyconsts 0 :: trace_events c 0 (last + 1) (Py.fmt_d step)
           else []),
       S n)
    else
      (Break, false,
       commit_events step last
       ++ [Print (MsgSolving last); CheckSat; Print MsgNoSolution],
       S n).
Proof.
  intros Hg. unfold bmc_window. rewrite Hg. cbn [negb].
  unfold bind at 1. rewrite commit_asserts_run.
  cbv beta iota zeta delta [bind say emit check_sat ret print_anyconsts].
  destruct (String.eqb (answers n) "sat"); cbn [negb]; [| reflexivity].
  destruct (dumpall c); [| reflexivity].
  rewrite write_trace_run. cbn. rewrite app_nil_r. reflexivity.
Qed.

(** One iteration of the loop. *)
Lemma bmc_iteration_skip (answers : nat -> string) (c : config)
    (db : Constr.state) (step : Z) (retstatus : bool) (n : nat) :
  step < skip_steps c ->
  bmc_iteration answers c db step retstatus n
  = (Continue, step + 1, retstatus, frame_events step ++ skip_events c step, n).
Proof.
  intros Hlt. unfold bmc_iteration, bind. rewrite bmc_frame_run.
  apply Z.ltb_lt in Hlt. rewrite Hlt, bmc_skip_run. cbn. rewrite app_nil_r.
  reflexivity.
Qed.

Lemma bmc_iteration_window (answers : nat -> string) (c : config)
    (db : Constr.state) (step : Z) (retstatus : bool) (n : nat) :
  skip_steps c <= step ->
  bmc_iteration answers c db step retstatus n
  = let r := bmc_window answers c db step (window_last c step) retstatus n in
    (match value r with
     | (Break, rs) => (Break, step, rs)
     | (Continue, rs) => (Continue, step + step_size c, rs)
     end,
     window_events c step ++ events r, checks r).
Proof.
  intros Hle. unfold bmc_iteration. unfold bind at 1. rewrite bmc_frame_run.
  assert (Hlt : (step <? skip_steps c) = false) by (apply Z.ltb_ge; lia).
  rewrite Hlt. unfold bind at 1. rewrite extend_window_run.
  unfold bind, window_last, window_events. cbv zeta.
  destruct (bmc_window answers c db step _ retstatus n) as [[[fl rs] e] n'].
  cbn [value events checks fst snd].
  destruct fl; cbn; rewrite app_nil_r, <- app_assoc; reflexivity.
Qed.

(** ** Push/pop scopes *)

Lemma scope_depth_scopeless (ev : list event) :
  Forall scopeless ev -> scope_depth ev = 0.
Proof.
  induction 1 as [|e ev He _ IH]; [reflexivity |].
  destruct e as [| cmd | | | | | | | | | |]; try exact IH.
  destruct cmd; try exact IH; destruct He.
Qed.

Lemma trace_events_scopeless (c : config) (a b : Z) (index : string) :
  Forall scopeless (trace_events c a b index).
Proof.
  unfold trace_events.
  destruct (vcdfile c), (vlogtbfile c), (outconstr c);
    repeat constructor.
Qed.

Lemma failure_report_depth (c : config) (step last : Z) :
  scope_depth (failure_report c step last) = 0.
Proof.
  apply scope_depth_scopeless. unfold failure_report.
  apply Forall_app; split; [repeat constructor |].
  apply Forall_app; split; [| apply trace_events_scopeless].
  apply Forall_fmap, Forall_true. intros i. exact Logic.I.
Qed.

Lemma final_report_depth (c : config) (i : Z) :
  scope_depth (final_report c i) = 0.
Proof.
  apply scope_depth_scopeless. unfold final_report.
  apply Forall_app; split; [repeat constructor | apply trace_events_scopeless].
Qed.

(** C1, as the code has it.  In the assert check of a window and in each
    final-state check, the [push 1] is matched by one [pop 1] when
    [check_sat] answers anything but ["sat"]: the depth after the check is the
    depth before it, and the loop goes on.  When the answer is ["sat"] no
    [pop] is written: the depth stays one above, [retstatus] becomes false
    and the loop is left. *)
Theorem check_window_scope (answers : nat -> string) (c : config)
    (step last i : Z) (retstatus : bool) (n : nat) (before : list event) :
  let wa := check_asserts answers c step last retstatus n in
  let wf := check_final answers c i retstatus n in
  (answers n <> "sat" ->
   scope_depth (before ++ events wa) = scope_depth before
   /\ value wa = (Continue, retstatus)
   /\ scope_depth (before ++ events wf) = scope_depth before
   /\ value wf = (Continue, retstatus))
  /\ (answers n = "sat" ->
      (final_only c = false ->
       scope_depth (before ++ events wa) = scope_depth before + 1
       /\ value wa = (Break, false))
      /\ scope_depth (before ++ events wf) = scope_depth before + 1
      /\ value wf = (Break, false)).
Proof.
  cbv zeta. rewrite check_asserts_run, check_final_run. split.
  - intros Hns. apply String.eqb_neq in Hns. rewrite Hns.
    destruct (final_only c); rewrite !scope_depth_app; cbn; repeat split; lia.
  - intros Hs. apply String.eqb_eq in Hs. rewrite Hs. split.
    + intros ->. cbn [value events checks fst snd].
      rewrite !scope_depth_app, failure_report_depth. cbn.
      split; [lia | reflexivity].
    + cbn [value events checks fst snd].
      rewrite !scope_depth_app, final_report_depth. cbn.
      split; [lia | reflexivity].
Qed.

(** ** Answers other than ["sat"] *)

Lemma settle_sat (a : string) :
  String.eqb (settle a) "sat" = String.eqb a "sat".
Proof. unfold settle. destruct (String.eqb a "sat") eqn:E; [reflexivity | reflexivity]. Qed.

Lemma bind_ext {X Y} (m m' : M X) (k k' : X -> M Y) :
  (forall n, m n = m' n) ->
  (forall a n, k a n = k' a n) ->
  forall n, bind m k n = bind m' k' n.
Proof.
  intros Hm Hk n. unfold bind. rewrite Hm.
  destruct (m' n) as [[a e] n1]. now rewrite Hk.
Qed.

Lemma check_sat_bind {Y} (answers : nat -> string) (k : string -> M Y)
    (n : nat) :
  bind (check_sat answers) k n
  = (value (k (answers n) (S n)), CheckSat :: events (k (answers n) (S n)),
     checks (k (answers n) (S n))).
Proof.
  unfold bind, check_sat. destruct (k (answers n) (S n)) as [[b e] n2].
  reflexivity.
Qed.

Section SameVerdicts.

Variables answers answers' : nat -> string.
Hypothesis same :
  forall n, String.eqb (answers n) "sat" = String.eqb (answers' n) "sat".

Variable c : config.
Variable db : Constr.state.

Lemma check_asserts_same (step last : Z) (rs : bool) (n : nat) :
  check_asserts answers c step last rs n
  = check_asserts answers' c step last rs n.
Proof. now rewrite !check_asserts_run, same. Qed.

Lemma final_checks_same (fs : Z) (l : list Z) :
  forall rs n,
    final_checks answers c fs l rs n = final_checks answers' c fs l rs n.
Proof.
  induction l as [|i l IH]; intros rs n; [reflexivity |].
  rewrite !final_checks_cons, same.
  destruct (i <? fs); [apply IH |].
  destruct (String.eqb (answers' n) "sat"); [reflexivity |].
  cbv zeta. now rewrite IH.
Qed.

Lemma bmc_window_same (step last : Z) (rs : bool) (n : nat) :
  bmc_window answers c db step last rs n
  = bmc_window answers' c db step last rs n.
Proof.
  destruct (gentrace c) eqn:Hg.
  - now rewrite !bmc_window_gentrace, same.
  - rewrite !bmc_window_check by exact Hg. cbv zeta.
    rewrite check_asserts_same.
    destruct (value (check_asserts answers' c step last rs n)) as [[|] rs1];
      [| reflexivity].
    destruct (Constr.constr_final_start db) as [fs |]; [| reflexivity].
    now rewrite final_checks_same.
Qed.

Lemma bmc_iteration_same (step : Z) (rs : bool) (n : nat) :
  bmc_iteration answers c db step rs n
  = bmc_iteration answers' c db step rs n.
Proof.
  destruct (Z.lt_ge_cases step (skip_steps c)) as [Hlt | Hge].
  - now rewrite !bmc_iteration_skip.
  - rewrite !bmc_iteration_window by exact Hge. cbv zeta.
    now rewrite bmc_window_same.
Qed.

Lemma bmc_loop_same (fuel : nat) :
  forall step rs n,
    bmc_loop answers c db fuel step rs n
    = bmc_loop answers' c db fuel step rs n.
Proof.
  induction fuel as [|fuel IH]; intros step rs n; [reflexivity |].
  cbn [bmc_loop]. destruct (step <? num_steps c); [| reflexivity].
  apply bind_ext; [apply bmc_iteration_same |].
  intros [[[|] step'] rs'] n'; [apply IH | reflexivity].
Qed.

Lemma induction_loop_same (steps : list Z) :
  forall skip_counter rs n,
    induction_loop answers c steps skip_counter rs n
    = induction_loop answers' c steps skip_counter rs n.
Proof.
  induction steps as [|step rest IH]; intros skip_counter rs n; [reflexivity |].
  cbn [induction_loop].
  do 5 (apply bind_ext; [reflexivity | intros _ ?]).
  destruct (num_steps c - skip_steps c <? step).
  { apply bind_ext; [reflexivity | intros _ ?; apply IH]. }
  cbv zeta. destruct (skip_counter + 1 <? step_size c).
  { apply bind_ext; [reflexivity | intros _ ?; apply IH]. }
  apply bind_ext; [reflexivity | intros _ nq].
  rewrite !check_sat_bind. cbv beta. rewrite same.
  destruct (String.eqb (answers' nq) "sat"); [| reflexivity].
  rewrite (bind_ext _ _ _ (fun _ => induction_loop answers' c rest 0 rs)
             (fun _ => eq_refl) (fun _ => IH 0 rs)).
  reflexivity.
Qed.

Lemma drive_same (fuel : nat) (n : nat) :
  drive answers c db fuel n = drive answers' c db fuel n.
Proof.
  unfold drive. apply bind_ext; [| reflexivity].
  intros n0. destruct (tempind c).
  - unfold induction. apply bind_ext; [apply induction_loop_same | reflexivity].
  - unfold bmc. apply bind_ext; [apply bmc_loop_same | reflexivity].
Qed.

End SameVerdicts.

(** C9.  The drivers only test whether the answer of [check_sat] is the
    string ["sat"].  A run in which every other answer (["unknown"] or
    anything else) is replaced by ["unsat"] is the same run: same events,
    same status, same exit code.  In particular an assert check or a
    final-state check with another answer passes, and the induction check
    with another answer ends the loop with success. *)
Theorem only_sat_fails (answers : nat -> string) (c : config)
    (db : Constr.state) (fuel n : nat) :
  drive answers c db fuel n = drive (fun k => settle (answers k)) c db fuel n
  /\ (forall step last i rs,
      answers n <> "sat" ->
      value (check_asserts answers c step last rs n) = (Continue, rs)
      /\ value (check_final answers c i rs n) = (Continue, rs))
  /\ (forall step rest skip_counter rs,
      answers n <> "sat" ->
      step <= num_steps c - skip_steps c ->
      step_size c <= skip_counter + 1 ->
      value (induction_loop answers c (step :: rest) skip_counter rs n) = true).
Proof.
  split; [| split].
  - apply drive_same. intros k. now rewrite settle_sat.
  - intros step last i rs Hns. apply String.eqb_neq in Hns.
    rewrite check_asserts_run, check_final_run, Hns.
    destruct (final_only c); split; reflexivity.
  - intros step rest sc rs Hns Hskip Hsz. apply String.eqb_neq in Hns.
    cbn [induction_loop]. rewrite !bind_run.
    assert (H1 : (num_steps c - skip_steps c <? step) = false)
      by (apply Z.ltb_ge; lia).
    assert (H2 : (sc + 1 <? step_size c) = false) by (apply Z.ltb_ge; lia).
    rewrite H1. cbv zeta. rewrite H2. rewrite !bind_run.
    cbn [value events checks fst snd write emit say check_sat].
    destruct (step =? num_steps c); rewrite ?bind_run;
      cbn [value events checks fst snd write emit say check_sat];
      rewrite Hns; reflexivity.
Qed.

(** ** The BMC loop *)

Lemma bmc_loop_S (answers : nat -> string) (c : config) (db : Constr.state)
    (fuel : nat) (step : Z) (retstatus : bool) (n : nat) :
  bmc_loop answers c db (S fuel) step retstatus n
  = if step <? num_steps c then
      let r := bmc_iteration answers c db step retstatus n in
      match value r with
      | (Break, _, rs) => (Some rs, events r, checks r)
      | (Continue, step', rs) =>
          let r2 := bmc_loop answers c db fuel step' rs (checks r) in
          (value r2, events r ++ events r2, checks r2)
      end
    else (Some retstatus, [], n).
Proof.
  cbn [bmc_loop]. destruct (step <? num_steps c); [| reflexivity].
  unfold bind. cbv zeta.
  destruct (bmc_iteration answers c db step retstatus n) as [[[[fl st] rs] e] n1].
  cbn [value events checks fst snd]. destruct fl.
  - destruct (bmc_loop answers c db fuel st rs n1) as [[v e2] n2]. reflexivity.
  - cbn. rewrite app_nil_r. reflexivity.
Qed.

(** A property of every event of every iteration holds of every event of the
    loop. *)
Lemma bmc_loop_events (answers : nat -> string) (c : config)
    (db : Constr.state) (Q : event -> Prop) :
  (forall step rs n, Forall Q (events (bmc_iteration answers c db step rs n))) ->
  forall fuel step rs n,
    Forall Q (events (bmc_loop answers c db fuel step rs n)).
Proof.
  intros Hit. induction fuel as [|fuel IH]; intros step rs n; [constructor |].
  rewrite bmc_loop_S. destruct (step <? num_steps c); [| constructor].
  cbv zeta. specialize (Hit step rs n).
  destruct (value (bmc_iteration answers c db step rs n)) as [[[|] st] rs'].
  - cbn [events fst snd]. apply Forall_app. split; [exact Hit | apply IH].
  - exact Hit.
Qed.

Lemma final_checks_events (answers : nat -> string) (c : config)
    (Q : event -> Prop) (fs : Z) (l : list Z) :
  (forall i, In i l -> fs <= i ->
     Forall Q (final_query i) /\ Q (Write (Pop 1))
     /\ Forall Q (final_report c i)) ->
  forall rs n, Forall Q (events (final_checks answers c fs l rs n)).
Proof.
  induction l as [|i l IH]; intros Hl rs n; [constructor |].
  rewrite final_checks_cons.
  assert (Hl' : forall j, In j l -> fs <= j ->
            Forall Q (final_query j) /\ Q (Write (Pop 1))
            /\ Forall Q (final_report c j)).
  { intros j Hj. apply Hl. now right. }
  destruct (i <? fs) eqn:Hi; [now apply IH |].
  apply Z.ltb_ge in Hi.
  destruct (Hl i (or_introl eq_refl) Hi) as (Hq & Hp & Hr).
  destruct (String.eqb (answers n) "sat").
  - cbn [events fst snd]. apply Forall_app. now split.
  - cbv zeta. cbn [events fst snd].
    repeat (apply Forall_app; split); auto.
Qed.

(** The window of the cursor ends at [min (step + step_size - 1) (num_steps - 1)]. *)
Lemma extend_last_seq (c : config) (step : Z) (m : nat) :
  forall a,
    step + a - 1 < num_steps c ->
    extend_last c step (seqZ a (Z.of_nat m)) (step + a - 1)
    = Z.min (step + a + Z.of_nat m - 1) (num_steps c - 1).
Proof.
  induction m as [|m IH]; intros a Ha.
  - rewrite seqZ_nil by lia. cbn [extend_last]. lia.
  - rewrite seqZ_cons by lia. cbn [extend_last].
    replace (Z.pred (Z.of_nat (S m))) with (Z.of_nat m) by lia.
    destruct (step + a <? num_steps c) eqn:Hlt.
    + apply Z.ltb_lt in Hlt.
      replace (step + a) with (step + Z.succ a - 1) at 1 by lia.
      rewrite IH by lia. lia.
    + apply Z.ltb_ge in Hlt.
      assert (Hstay : forall l b, a <= b ->
                extend_last c step (seqZ b l) (step + a - 1) = step + a - 1).
      { intros l. destruct (Z.le_gt_cases l 0) as [Hl | Hl].
        - intros b _. rewrite seqZ_nil by lia. reflexivity.
        - rewrite <- (Z2Nat.id l) by lia.
          generalize (Z.to_nat l). clear Hl l IH. intros k.
          induction k as [|k IHk]; intros b Hb; [reflexivity |].
          rewrite seqZ_cons by lia. cbn [extend_last].
          replace (Z.pred (Z.of_nat (S k))) with (Z.of_nat k) by lia.
          assert (Hf : (step + b <? num_steps c) = false)
            by (apply Z.ltb_ge; lia).
          rewrite Hf. apply IHk. lia. }
      rewrite Hstay by lia. lia.
Qed.

Lemma window_last_eq (c : config) (step : Z) :
  step < num_steps c ->
  1 <= step_size c ->
  window_last c step = Z.min (step + step_size c - 1) (num_steps c - 1).
Proof.
  intros Hlt Hsz. unfold window_last, Py.range.
  rewrite <- (Z2Nat.id (step_size c - 1)) by lia.
  replace step with (step + 1 - 1) at 2 by lia.
  rewrite extend_last_seq by lia. lia.
Qed.

(** The window of the cursor never ends before the cursor. *)
Lemma extend_last_ge (c : config) (step : Z) (offsets : list Z) :
  Forall (fun i => 0 <= i) offsets ->
  forall last, step <= last -> step <= extend_last c step offsets last.
Proof.
  induction 1 as [|i rest Hi _ IH]; intros last Hl; [exact Hl |].
  cbn [extend_last]. destruct (step + i <? num_steps c); apply IH; lia.
Qed.

Lemma window_last_ge (c : config) (step : Z) : step <= window_last c step.
Proof.
  unfold window_last. apply extend_last_ge; [| lia].
  apply Forall_forall. intros i Hi. unfold Py.range in Hi.
  apply elem_of_seqZ in Hi. lia.
Qed.

(** ** Skipped steps *)

Lemma trace_events_respect (c : config) (a b : Z) (index : string) :
  Forall (respects_skip c) (trace_events c a b index).
Proof.
  unfold trace_events.
  destruct (vcdfile c), (vlogtbfile c), (outconstr c); repeat constructor.
Qed.

Lemma frame_events_respect (c : config) (step : Z) :
  Forall (respects_skip c) (frame_events step).
Proof. unfold frame_events. destruct (step =? 0); repeat constructor. Qed.

Lemma extend_events_respect (c : config) (step : Z) (offsets : list Z) :
  Forall (respects_skip c) (extend_events c step offsets).
Proof.
  unfold extend_events. induction offsets as [|i rest IH]; [constructor |].
  cbn [mbind list_bind]. apply Forall_app. split; [| exact IH].
  destruct (step + i <? num_steps c); repeat constructor.
Qed.

Lemma commit_events_respect (c : config) (step last : Z) :
  skip_steps c <= step ->
  Forall (respects_skip c) (commit_events step last).
Proof.
  intros Hle. unfold commit_events, Py.range.
  generalize (last + 1 - step). intros len.
  assert (Hall : Forall (fun j => skip_steps c <= j) (seqZ step len)).
  { apply Forall_forall. intros j Hj. apply elem_of_seqZ in Hj. lia. }
  induction Hall as [|j l Hj _ IH]; [constructor |].
  cbn [mbind list_bind app].
  constructor; [left; exact Hj |]. constructor; [left; exact Hj | exact IH].
Qed.

Lemma obligation_from (lo step last : Z) :
  lo <= step -> Forall (atom_from lo) (obligation step last).
Proof.
  intros Hle. unfold obligation. apply Forall_app.
  split; apply Forall_fmap, Forall_forall; intros j Hj;
    apply elem_of_seqZ in Hj; cbn; lia.
Qed.

Lemma bmc_window_respect (answers : nat -> string) (c : config)
    (db : Constr.state) (step last : Z) (rs : bool) (n : nat) :
  skip_steps c <= step ->
  Forall (respects_skip c)
    (events (bmc_window answers c db step last rs n)).
Proof.
  intros Hle. destruct (gentrace c) eqn:Hg.
  - rewrite bmc_window_gentrace by exact Hg.
    destruct (String.eqb (answers n) "sat"); cbn [events fst snd].
    + repeat (apply Forall_app; split);
        [now apply commit_events_respect | repeat constructor |].
      destruct (dumpall c); [| constructor].
      constructor; [exact Logic.I | apply trace_events_respect].
    + apply Forall_app.
      split; [now apply commit_events_respect | repeat constructor].
  - rewrite bmc_window_check by exact Hg. cbv zeta.
    assert (H1 : Forall (respects_skip c)
                   (events (check_asserts answers c step last rs n))).
    { rewrite check_asserts_run. destruct (final_only c); [constructor |].
      destruct (String.eqb (answers n) "sat"); cbn [events fst snd].
      - apply Forall_app. split.
        + repeat constructor. now apply obligation_from.
        + unfold failure_report. apply Forall_app.
          split; [repeat constructor |]. apply Forall_app.
          split; [| apply trace_events_respect].
          apply Forall_fmap, Forall_true. intros i. exact Logic.I.
      - repeat constructor. now apply obligation_from. }
    destruct (value (check_asserts answers c step last rs n)) as [[|] rs1];
      [| exact H1].
    destruct (Constr.constr_final_start db) as [fs |]; cbn [events fst snd].
    + repeat (apply Forall_app; split);
        [exact H1 | now apply commit_events_respect |].
      apply final_checks_events. intros i _ _.
      repeat split; [repeat constructor | ].
      unfold final_report. apply Forall_app.
      split; [repeat constructor | apply trace_events_respect].
    + apply Forall_app. split; [exact H1 | now apply commit_events_respect].
Qed.

Lemma bmc_iteration_respect (answers : nat -> string) (c : config)
    (db : Constr.state) (step : Z) (rs : bool) (n : nat) :
  Forall (respects_skip c) (events (bmc_iteration answers c db step rs n)).
Proof.
  destruct (Z.lt_ge_cases step (skip_steps c)) as [Hlt | Hge].
  - rewrite bmc_iteration_skip by exact Hlt. cbn [events fst snd].
    apply Forall_app. split; [apply frame_events_respect |].
    unfold skip_events. destruct (assumed_skipped c step) eqn:Ha.
    + constructor; [exact Logic.I |].
      constructor; [right; exact Ha |].
      constructor; [right; exact Ha | constructor].
    + repeat constructor.
  - rewrite bmc_iteration_window by exact Hge. cbv zeta. cbn [events fst snd].
    apply Forall_app. split; [| now apply bmc_window_respect].
    unfold window_events. apply Forall_app.
    split; [apply frame_events_respect | apply extend_events_respect].
Qed.

(** The loop reaches every skipped step inside the horizon. *)
Lemma bmc_loop_reaches_skipped (answers : nat -> string) (c : config)
    (db : Constr.state) (i : Z) :
  i < skip_steps c -> i < num_steps c ->
  forall fuel step rs n,
    step <= i ->
    (Z.to_nat (i - step) < fuel)%nat ->
    skip_events c i ⊆ events (bmc_loop answers c db fuel step rs n).
Proof.
  intros Hskip Hhor. induction fuel as [|fuel IH]; intros step rs n Hle Hfuel;
    [lia |].
  rewrite bmc_loop_S.
  assert (Hlt : (step <? num_steps c) = true) by (apply Z.ltb_lt; lia).
  rewrite Hlt. cbv zeta. rewrite bmc_iteration_skip by lia.
  cbn [value events checks fst snd].
  destruct (Z.eq_dec step i) as [-> | Hne].
  - intros e He. apply elem_of_app. left. apply elem_of_app. now right.
  - intros e He. apply elem_of_app. right.
    apply (IH (step + 1) rs n); [lia | lia | exact He].
Qed.

(** C3.  A skipped step [i] ([i < skip_steps], inside the horizon) that is at
    or after [--assume-skipped K] has the module's asserts [a(s_i)] and the
    user asserts of step [i] written as assertions, and they are not part of
    a checked obligation.  A skipped step before [K] (or any skipped step
    when [--assume-skipped] is not given) has its asserts neither assumed nor
    checked.  The cursor goes from a skipped step [i] to [i + 1]. *)
Theorem skipped_steps (answers : nat -> string) (c : config)
    (db : Constr.state) (fuel : nat) (i : Z) :
  0 <= i < skip_steps c ->
  i < num_steps c ->
  (Z.to_nat i < fuel)%nat ->
  let ev := events (bmc_loop answers c db fuel 0 true 0%nat) in
  (forall K, assume_skipped c = Some K -> K <= i ->
     Write (Assert (P_a i)) ∈ ev
     /\ Write (Assert (Constr Asserts false i)) ∈ ev)
  /\ (assume_skipped c = None
      \/ (exists K, assume_skipped c = Some K /\ i < K) ->
      ~ assumed i ev)
  /\ ~ checked i ev
  /\ (forall rs n,
      value (bmc_iteration answers c db i rs n) = (Continue, i + 1, rs)).
Proof.
  intros Hi Hhor Hfuel ev.
  assert (Hall : Forall (respects_skip c) ev).
  { apply bmc_loop_events. intros. apply bmc_iteration_respect. }
  rewrite Forall_forall in Hall.
  split; [| split; [| split]].
  - intros K HK HKi.
    assert (Hsub : skip_events c i ⊆ ev).
    { apply bmc_loop_reaches_skipped; lia. }
    assert (Hev : skip_events c i
                  = [Print (MsgSkipAssume i); Write (Assert (P_a i));
                     Write (Assert (Constr Asserts false i))]).
    { unfold skip_events, assumed_skipped. rewrite HK.
      assert (Hk : (K <=? i) = true) by (apply Z.leb_le; lia).
      now rewrite Hk. }
    rewrite Hev in Hsub.
    split; apply Hsub; [apply list_elem_of_further, list_elem_of_here
                       | do 2 apply list_elem_of_further; apply list_elem_of_here].
  - intros Hno [Ha | Ha]; apply Hall in Ha; cbn in Ha;
      (destruct Ha as [Ha | Ha]; [lia |]);
      unfold assumed_skipped in Ha;
      destruct Hno as [Hnone | (K & HK & Hlt)];
      [rewrite Hnone in Ha; discriminate
      | rewrite HK in Ha; apply Z.leb_le in Ha; lia
      | rewrite Hnone in Ha; discriminate
      | rewrite HK in Ha; apply Z.leb_le in Ha; lia].
  - intros (l & Hl & Hin). apply Hall in Hl. cbn in Hl.
    rewrite Forall_forall in Hl.
    destruct Hin as [Hin | Hin]; apply Hl in Hin; cbn in Hin; lia.
  - intros rs n. rewrite bmc_iteration_skip by lia. reflexivity.
Qed.

(** ** The horizon *)










Lemma range_split (a b d : Z) :
  a <= b <= d -> Py.range a b ++ Py.range b d = Py.range a d.
Proof.
  intros H. unfold Py.range.
  replace (d - a) with ((b - a) + (d - b)) by lia.
  rewrite seqZ_app by lia. repeat f_equal. lia.
Qed.

Lemma range_empty (a b : Z) : b <= a -> Py.range a b = [].
Proof. intros H. unfold Py.range. apply seqZ_nil. lia. Qed.



(** ** Verdicts *)

Lemma runs_on_refl go answers n : runs_on go answers n n.
Proof. split; [lia | intros k Hk; lia]. Qed.

Lemma runs_on_step go answers n :
  go (answers n) = true -> runs_on go answers n (S n).
Proof.
  intros Hgo. split; [lia |]. intros k Hk.
  replace k with n by lia. exact Hgo.
Qed.

Lemma stops_step go answers n :
  go (answers n) = false -> stops go answers n (S n).
Proof.
  intros Hgo. split; [lia |]. split; [intros k Hk; lia |].
  replace (S n - 1)%nat with n by lia. exact Hgo.
Qed.

Lemma runs_on_trans go answers n1 n2 n3 :
  runs_on go answers n1 n2 -> runs_on go answers n2 n3 ->
  runs_on go answers n1 n3.
Proof.
  intros [H1 G1] [H2 G2]. split; [lia |]. intros k Hk.
  destruct (Nat.lt_ge_cases k n2); [apply G1 | apply G2]; lia.
Qed.

Lemma runs_on_stops go answers n1 n2 n3 :
  runs_on go answers n1 n2 -> stops go answers n2 n3 ->
  stops go answers n1 n3.
Proof.
  intros [H1 G1] (H2 & G2 & S2). split; [lia |]. split; [| exact S2].
  intros k Hk. destruct (Nat.lt_ge_cases k n2); [apply G1 | apply G2]; lia.
Qed.

Lemma stops_not_runs_on go answers n n' :
  stops go answers n n' -> ~ runs_on go answers n n'.
Proof.
  intros (H1 & _ & S1) [_ G]. rewrite G in S1 by lia. discriminate.
Qed.

Section BmcVerdict.

Variable answers : nat -> string.
Variable c : config.
Variable db : Constr.state.

Lemma final_checks_verdict (fs : Z) (l : list Z) :
  gentrace c = false ->
  forall n,
    let r := final_checks answers c fs l true n in
    (value r = true /\ runs_on (bmc_go c) answers n (checks r))
    \/ (value r = false /\ stops (bmc_go c) answers n (checks r)).
Proof.
  intros Hg. induction l as [|i l IH]; intros n; cbv zeta.
  - left. split; [reflexivity | apply runs_on_refl].
  - rewrite final_checks_cons. destruct (i <? fs); [apply IH |].
    destruct (String.eqb (answers n) "sat") eqn:Hs.
    + right. split; [reflexivity |]. apply stops_step.
      unfold bmc_go. now rewrite Hg, Hs.
    + cbv zeta. cbn [value checks fst snd].
      assert (Hgo : runs_on (bmc_go c) answers n (S n)).
      { apply runs_on_step. unfold bmc_go. now rewrite Hg, Hs. }
      destruct (IH (S n)) as [[Hv Hr] | [Hv Hr]].
      * left. split; [exact Hv | eapply runs_on_trans; eassumption].
      * right. split; [exact Hv | eapply runs_on_stops; eassumption].
Qed.

Lemma bmc_window_verdict (step last : Z) (n : nat) :
  let r := bmc_window answers c db step last true n in
  (value r = (Continue, true) /\ runs_on (bmc_go c) answers n (checks r))
  \/ (value r = (Break, false) /\ stops (bmc_go c) answers n (checks r)).
Proof.
  cbv zeta. destruct (gentrace c) eqn:Hg.
  - rewrite bmc_window_gentrace by exact Hg.
    destruct (String.eqb (answers n) "sat") eqn:Hs.
    + left. split; [reflexivity |]. apply runs_on_step.
      unfold bmc_go. now rewrite Hg, Hs.
    + right. split; [reflexivity |]. apply stops_step.
      unfold bmc_go. now rewrite Hg, Hs.
  - rewrite bmc_window_check by exact Hg. cbv zeta.
    rewrite check_asserts_run.
    assert (Hfin : forall n0,
      runs_on (bmc_go c) answers n n0 ->
      let r := match Constr.constr_final_start db with
               | Some final_start =>
                   let r2 := final_checks answers c final_start
                               (Py.range step (last + 1)) true n0 in
                   (if negb (value r2) then Break else Continue, value r2,
                    @nil event, checks r2)
               | None => (Continue, true, [], n0)
               end in
      (value r = (Continue, true) /\ runs_on (bmc_go c) answers n (checks r))
      \/ (value r = (Break, false) /\ stops (bmc_go c) answers n (checks r))).
    { intros n0 Hn0. cbv zeta.
      destruct (Constr.constr_final_start db) as [fs |].
      - destruct (final_checks_verdict fs (Py.range step (last + 1)) Hg n0)
          as [[Hv Hr] | [Hv Hr]]; cbv zeta in Hv, Hr;
          cbn [value checks fst snd]; rewrite Hv; cbn [negb].
        + left. split; [reflexivity | eapply runs_on_trans; eassumption].
        + right. split; [reflexivity | eapply runs_on_stops; eassumption].
      - left. split; [reflexivity | exact Hn0]. }
    destruct (final_only c).
    + cbn [value events checks fst snd].
      specialize (Hfin n (runs_on_refl _ _ _)). cbv zeta in Hfin.
      destruct (Constr.constr_final_start db); exact Hfin.
    + destruct (String.eqb (answers n) "sat") eqn:Hs.
      * right. split; [reflexivity |]. apply stops_step.
        unfold bmc_go. now rewrite Hg, Hs.
      * cbn [value events checks fst snd].
        assert (Hgo : runs_on (bmc_go c) answers n (S n)).
        { apply runs_on_step. unfold bmc_go. now rewrite Hg, Hs. }
        specialize (Hfin (S n) Hgo). cbv zeta in Hfin.
        destruct (Constr.constr_final_start db); exact Hfin.
Qed.

Lemma bmc_iteration_verdict (step : Z) (n : nat) :
  let r := bmc_iteration answers c db step true n in
  (exists step', value r = (Continue, step', true)
                 /\ step < step' + (1 - step_size c) `max` 0
                 /\ runs_on (bmc_go c) answers n (checks r))
  \/ (value r = (Break, step, false)
      /\ stops (bmc_go c) answers n (checks r)).
Proof.
  cbv zeta. destruct (Z.lt_ge_cases step (skip_steps c)) as [Hlt | Hge].
  - rewrite bmc_iteration_skip by exact Hlt. left. exists (step + 1).
    split; [reflexivity |]. split; [lia | apply runs_on_refl].
  - rewrite bmc_iteration_window by exact Hge. cbv zeta.
    cbn [value checks fst snd].
    destruct (bmc_window_verdict step (window_last c step) n)
      as [[Hv Hr] | [Hv Hr]]; cbv zeta in Hv, Hr; rewrite Hv.
    + left. exists (step + step_size c). split; [reflexivity |].
      split; [lia | exact Hr].
    + right. split; [reflexivity | exact Hr].
Qed.

(** The status of the loop tells whether an answer ended it. *)
Lemma bmc_loop_verdict (fuel : nat) :
  forall step n v,
    value (bmc_loop answers c db fuel step true n) = Some v ->
    let n' := checks (bmc_loop answers c db fuel step true n) in
    (v = true /\ runs_on (bmc_go c) answers n n')
    \/ (v = false /\ stops (bmc_go c) answers n n').
Proof.
  induction fuel as [|fuel IH]; intros step n v; [discriminate |].
  rewrite bmc_loop_S. destruct (step <? num_steps c).
  2:{ intros Hv; inversion Hv; subst. left.
      split; [reflexivity | apply runs_on_refl]. }
  cbv zeta.
  destruct (bmc_iteration_verdict step n)
    as [(step' & Hv & _ & Hr) | [Hv Hr]]; cbv zeta in Hv, Hr; rewrite Hv.
  - cbn [value checks fst snd]. intros Hv2.
    destruct (IH _ _ _ Hv2) as [[-> Hr2] | [-> Hr2]]; cbv zeta in Hr2.
    + left. split; [reflexivity | eapply runs_on_trans; eassumption].
    + right. split; [reflexivity | eapply runs_on_stops; eassumption].
  - cbn [value checks fst snd]. intros Hv2; inversion Hv2; subst.
    right. split; [reflexivity | exact Hr].
Qed.


End BmcVerdict.


(** ** Final-state checks *)






(** ** The constraint parser *)














(** ** Parse errors *)

Lemma int_or_raise_exn (s : string) (e : exn) :
  int_or_raise s = Raise e -> parser_exn e.
Proof.
  unfold int_or_raise. destruct (Py.int s); [discriminate |].
  intros H; inversion H. right. now exists s.
Qed.

Lemma state_item_exn (n : Z) (token : string) (cs : gset Constr.key) (e : exn) :
  Constr.state_item n token cs = Raise e -> parser_exn e.
Proof.
  unfold Constr.state_item.
  destruct (Py.split_on ":" "" token) as [|x [|y [|z l]]].
  - intros H; inversion H. now left.
  - destruct (int_or_raise token) eqn:Hi; [discriminate |].
    intros H; inversion H; subst. eapply int_or_raise_exn, Hi.
  - destruct (int_or_raise x) eqn:Hx; cbn [res_bind].
    + destruct (String.eqb y "*"); cbn [res_bind]; [discriminate |].
      destruct (int_or_raise y) eqn:Hy; [discriminate |].
      intros H; inversion H; subst. eapply int_or_raise_exn, Hy.
    + intros H; inversion H; subst. eapply int_or_raise_exn, Hx.
  - intros H; inversion H. now left.
Qed.

Lemma state_item_bad (n : Z) (token : string) (cs : gset Constr.key) :
  bad_item token -> exists e, Constr.state_item n token cs = Raise e.
Proof.
  unfold bad_item, Constr.state_item.
  destruct (Py.split_on ":" "" token) as [|x [|y [|z l]]].
  - intros _. now eexists.
  - intros Hb. unfold int_or_raise. rewrite Hb. now eexists.
  - intros [Hb | [Hs Hb]]; unfold int_or_raise.
    + rewrite Hb. now eexists.
    + destruct (Py.int x); cbn [res_bind]; [| now eexists].
      apply String.eqb_neq in Hs. rewrite Hs, Hb. now eexists.
  - intros _. now eexists.
Qed.

Lemma state_items_bad (n : Z) (args : list string) :
  Exists bad_item args ->
  forall cs, exists e, Constr.state_items n args cs = Raise e /\ parser_exn e.
Proof.
  induction 1 as [token rest Hb | token rest _ IH]; intros cs;
    cbn [Constr.state_items].
  - destruct (state_item_bad n token cs Hb) as [e He]. rewrite He.
    exists e. split; [reflexivity | eapply state_item_exn, He].
  - destruct (Constr.state_item n token cs) as [cs' |] eqn:Hi; cbn [res_bind].
    + apply IH.
    + eexists. split; [reflexivity | eapply state_item_exn, Hi].
Qed.

(** A bad line raises. *)
Lemma directive_bad (n : Z) (fn line : string) (st : Constr.state) :
  bad_line (Constr.current_states st) line ->
  exists e, Constr.directive n fn line st = Raise e /\ parser_exn e.
Proof.
  intros [Hh (tok & args & Hs & Hbad)]. unfold Constr.directive.
  rewrite Hh, Hs.
  destruct Hbad as [Hun | [[Hc Hcs] | [[Hf Harg] | [-> Hitems]]]].
  - assert (Hne : forall d, In d directives -> String.eqb tok d = false).
    { intros d Hd. apply String.eqb_neq. intros ->. now apply Hun. }
    rewrite !Hne by (cbn; tauto). exists AssertionError. split; [reflexivity | now left].
  - exists AssertionError. split; [| now left].
    destruct Hc as [-> | ->]; cbn; now rewrite Hcs.
  - assert (Hgen : exists e,
              match args with
              | [] => Ok st
              | [a] => i <-? int_or_raise a; _ <-? py_assert (i <? 0); Ok st
              | _ => Raise AssertionError
              end = Raise e /\ parser_exn e).
    { destruct args as [|a [|b l]]; [destruct Harg | |].
      - cbn in Harg. unfold int_or_raise.
        destruct (Py.int a) as [i |]; cbn [res_bind].
        + assert (Hi : (i <? 0) = false) by (apply Z.ltb_ge; lia).
          rewrite Hi. cbn. eexists. split; [reflexivity | now left].
        + eexists. split; [reflexivity |]. right. now eexists.
      - eexists. split; [reflexivity | now left]. }
    destruct Hgen as (e & He & Hp). exists e. split; [| exact Hp].
    destruct Hf as [-> | ->]; cbn;
      destruct args as [|a [|b l]]; try discriminate He; try exact He;
      unfold int_or_raise in *; destruct (Py.int a) as [i |];
      cbn [res_bind] in *; try exact He;
      unfold py_assert in *; destruct (i <? 0); cbn [res_bind] in *;
      try discriminate He; exact He.
  - cbn. destruct (state_items_bad n args Hitems ∅) as (e & He & Hp).
    rewrite He. exists e. split; [reflexivity | exact Hp].
Qed.

(** The exception does not tell where the line stands: it is the same for
    any file name and any line number. *)
Lemma directive_raise_anywhere (n : Z) (fn fn' : string) (line : string)
    (st st' : Constr.state) (e : exn) :
  (Constr.current_states st = None <-> Constr.current_states st' = None) ->
  Constr.directive n fn line st = Raise e ->
  Constr.directive n fn' line st' = Raise e.
Proof.
  intros Hcs. unfold Constr.directive.
  destruct (Py.starts_with_hash line); [discriminate |].
  destruct (Py.split line) as [|tok0 args]; [discriminate |].
  destruct (String.eqb tok0 "initial"); [discriminate |].
  destruct (String.eqb tok0 "final").
  { destruct args as [|a [|b l]]; [discriminate | | auto].
    destruct (int_or_raise a) as [i |]; cbn [res_bind]; [| auto].
    destruct (py_assert (i <? 0)); cbn [res_bind]; [discriminate | auto]. }
  destruct (String.eqb tok0 "state").
  { destruct (Constr.state_items n args ∅); cbn [res_bind]; [discriminate | auto]. }
  destruct (String.eqb tok0 "always").
  { destruct args as [|a [|b l]]; [discriminate | | auto].
    destruct (int_or_raise a) as [i |]; cbn [res_bind]; [| auto].
    destruct (py_assert (i <? 0)); cbn [res_bind]; [discriminate | auto]. }
  destruct (String.eqb tok0 "assert").
  { destruct (Constr.current_states st) eqn:H1; [discriminate |].
    destruct (Constr.current_states st') eqn:H2; [| auto].
    destruct Hcs as [Hcs _]. discriminate (Hcs eq_refl). }
  destruct (String.eqb tok0 "assume").
  { destruct (Constr.current_states st) eqn:H1; [discriminate |].
    destruct (Constr.current_states st') eqn:H2; [| auto].
    destruct Hcs as [Hcs _]. discriminate (Hcs eq_refl). }
  auto.
Qed.

Lemma parse_lines_app (n : Z) (fn : string) (pre post : list string) :
  forall st,
    Constr.parse_lines n fn (pre ++ post) st
    = (st' <-? Constr.parse_lines n fn pre st; Constr.parse_lines n fn post st').
Proof.
  induction pre as [|l pre IH]; intros st; [reflexivity |].
  cbn [app Constr.parse_lines].
  destruct (Constr.parse_line n fn l st); cbn [res_bind]; [apply IH | reflexivity].
Qed.

(** ** The induction loop *)

Lemma say_bind {Y} (m : message) (k : M Y) (n : nat) :
  bind (say m) (fun _ => k) n
  = (value (k n), Print m :: events (k n), checks (k n)).
Proof.
  unfold bind, say, emit. destruct (k n) as [[v e] n']. reflexivity.
Qed.

Lemma induction_loop_cons (answers : nat -> string) (c : config)
    (step : Z) (rest : list Z) (skip_counter : Z) (rs : bool) (n : nat) :
  induction_loop answers c (step :: rest) skip_counter rs n
  = if num_steps c - skip_steps c <? step then
      let r := induction_loop answers c rest skip_counter rs n in
      (value r,
       induction_frame c step ++ [Print (MsgSkipInduction step)] ++ events r,
       checks r)
    else if skip_counter + 1 <? step_size c then
      let r := induction_loop answers c rest (skip_counter + 1) rs n in
      (value r,
       induction_frame c step ++ [Print (MsgSkipInduction step)] ++ events r,
       checks r)
    else if String.eqb (answers n) "sat" then
      let r := induction_loop answers c rest 0 rs (S n) in
      (value r,
       induction_frame c step ++ [Print (MsgTryInduction step); CheckSat]
       ++ induction_report c step ++ events r,
       checks r)
    else
      (true,
       induction_frame c step
       ++ [Print (MsgTryInduction step); CheckSat; Print MsgInductionOk],
       S n).
Proof.
  cbn [induction_loop].
  assert (Hframe : forall (k : M bool) m,
    (write (DeclareFun step) ;; write (Assert (P_u step)) ;;
     write (Assert (P_h step)) ;; write (AssertNot (P_is step)) ;;
     (if step =? num_steps c then write (AssertNot (P_a step))
      else write (Assert (P_t step (step + 1))) ;; write (Assert (P_a step))) ;;
     k) m
    = (value (k m), induction_frame c step ++ events (k m), checks (k m))).
  { intros k m. unfold induction_frame.
    cbv beta iota zeta delta [bind write emit].
    destruct (step =? num_steps c); destruct (k m) as [[v e] n']; reflexivity. }
  rewrite Hframe.
  destruct (num_steps c - skip_steps c <? step).
  { cbv zeta. unfold bind, say, emit.
    destruct (induction_loop answers c rest skip_counter rs n) as [[v e] n'].
    reflexivity. }
  cbv zeta. destruct (skip_counter + 1 <? step_size c).
  { unfold bind, say, emit.
    destruct (induction_loop answers c rest (skip_counter + 1) rs n) as [[v e] n'].
    reflexivity. }
  rewrite say_bind. cbn [value events checks fst snd].
  rewrite check_sat_bind. cbn [value events checks fst snd].
  destruct (String.eqb (answers n) "sat"); [| reflexivity].
  assert (Hrep : forall m,
    (if step =? 0 then
       say MsgInductionFailed ;; print_anyconsts (num_steps c) ;;
       print_failed_asserts (num_steps c) false ;;
       write_trace c step (num_steps c + 1) "%"
     else if dumpall c then
       print_anyconsts (num_steps c) ;;
       print_failed_asserts (num_steps c) false ;;
       write_trace c step (num_steps c + 1) (Py.fmt_d step)
     else ret tt) m = (tt, induction_report c step, m)).
  { intros m. unfold induction_report.
    destruct (step =? 0); [| destruct (dumpall c); [| reflexivity]];
      cbv beta iota zeta delta
        [bind say emit print_anyconsts print_failed_asserts];
      rewrite write_trace_run; reflexivity. }
  unfold bind. rewrite Hrep.
  destruct (induction_loop answers c rest 0 rs (S n)) as [[v e] n'].
  reflexivity.
Qed.


(** ** The drivers as a whole *)

Lemma bmc_run (answers : nat -> string) (c : config) (db : Constr.state)
    (fuel n : nat) :
  bmc answers c db fuel n
  = let r := bmc_loop answers c db fuel 0 true n in
    match value r with
    | None => (None, events r, checks r)
    | Some rs =>
        (Some rs,
         events r
         ++ (if gentrace c
             then PrintAnyconsts 0 :: trace_events c 0 (num_steps c) "%"
             else []),
         checks r)
    end.
Proof.
  unfold bmc. unfold bind at 1. cbv zeta.
  destruct (bmc_loop answers c db fuel 0 true n) as [[[rs |] e] n'];
    cbn [value events checks fst snd].
  - destruct (gentrace c).
    + cbv beta iota zeta delta [bind print_anyconsts emit ret].
      rewrite write_trace_run. cbn. rewrite app_nil_r. reflexivity.
    + reflexivity.
  - cbn. rewrite app_nil_r. reflexivity.
Qed.

Lemma drive_run (answers : nat -> string) (c : config) (db : Constr.state)
    (fuel n : nat) :
  drive answers c db fuel n
  = let r := if tempind c
             then (let i := induction answers c n in
                   (Some (value i), events i, checks i))
             else bmc answers c db fuel n in
    match value r with
    | None => (None, events r, checks r)
    | Some rs =>
        (Some (if rs then 0 else 1), events r ++ closing rs, checks r)
    end.
Proof.
  unfold drive. unfold bind at 1. cbv zeta. destruct (tempind c).
  - unfold bind at 1. destruct (induction answers c n) as [[rs e] n'].
    cbn [value events checks fst snd ret]. rewrite app_nil_r.
    destruct rs; reflexivity.
  - destruct (bmc answers c db fuel n) as [[[rs |] e] n'];
      cbn [value events checks fst snd]; [| cbn; now rewrite app_nil_r].
    destruct rs; reflexivity.
Qed.

(** ** Trace generation *)

(** In trace generation mode the loop is only left with a false status
    through the "No solution found" branch. *)
Lemma bmc_loop_no_solution (answers : nat -> string) (c : config)
    (db : Constr.state) :
  gentrace c = true ->
  forall fuel step n,
    value (bmc_loop answers c db fuel step true n) = Some false ->
    exists pre,
      events (bmc_loop answers c db fuel step true n)
      = pre ++ [CheckSat; Print MsgNoSolution].
Proof.
  intros Hg. induction fuel as [|fuel IH]; intros step n; [discriminate |].
  rewrite bmc_loop_S. destruct (step <? num_steps c); [| discriminate].
  cbv zeta. destruct (Z.lt_ge_cases step (skip_steps c)) as [Hlt | Hge].
  - rewrite bmc_iteration_skip by exact Hlt. cbn [value events checks fst snd].
    intros Hv. destruct (IH _ _ Hv) as [pre Hpre]. rewrite Hpre.
    eexists. rewrite app_assoc. reflexivity.
  - rewrite bmc_iteration_window by exact Hge. cbv zeta.
    rewrite bmc_window_gentrace by exact Hg.
    destruct (String.eqb (answers n) "sat"); cbn [value events checks fst snd].
    + intros Hv. destruct (IH _ _ Hv) as [pre Hpre]. rewrite Hpre.
      eexists. rewrite app_assoc. reflexivity.
    + intros _.
      exists (window_events c step
              ++ commit_events step (window_last c step)
              ++ [Print (MsgSolving (window_last c step))]).
      rewrite <- !app_assoc. reflexivity.
Qed.

(** [print_anyconsts] asks the solver for every free constant of the top
    module. *)
Lemma print_anyconsts_asks (smt_modinfo : string -> option modinfo)
    (fuel : nat) (top : string) (mi : modinfo) (qs : list string)
    (fi : string * string) :
  smt_modinfo top = Some mi ->
  fi ∈ anyconsts mi ->
  print_anyconsts_queries smt_modinfo fuel top 0 = Some (Ok qs) ->
  ("(|" +:+ fi.1 +:+ "| s0)") ∈ qs.
Proof.
  intros Hmi Hfi. unfold print_anyconsts_queries.
  destruct fuel as [|fuel]; [discriminate |].
  cbn [print_anyconsts_worker]. rewrite Hmi.
  match goal with
  | |- match ?f with _ => _ end = _ -> _ => destruct f as [[cq | e] |]
  end; try discriminate.
  intros Hq. inversion Hq; subst. apply elem_of_app. right.
  apply list_elem_of_fmap. exists fi. split; [reflexivity | exact Hfi].
Qed.

(** ** The exit status of the exceptions *)





(** The exceptions of the parser. *)
Lemma directive_exn (n : Z) (fn line : string) (st : Constr.state) (e : exn) :
  Constr.directive n fn line st = Raise e -> parser_exn e.
Proof.
  unfold Constr.directive.
  destruct (Py.starts_with_hash line); [discriminate |].
  destruct (Py.split line) as [|tok0 args]; [discriminate |].
  destruct (String.eqb tok0 "initial"); [discriminate |].
  assert (Harg : forall k : Z -> res Constr.state,
            (forall i, exists st', k i = Ok st') ->
            match args with
            | [] => Ok st
            | [a] => i <-? int_or_raise a; _ <-? py_assert (i <? 0); k i
            | _ => Raise AssertionError
            end = Raise e -> parser_exn e).
  { intros k Hk. destruct args as [|a [|b l]]; [discriminate | |].
    - destruct (int_or_raise a) as [i |] eqn:Hi; cbn [res_bind].
      + unfold py_assert. destruct (i <? 0); cbn [res_bind].
        * destruct (Hk i) as [st' ->]. discriminate.
        * intros H; inversion H. now left.
      + intros H; inversion H; subst. eapply int_or_raise_exn, Hi.
    - intros H; inversion H. now left. }
  destruct (String.eqb tok0 "final").
  { destruct args as [|a [|b l]]; [discriminate | |].
    - apply (Harg (fun i => Ok _)). intros i. now eexists.
    - intros H; inversion H. now left. }
  destruct (String.eqb tok0 "state").
  { destruct (Constr.state_items n args ∅) as [cs |] eqn:Hs; cbn [res_bind];
      [discriminate |].
    intros H; inversion H; subst. clear H Harg.
    revert Hs. generalize (∅ : gset Constr.key).
    induction args as [|token rest IH]; intros cs; [discriminate |].
    cbn [Constr.state_items].
    destruct (Constr.state_item n token cs) as [cs' |] eqn:Hi; cbn [res_bind].
    - apply IH.
    - intros H; inversion H; subst. eapply state_item_exn, Hi. }
  destruct (String.eqb tok0 "always").
  { destruct args as [|a [|b l]]; [discriminate | |].
    - apply (Harg (fun i => Ok _)). intros i. now eexists.
    - intros H; inversion H. now left. }
  destruct (String.eqb tok0 "assert").
  { destruct (Constr.current_states st); [discriminate |].
    intros H; inversion H. now left. }
  destruct (String.eqb tok0 "assume").
  { destruct (Constr.current_states st); [discriminate |].
    intros H; inversion H. now left. }
  intros H; inversion H. now left.
Qed.

Lemma parse_files_exn (n : Z) (files : list (string * list string)) :
  forall st e, Constr.parse_files n files st = Raise e -> parser_exn e.
Proof.
  induction files as [|[fn lines] files IH]; intros st e; [discriminate |].
  cbn [Constr.parse_files]. unfold Constr.parse_file.
  generalize (Constr.State (Constr.constr_final_start st)
                (Constr.constr_asserts st) (Constr.constr_assumes st) None 0).
  intros st0.
  destruct (Constr.parse_lines n fn lines st0) as [st1 |] eqn:Hl;
    cbn [res_bind]; [apply IH |].
  intros H; inversion H; subst. clear H. revert st0 Hl.
  induction lines as [|line lines IHl]; intros st0; [discriminate |].
  cbn [Constr.parse_lines]. unfold Constr.parse_line.
  destruct (Constr.directive n fn line _) as [st2 |] eqn:Hd; cbn [res_bind].
  - apply IHl.
  - intros H; inversion H; subst. eapply directive_exn, Hd.
Qed.

(** ** Formatting and reading step numbers *)

Lemma uint_value_acc (d : Decimal.uint) :
  forall a, uint_value (Z.pos a) d = Z.pos (Pos.of_uint_acc d a).
Proof.
  induction d; intros a; cbn [uint_value Pos.of_uint_acc];
    [reflexivity | ..];
    match goal with
    | |- uint_value ?x _ = Z.pos (Pos.of_uint_acc _ ?y) =>
        replace x with (Z.pos y) by lia; apply IHd
    end.
Qed.

Lemma uint_value_of_uint (d : Decimal.uint) :
  uint_value 0 d = Z.of_N (Pos.of_uint d).
Proof.
  induction d; cbn [uint_value Pos.of_uint]; [reflexivity | exact IHd | ..];
    match goal with
    | |- uint_value ?x _ = _ =>
        change x with (Z.pos (Z.to_pos x)); rewrite uint_value_acc; reflexivity
    end.
Qed.

Lemma string_of_uint_digits (d : Decimal.uint) :
  Forall (fun ch => Py.is_digit ch = true)
    (list_ascii_of_string (NilEmpty.string_of_uint d)).
Proof. induction d; cbn; constructor; (reflexivity || assumption). Qed.

Lemma string_of_uint_value (d : Decimal.uint) :
  forall acc,
    fold_left (fun a ch => 10 * a + Py.digit_val ch)
      (list_ascii_of_string (NilEmpty.string_of_uint d)) acc
    = uint_value acc d.
Proof.
  induction d; intros acc; cbn [NilEmpty.string_of_uint list_ascii_of_string
                                  fold_left uint_value];
    [reflexivity | ..]; rewrite IHd; f_equal; vm_compute Py.digit_val; lia.
Qed.

Lemma to_uint_digits (p : positive) :
  digits (NilEmpty.string_of_uint (Pos.to_uint p))
  /\ dec_value (NilEmpty.string_of_uint (Pos.to_uint p)) = Z.pos p.
Proof.
  split.
  - split; [| apply string_of_uint_digits].
    pose proof (DecimalPos.Unsigned.to_uint_nonnil p) as Hn.
    destruct (Pos.to_uint p); [now destruct Hn | discriminate ..].
  - unfold dec_value. rewrite string_of_uint_value, uint_value_of_uint.
    now rewrite DecimalPos.Unsigned.of_to.
Qed.

(** [int("%d" % z)] is [z]. *)
Lemma int_fmt_d (z : Z) : Py.int (Py.fmt_d z) = Some z.
Proof.
  unfold Py.fmt_d. destruct z as [| p | p]; [reflexivity | |];
    cbn [Z.to_int NilZero.string_of_int]; unfold NilZero.string_of_uint;
    pose proof (DecimalPos.Unsigned.to_uint_nonnil p) as Hn;
    destruct (to_uint_digits p) as [Hd Hv].
  - replace (match Pos.to_uint p with
             | Decimal.Nil => "0"
             | _ => NilEmpty.string_of_uint (Pos.to_uint p)
             end) with (NilEmpty.string_of_uint (Pos.to_uint p))
      by (destruct (Pos.to_uint p); [now destruct Hn | reflexivity ..]).
    now rewrite int_of_digits, Hv.
  - replace (match Pos.to_uint p with
             | Decimal.Nil => "0"
             | _ => NilEmpty.string_of_uint (Pos.to_uint p)
             end) with (NilEmpty.string_of_uint (Pos.to_uint p))
      by (destruct (Pos.to_uint p); [now destruct Hn | reflexivity ..]).
    now rewrite int_of_minus_digits, Hv.
Qed.

Lemma fmt_d_inj (i j : Z) : Py.fmt_d i = Py.fmt_d j -> i = j.
Proof.
  intros H. apply (f_equal Py.int) in H. rewrite !int_fmt_d in H.
  now inversion H.
Qed.

(** ** What the constraint parser builds *)

(** Evaluate the comparisons of a token with the directive names. *)
Ltac eval_eqb :=
  repeat match goal with
         | |- context [String.eqb ?a ?b] =>
             let v := eval vm_compute in (String.eqb a b) in
             change (String.eqb a b) with v
         end;
  cbv iota.

Lemma final_key_inj (i j : Z) : Constr.final_key i = Constr.final_key j -> i = j.
Proof.
  unfold Constr.final_key. intros H. inversion H as [H1].
  now apply fmt_d_inj.
Qed.

Lemma append_all_cases (e : Constr.entry) (cs : gset Constr.key)
    (db : gmap Constr.key (list Constr.entry)) (k : Constr.key) :
  (k ∈ cs -> Constr.append_all e cs db !! k = Some (default [] (db !! k) ++ [e]))
  /\ (k ∉ cs -> Constr.append_all e cs db !! k = db !! k).
Proof.
  unfold Constr.append_all. revert k.
  apply (set_fold_ind_L
           (fun r (X : gset Constr.key) => forall k,
              (k ∈ X -> r !! k = Some (default [] (db !! k) ++ [e]))
              /\ (k ∉ X -> r !! k = db !! k))).
  - intros k. split; [| reflexivity].
    intros Hin. now apply not_elem_of_empty in Hin.
  - intros x X r Hx IH k. unfold Constr.db_append.
    destruct (decide (k = x)) as [-> | Hne].
    + rewrite lookup_insert_eq. split.
      * intros _. destruct (IH x) as [_ Hout]. now rewrite (Hout Hx).
      * intros Hn. exfalso. apply Hn, elem_of_union. left.
        now apply elem_of_singleton.
    + rewrite lookup_insert_ne by congruence. destruct (IH k) as [Hin Hout].
      split.
      * intros H. apply Hin. apply elem_of_union in H as [H | H]; [| exact H].
        now apply elem_of_singleton in H.
      * intros H. apply Hout. intros Hk. apply H, elem_of_union. now right.
Qed.

Lemma append_all_lookup (e : Constr.entry) (cs : gset Constr.key)
    (db : gmap Constr.key (list Constr.entry)) (k : Constr.key) :
  Constr.append_all e cs db !! k
  = if decide (k ∈ cs) then Some (default [] (db !! k) ++ [e]) else db !! k.
Proof.
  destruct (append_all_cases e cs db k) as [Hin Hout].
  destruct (decide (k ∈ cs)); auto.
Qed.

(** X1.  An [assert] line inside a scope adds its entry, the location
    [file:line] and the expression with its tokens joined by single spaces,
    at the end of the list of every active key of the assert table; the
    lists of the other keys, the assume table, the scope and [final_start]
    are not touched.  An [assume] line does the same to the assume table. *)
Theorem constraint_line_effect (n : Z) (fn line tok : string)
    (args : list string) (st : Constr.state) (cs : gset Constr.key) :
  Py.starts_with_hash line = false ->
  Py.split line = tok :: args ->
  Constr.current_states st = Some cs ->
  tok = "assert" \/ tok = "assume" ->
  exists st',
    Constr.parse_line n fn line st = Ok st'
    /\ (let e := (Constr.loc fn (Constr.current_line st + 1), Py.join " " args) in
        let grown (old new : gmap Constr.key (list Constr.entry)) :=
          forall k, new !! k = if decide (k ∈ cs)
                               then Some (default [] (old !! k) ++ [e])
                               else old !! k in
        (tok = "assert" ->
         grown (Constr.constr_asserts st) (Constr.constr_asserts st')
         /\ Constr.constr_assumes st' = Constr.constr_assumes st)
        /\ (tok = "assume" ->
            grown (Constr.constr_assumes st) (Constr.constr_assumes st')
            /\ Constr.constr_asserts st' = Constr.constr_asserts st))
    /\ Constr.current_states st' = Some cs
    /\ Constr.constr_final_start st' = Constr.constr_final_start st
    /\ Constr.current_line st' = Constr.current_line st + 1.
Proof.
  intros Hh Hs Hcs Htok. unfold Constr.parse_line, Constr.directive.
  rewrite Hh, Hs. cbn [Constr.current_states Constr.current_line
                       Constr.constr_asserts Constr.constr_assumes
                       Constr.constr_final_start].
  rewrite Hcs.
  destruct Htok as [-> | ->]; eval_eqb; eexists; (split; [reflexivity |]);
    cbn [Constr.current_states Constr.current_line Constr.constr_asserts
         Constr.constr_assumes Constr.constr_final_start];
    (split; [| now repeat split]); cbv zeta; split.
  - intros _. split; [| reflexivity]. intros k. apply append_all_lookup.
  - discriminate.
  - discriminate.
  - intros _. split; [| reflexivity]. intros k. apply append_all_lookup.
Qed.

Lemma elem_of_step_range (i lo hi : Z) (cs : gset Constr.key) :
  Constr.step_key i ∈ cs ∪ list_to_set (Constr.step_key <$> Py.range lo (hi + 1))
  <-> Constr.step_key i ∈ cs \/ lo <= i <= hi.
Proof.
  rewrite elem_of_union, elem_of_list_to_set, list_elem_of_fmap.
  unfold Py.range. split.
  - intros [H | (j & Hj & Hin)]; [now left | right].
    inversion Hj; subst. apply elem_of_seqZ in Hin. lia.
  - intros [H | H]; [now left | right].
    exists i. split; [reflexivity |]. apply elem_of_seqZ. lia.
Qed.

Lemma not_final_in_step_range (s : string) (lo hi : Z) (cs : gset Constr.key) :
  inr s ∈ cs ∪ list_to_set (Constr.step_key <$> Py.range lo (hi + 1))
  <-> inr s ∈ cs.
Proof.
  rewrite elem_of_union, elem_of_list_to_set, list_elem_of_fmap. split.
  - intros [H | (j & Hj & _)]; [exact H | discriminate Hj].
  - intros H. now left.
Qed.

(** X2.  [always] and [always -k] make the steps [lo .. num_steps] active
    (the horizon included), [final] and [final -k] the final-state keys of
    the steps [lo .. num_steps], with [lo] 0 or [k]; nothing else is active,
    and the tables are not touched. *)
Theorem scope_of_always_and_final (n : Z) (fn line tok : string)
    (args : list string) (lo : Z) (st : Constr.state) :
  Py.starts_with_hash line = false ->
  Py.split line = tok :: args ->
  scope_from args lo ->
  tok = "always" \/ tok = "final" ->
  exists st' cs,
    Constr.directive n fn line st = Ok st'
    /\ Constr.current_states st' = Some cs
    /\ Constr.constr_asserts st' = Constr.constr_asserts st
    /\ Constr.constr_assumes st' = Constr.constr_assumes st
    /\ (tok = "always" ->
        (forall i, Constr.step_key i ∈ cs <-> lo <= i <= n)
        /\ (forall s, inr s ∉ cs))
    /\ (tok = "final" ->
        (forall i, Constr.final_key i ∈ cs <-> lo <= i <= n)
        /\ (forall i, Constr.step_key i ∉ cs)).
Proof.
  intros Hh Hs Hfrom Htok. unfold Constr.directive. rewrite Hh, Hs.
  assert (Hsteps : forall i,
            Constr.step_key i
            ∈ (list_to_set (Constr.step_key <$> Py.range lo (n + 1)) : gset Constr.key)
            <-> lo <= i <= n).
  { intros i. pose proof (elem_of_step_range i lo n ∅) as H.
    rewrite union_empty_l_L in H. rewrite H. split; [| now right].
    intros [Hin | Hr]; [now apply not_elem_of_empty in Hin | exact Hr]. }
  assert (Hnofinal : forall s,
            inr s ∉ (list_to_set (Constr.step_key <$> Py.range lo (n + 1))
                     : gset Constr.key)).
  { intros s Hin. apply elem_of_list_to_set, list_elem_of_fmap in Hin.
    destruct Hin as (j & Hj & _). discriminate Hj. }
  assert (Hfinals : forall i,
            Constr.final_key i
            ∈ (list_to_set (Constr.final_key <$> Py.range lo (n + 1)) : gset Constr.key)
            <-> lo <= i <= n).
  { intros i. rewrite elem_of_list_to_set, list_elem_of_fmap. unfold Py.range.
    split.
    - intros (j & Hj & Hin). apply final_key_inj in Hj. subst j.
      apply elem_of_seqZ in Hin. lia.
    - intros Hr. exists i. split; [reflexivity |]. apply elem_of_seqZ. lia. }
  assert (Hnostep : forall i,
            Constr.step_key i
            ∉ (list_to_set (Constr.final_key <$> Py.range lo (n + 1)) : gset Constr.key)).
  { intros i Hin. apply elem_of_list_to_set, list_elem_of_fmap in Hin.
    destruct Hin as (j & Hj & _). discriminate Hj. }
  destruct Htok as [-> | ->]; eval_eqb;
    destruct Hfrom as [[-> ->] | (a & m & -> & Ha & Hm & ->)];
    try (unfold int_or_raise, py_assert; rewrite Ha; cbn [res_bind];
         apply Z.ltb_lt in Hm; rewrite Hm; cbn [res_bind]);
    eexists _, _; (split; [reflexivity |]); (split; [reflexivity |]);
    (split; [reflexivity |]); (split; [reflexivity |]).
  - split; [intros _; split; [exact Hsteps | exact Hnofinal] | discriminate].
  - split; [intros _; split; [exact Hsteps | exact Hnofinal] | discriminate].
  - split; [discriminate | intros _; split; [exact Hfinals | exact Hnostep]].
  - split; [discriminate | intros _; split; [exact Hfinals | exact Hnostep]].
Qed.

Lemma state_item_member (n : Z) (token : string) (cs cs' : gset Constr.key) :
  Constr.state_item n token cs = Ok cs' ->
  (forall i, Constr.step_key i ∈ cs'
             <-> Constr.step_key i ∈ cs \/ item_covers n token i)
  /\ (forall s, inr s ∈ cs' <-> inr s ∈ cs).
Proof.
  unfold Constr.state_item, item_covers, int_or_raise.
  destruct (Py.split_on ":" "" token) as [|a [|b [|x rest]]]; try discriminate.
  - destruct (Py.int token) as [z |]; [| discriminate]. cbn [res_bind].
    intros H. inversion H; subst; clear H. split.
    + intros i. rewrite elem_of_union, elem_of_singleton. split.
      * intros [H | H]; [now left | right]. inversion H. reflexivity.
      * intros [H | H]; [now left | right]. inversion H. reflexivity.
    + intros s. rewrite elem_of_union, elem_of_singleton. split.
      * intros [H | H]; [exact H | discriminate H].
      * intros H. now left.
  - destruct (Py.int a) as [l |]; [| discriminate]. cbn [res_bind].
    destruct (String.eqb b "*") eqn:Hstar.
    + cbn [res_bind]. intros H. inversion H; subst; clear H. split.
      * intros i. rewrite elem_of_step_range. split.
        -- intros [H | H]; [now left | right]. exists l, n. now repeat split.
        -- intros [H | (l' & u & Hl & -> & Hr)]; [now left | right].
           inversion Hl; subst. exact Hr.
      * intros s. apply not_final_in_step_range.
    + destruct (Py.int b) as [u |]; [| discriminate]. cbn [res_bind].
      intros H. inversion H; subst; clear H. split.
      * intros i. rewrite elem_of_step_range. split.
        -- intros [H | H]; [now left | right]. exists l, u. now repeat split.
        -- intros [H | (l' & u' & Hl & Hu & Hr)]; [now left | right].
           inversion Hl; inversion Hu; subst. exact Hr.
      * intros s. apply not_final_in_step_range.
Qed.

Lemma state_items_member (n : Z) (items : list string) :
  forall cs cs',
    Constr.state_items n items cs = Ok cs' ->
    (forall i, Constr.step_key i ∈ cs'
               <-> Constr.step_key i ∈ cs
                   \/ Exists (fun t => item_covers n t i) items)
    /\ (forall s, inr s ∈ cs' <-> inr s ∈ cs).
Proof.
  induction items as [|t rest IH]; intros cs cs'; cbn [Constr.state_items].
  - intros H. inversion H; subst. split; [| reflexivity].
    intros i. split; [now left |]. intros [H1 | H1]; [exact H1 |].
    inversion H1.
  - destruct (Constr.state_item n t cs) as [cs1 |] eqn:Ht; [| discriminate].
    cbn [res_bind]. intros Hrest.
    destruct (state_item_member n t cs cs1 Ht) as [H1 H1'].
    destruct (IH cs1 cs' Hrest) as [H2 H2']. split.
    + intros i. rewrite H2, H1, Exists_cons. tauto.
    + intros s. now rewrite H2', H1'.
Qed.

(** X3.  A [state] line replaces the scope by the steps its items stand
    for, and by nothing else: a number, or a range with both ends included,
    [*] standing for [num_steps]; the earlier scope is dropped, no
    final-state key is active, the tables are not touched. *)
Theorem scope_of_state (n : Z) (fn line : string) (items : list string)
    (st st' : Constr.state) :
  Py.starts_with_hash line = false ->
  Py.split line = "state" :: items ->
  Constr.directive n fn line st = Ok st' ->
  exists cs,
    Constr.current_states st' = Some cs
    /\ (forall i, Constr.step_key i ∈ cs
                  <-> Exists (fun t => item_covers n t i) items)
    /\ (forall s, inr s ∉ cs)
    /\ Constr.constr_asserts st' = Constr.constr_asserts st
    /\ Constr.constr_assumes st' = Constr.constr_assumes st
    /\ Constr.constr_final_start st' = Constr.constr_final_start st.
Proof.
  intros Hh Hs. unfold Constr.directive. rewrite Hh, Hs. eval_eqb.
  destruct (Constr.state_items n items ∅) as [cs |] eqn:Hi; [| discriminate].
  cbn [res_bind]. intros H. inversion H; subst; clear H.
  destruct (state_items_member n items ∅ cs Hi) as [H1 H2].
  exists cs. cbn. repeat split; try reflexivity.
  - intros Hin. apply H1 in Hin as [Hin | Hin]; [| exact Hin].
    now apply not_elem_of_empty in Hin.
  - intros Hin. apply H1. now right.
  - intros s Hin. apply H2 in Hin. now apply not_elem_of_empty in Hin.
Qed.

Lemma append_all_empty (e : Constr.entry)
    (db : gmap Constr.key (list Constr.entry)) :
  Constr.append_all e ∅ db = db.
Proof.
  apply map_eq. intros k. rewrite append_all_lookup.
  destruct (decide (k ∈ (∅ : gset Constr.key))) as [Hin | _]; [| reflexivity].
  now apply not_elem_of_empty in Hin.
Qed.

(** X4.  After a [state] line whose items stand for no step (no item, or
    only ranges with the upper end below the lower one) the scope is the
    empty set, not "no scope": an [assert] or [assume] line is accepted and
    records nothing. *)
Theorem empty_scope_records_nothing (n : Z) (fn l1 l2 tok : string)
    (items args : list string) (st st1 : Constr.state) :
  Py.starts_with_hash l1 = false ->
  Py.split l1 = "state" :: items ->
  Constr.parse_line n fn l1 st = Ok st1 ->
  (forall i, ~ Exists (fun t => item_covers n t i) items) ->
  Py.starts_with_hash l2 = false ->
  Py.split l2 = tok :: args ->
  tok = "assert" \/ tok = "assume" ->
  exists st2,
    Constr.parse_lines n fn [l1; l2] st = Ok st2
    /\ Constr.constr_asserts st2 = Constr.constr_asserts st
    /\ Constr.constr_assumes st2 = Constr.constr_assumes st
    /\ Constr.current_states st2 = Some ∅.
Proof.
  intros Hh1 Hs1 H1 Hnone Hh2 Hs2 Htok.
  cbn [Constr.parse_lines]. rewrite H1. cbn [res_bind].
  unfold Constr.parse_line, Constr.directive in H1. rewrite Hh1, Hs1 in H1.
  revert H1. eval_eqb.
  destruct (Constr.state_items n items ∅) as [cs |] eqn:Hi; [| discriminate].
  cbn [res_bind]. intros H1. inversion H1; subst st1; clear H1.
  destruct (state_items_member n items ∅ cs Hi) as [Hsteps Hfin].
  assert (Hempty : cs = ∅).
  { apply set_eq. intros [i | s]; split; intros Hin.
    - apply Hsteps in Hin as [Hin | Hin]; [exact Hin |].
      now apply Hnone in Hin.
    - now apply not_elem_of_empty in Hin.
    - now apply Hfin in Hin.
    - now apply not_elem_of_empty in Hin. }
  subst cs. unfold Constr.parse_line, Constr.directive. rewrite Hh2, Hs2.
  cbn [Constr.set_states Constr.current_states Constr.constr_asserts
       Constr.constr_assumes Constr.constr_final_start Constr.current_line].
  destruct Htok as [-> | ->]; eval_eqb; cbn [res_bind]; eexists;
    (split; [reflexivity |]);
    cbn [Constr.current_states Constr.constr_asserts Constr.constr_assumes];
    rewrite ?append_all_empty; repeat split; reflexivity.
Qed.

Lemma parse_lines_passed_over (n : Z) (fn : string) (pre : list string) :
  Forall passed_over pre ->
  forall st,
    Constr.parse_lines n fn pre st
    = Ok (Constr.State (Constr.constr_final_start st) (Constr.constr_asserts st)
            (Constr.constr_assumes st) (Constr.current_states st)
            (Constr.current_line st + Z.of_nat (length pre))).
Proof.
  induction 1 as [|l pre Hl _ IH]; intros st.
  - cbn. destruct st; cbn. f_equal. f_equal. lia.
  - cbn [Constr.parse_lines]. unfold Constr.parse_line at 1.
    assert (Hd : forall s, Constr.directive n fn l s = Ok s).
    { intros s. unfold Constr.directive.
      destruct Hl as [-> | Hl]; [reflexivity |].
      rewrite Hl. now destruct (Py.starts_with_hash l). }
    rewrite Hd. cbn [res_bind]. rewrite IH. cbn. f_equal. f_equal. lia.
Qed.

(** X5.  The scope does not carry over from one file to the next: a file
    whose first line that is neither a comment nor blank is an [assert] or
    [assume] line stops the run with [AssertionError], whatever the files
    before it have set up. *)
Theorem scope_reset_per_file (n : Z) (fn l tok : string)
    (pre rest args : list string) (st : Constr.state) :
  Forall passed_over pre ->
  Py.starts_with_hash l = false ->
  Py.split l = tok :: args ->
  tok = "assert" \/ tok = "assume" ->
  Constr.parse_file n fn (pre ++ l :: rest) st = Raise AssertionError.
Proof.
  intros Hpre Hh Hs Htok. unfold Constr.parse_file.
  rewrite parse_lines_app, (parse_lines_passed_over n fn pre Hpre).
  cbn [res_bind Constr.parse_lines Constr.current_states
       Constr.constr_asserts Constr.constr_assumes Constr.constr_final_start
       Constr.current_line].
  unfold Constr.parse_line, Constr.directive. rewrite Hh, Hs.
  cbn [Constr.current_states].
  destruct Htok as [-> | ->]; eval_eqb; reflexivity.
Qed.

Lemma directive_line (n : Z) (fn line : string) (st st' : Constr.state) :
  Constr.directive n fn line st = Ok st' ->
  Constr.current_line st' = Constr.current_line st.
Proof.
  assert (Hfin : forall (r : res Z) (f : Z -> Constr.state),
            (forall z, Constr.current_line (f z) = Constr.current_line st) ->
            (i <-? r; _ <-? py_assert (i <? 0); Ok (f i)) = Ok st' ->
            Constr.current_line st' = Constr.current_line st).
  { intros [z |] f Hf; [| discriminate]. cbn [res_bind]. unfold py_assert.
    destruct (z <? 0); [| discriminate]. cbn [res_bind].
    intros H. inversion H; subst. apply Hf. }
  unfold Constr.directive.
  destruct (Py.starts_with_hash line); [intros H; now inversion H |].
  destruct (Py.split line) as [|tok args]; [intros H; now inversion H |].
  destruct (String.eqb tok "initial"); [intros H; now inversion H |].
  destruct (String.eqb tok "final").
  { destruct args as [|a [|b rest]]; [intros H; now inversion H | |
                                       discriminate].
    destruct (Constr.constr_final_start st);
      apply (Hfin (int_or_raise a) (fun i => Constr.State _ _ _ _ _));
      reflexivity. }
  destruct (String.eqb tok "state").
  { destruct (Constr.state_items n args ∅); [| discriminate].
    cbn [res_bind]. intros H. now inversion H. }
  destruct (String.eqb tok "always").
  { destruct args as [|a [|b rest]]; [intros H; now inversion H | |
                                       discriminate].
    apply (Hfin (int_or_raise a) (fun i => Constr.set_states _ st)).
    reflexivity. }
  destruct (String.eqb tok "assert").
  { destruct (Constr.current_states st); [| discriminate].
    intros H. now inversion H. }
  destruct (String.eqb tok "assume"); [| discriminate].
  destruct (Constr.current_states st); [| discriminate].
  intros H. now inversion H.
Qed.

Lemma parse_lines_line (n : Z) (fn : string) (lines : list string) :
  forall st st',
    Constr.parse_lines n fn lines st = Ok st' ->
    Constr.current_line st' = Constr.current_line st + Z.of_nat (length lines).
Proof.
  induction lines as [|l rest IH]; intros st st'; cbn [Constr.parse_lines].
  - intros H. inversion H; subst. cbn. lia.
  - destruct (Constr.parse_line n fn l st) as [st1 |] eqn:H1; [| discriminate].
    cbn [res_bind]. intros H2. apply IH in H2. rewrite H2.
    unfold Constr.parse_line in H1. apply directive_line in H1.
    rewrite H1. cbn [Constr.current_line length]. lia.
Qed.

(** X6.  The location recorded with a constraint is the name of its file
    and its line number there, counted from 1 over all lines, comments and
    blank lines included: the entry of an [assert] line that follows [pre]
    in the file [fn] is located at [fn:(length pre + 1)]. *)
Theorem entry_location (n : Z) (fn line : string) (pre args : list string)
    (st st' : Constr.state) :
  Py.starts_with_hash line = false ->
  Py.split line = "assert" :: args ->
  Constr.parse_file n fn (pre ++ [line]) st = Ok st' ->
  exists st1 cs,
    Constr.parse_file n fn pre st = Ok st1
    /\ Constr.current_states st1 = Some cs
    /\ forall k, k ∈ cs ->
         Constr.constr_asserts st' !! k
         = Some (default [] (Constr.constr_asserts st1 !! k)
                 ++ [(fn +:+ ":" +:+ Py.fmt_d (Z.of_nat (length pre) + 1),
                      Py.join " " args)]).
Proof.
  intros Hh Hs. unfold Constr.parse_file. rewrite parse_lines_app.
  destruct (Constr.parse_lines n fn pre _) as [st1 |] eqn:Hpre; [| discriminate].
  cbn [res_bind Constr.parse_lines].
  destruct (Constr.parse_line n fn line st1) as [st2 |] eqn:Hl; [| discriminate].
  cbn [res_bind]. intros H. inversion H; subst st2; clear H.
  destruct (Constr.current_states st1) as [cs |] eqn:Hcs.
  - exists st1, cs. split; [reflexivity |]. split; [exact Hcs |].
    intros k Hk. unfold Constr.parse_line, Constr.directive in Hl.
    rewrite Hh, Hs in Hl.
    cbn [Constr.current_states Constr.current_line Constr.constr_asserts] in Hl.
    rewrite Hcs in Hl. revert Hl. eval_eqb. intros Hl.
    inversion Hl; subst st'; clear Hl. cbn [Constr.constr_asserts].
    rewrite append_all_lookup. destruct (decide (k ∈ cs)); [| contradiction].
    apply parse_lines_line in Hpre. cbn [Constr.current_line] in Hpre.
    rewrite Hpre. unfold Constr.loc. do 5 f_equal.
  - exfalso. unfold Constr.parse_line, Constr.directive in Hl.
    rewrite Hh, Hs in Hl. cbn [Constr.current_states] in Hl. rewrite Hcs in Hl.
    revert Hl. eval_eqb. discriminate.
Qed.

Lemma directive_effect (n : Z) (fn line : string) (st st' : Constr.state) :
  Constr.directive n fn line st = Ok st' -> line_effect st st'.
Proof.
  assert (Hfin : forall (r : res Z) (f : Z -> Constr.state),
            (forall z, line_effect st (f z)) ->
            (i <-? r; _ <-? py_assert (i <? 0); Ok (f i)) = Ok st' ->
            line_effect st st').
  { intros [z |] f Hf; [| discriminate]. cbn [res_bind]. unfold py_assert.
    destruct (z <? 0); [| discriminate]. cbn [res_bind].
    intros H. inversion H; subst. apply Hf. }
  unfold Constr.directive.
  destruct (Py.starts_with_hash line).
  { intros H. inversion H; subst. left. now split. }
  destruct (Py.split line) as [|tok args].
  { intros H. inversion H; subst. left. now split. }
  destruct (String.eqb tok "initial").
  { intros H. inversion H; subst. left. now split. }
  destruct (String.eqb tok "final").
  { destruct args as [|a [|b rest]]; [| | discriminate].
    - intros H. inversion H; subst. left. now split.
    - destruct (Constr.constr_final_start st);
        apply (Hfin (int_or_raise a) (fun i => Constr.State _ _ _ _ _));
        intros ?; left; split; reflexivity. }
  destruct (String.eqb tok "state").
  { destruct (Constr.state_items n args ∅); [| discriminate].
    cbn [res_bind]. intros H. inversion H; subst. left. now split. }
  destruct (String.eqb tok "always").
  { destruct args as [|a [|b rest]]; [| | discriminate].
    - intros H. inversion H; subst. left. now split.
    - apply (Hfin (int_or_raise a) (fun i => Constr.set_states _ st)).
      intros ?; left; split; reflexivity. }
  destruct (String.eqb tok "assert").
  { destruct (Constr.current_states st) as [cs |]; [| discriminate].
    intros H. inversion H; subst. right. left. eexists _, cs. now split. }
  destruct (String.eqb tok "assume"); [| discriminate].
  destruct (Constr.current_states st) as [cs |]; [| discriminate].
  intros H. inversion H; subst. right. right. eexists _, cs. now split.
Qed.

(** Invariants of the two tables that no line breaks are kept by a file
    and by a list of files. *)
Lemma parse_lines_invariant (P Q : gmap Constr.key (list Constr.entry) -> Prop)
    (n : Z) (fn : string) (lines : list string) :
  (forall e cs db, P db -> P (Constr.append_all e cs db)) ->
  (forall e cs db, Q db -> Q (Constr.append_all e cs db)) ->
  forall st st',
    Constr.parse_lines n fn lines st = Ok st' ->
    P (Constr.constr_asserts st) -> Q (Constr.constr_assumes st) ->
    P (Constr.constr_asserts st') /\ Q (Constr.constr_assumes st').
Proof.
  intros HP HQ. induction lines as [|l rest IH]; intros st st';
    cbn [Constr.parse_lines].
  - intros H. inversion H; subst. now split.
  - destruct (Constr.parse_line n fn l st) as [st1 |] eqn:H1; [| discriminate].
    cbn [res_bind]. intros H2 Ha Hb. apply (IH st1 st' H2).
    + unfold Constr.parse_line in H1. apply directive_effect in H1.
      cbn [Constr.constr_asserts Constr.constr_assumes] in H1.
      destruct H1 as [[-> _] | [(e & cs & -> & _) | (e & cs & _ & ->)]];
        auto.
    + unfold Constr.parse_line in H1. apply directive_effect in H1.
      cbn [Constr.constr_asserts Constr.constr_assumes] in H1.
      destruct H1 as [[_ ->] | [(e & cs & _ & ->) | (e & cs & -> & _)]];
        auto.
Qed.

Lemma parse_files_invariant (P Q : gmap Constr.key (list Constr.entry) -> Prop)
    (n : Z) (files : list (string * list string)) :
  (forall e cs db, P db -> P (Constr.append_all e cs db)) ->
  (forall e cs db, Q db -> Q (Constr.append_all e cs db)) ->
  forall st st',
    Constr.parse_files n files st = Ok st' ->
    P (Constr.constr_asserts st) -> Q (Constr.constr_assumes st) ->
    P (Constr.constr_asserts st') /\ Q (Constr.constr_assumes st').
Proof.
  intros HP HQ. induction files as [|[fn lines] rest IH]; intros st st';
    cbn [Constr.parse_files].
  - intros H. inversion H; subst. now split.
  - destruct (Constr.parse_file n fn lines st) as [st1 |] eqn:H1;
      [| discriminate].
    cbn [res_bind]. intros H2 Ha Hb.
    unfold Constr.parse_file in H1.
    destruct (parse_lines_invariant P Q n fn lines HP HQ _ st1 H1 Ha Hb).
    now apply (IH st1 st' H2).
Qed.

Lemma extends_refl (db : gmap Constr.key (list Constr.entry)) : extends db db.
Proof. intros k l Hk. exists []. now rewrite app_nil_r. Qed.

Lemma extends_append_all (old : gmap Constr.key (list Constr.entry))
    (e : Constr.entry) (cs : gset Constr.key)
    (db : gmap Constr.key (list Constr.entry)) :
  extends old db -> extends old (Constr.append_all e cs db).
Proof.
  intros Hdb k l Hk. destruct (Hdb k l Hk) as [more Hm].
  rewrite append_all_lookup, Hm. cbn [default].
  destruct (decide (k ∈ cs)).
  - exists (more ++ [e]). now rewrite app_assoc.
  - now exists more.
Qed.

(** X7.  The parser only adds: whatever the files contain, every key that
    was in a table is still there, and its entries are still the first
    entries of its list, in the same order. *)
Theorem tables_only_grow (n : Z) (files : list (string * list string))
    (st st' : Constr.state) :
  Constr.parse_files n files st = Ok st' ->
  extends (Constr.constr_asserts st) (Constr.constr_asserts st')
  /\ extends (Constr.constr_assumes st) (Constr.constr_assumes st').
Proof.
  intros H.
  apply (parse_files_invariant (extends (Constr.constr_asserts st))
           (extends (Constr.constr_assumes st)) n files
           (extends_append_all _) (extends_append_all _) st st' H);
    apply extends_refl.
Qed.

Lemma filled_append_all (e : Constr.entry) (cs : gset Constr.key)
    (db : gmap Constr.key (list Constr.entry)) :
  filled db -> filled (Constr.append_all e cs db).
Proof.
  intros Hdb k. rewrite append_all_lookup.
  destruct (decide (k ∈ cs)); [| apply Hdb].
  intros H. inversion H as [H1]. now destruct (default [] (db !! k)).
Qed.

(** X8.  A key gets into a table only together with an entry: after the
    constraint files have been read, no key of either table holds an empty
    list, so the resolver finds at least one expression under every key
    that is present. *)
Theorem recorded_lists_nonempty (n : Z) (files : list (string * list string))
    (st' : Constr.state) :
  Constr.parse_files n files Constr.init = Ok st' ->
  filled (Constr.constr_asserts st') /\ filled (Constr.constr_assumes st').
Proof.
  intros H.
  apply (parse_files_invariant filled filled n files
           filled_append_all filled_append_all Constr.init st' H);
    intros k; cbn; now rewrite lookup_empty.
Qed.

(** ** Instances of the parser properties *)

Lemma constraint_line_effect_witness :
  exists st',
    Constr.parse_line 20 "c.smtc" "assert [a]"
      (Constr.State None ∅ ∅ (Some {[Constr.step_key 0]}) 1) = Ok st'
    /\ Constr.current_line st' = 2.
Proof.
  destruct (constraint_line_effect 20 "c.smtc" "assert [a]" "assert" ["[a]"]
              (Constr.State None ∅ ∅ (Some {[Constr.step_key 0]}) 1)
              {[Constr.step_key 0]}
              eq_refl ltac:(vm_compute; reflexivity) eq_refl
              ltac:(left; reflexivity))
    as (st' & H1 & _ & _ & _ & H5).
  exists st'. split; [exact H1 | exact H5].
Defined.

Lemma scope_of_always_and_final_witness :
  exists st' cs,
    Constr.directive 20 "c.smtc" "always -3" Constr.init = Ok st'
    /\ Constr.current_states st' = Some cs
    /\ (Constr.step_key 20 ∈ cs) /\ (Constr.step_key 2 ∉ cs).
Proof.
  destruct (scope_of_always_and_final 20 "c.smtc" "always -3" "always" ["-3"] 3
              Constr.init eq_refl ltac:(vm_compute; reflexivity)
              ltac:(right; exists "-3", (-3);
                    split; [reflexivity |];
                    split; [vm_compute; reflexivity |];
                    split; [lia | reflexivity])
              ltac:(left; reflexivity))
    as (st' & cs & H1 & H2 & _ & _ & Ha & _).
  exists st', cs. destruct (Ha eq_refl) as [Hs _].
  repeat split; [exact H1 | exact H2 | apply Hs; lia |].
  intros Hin. apply Hs in Hin. lia.
Defined.

Lemma scope_of_state_witness :
  exists st' cs,
    Constr.directive 20 "c.smtc" "state 1 3:4" Constr.init = Ok st'
    /\ Constr.current_states st' = Some cs
    /\ forall s, inr s ∉ cs.
Proof.
  destruct (Constr.directive 20 "c.smtc" "state 1 3:4" Constr.init)
    as [st' |] eqn:Hd; [| vm_compute in Hd; discriminate Hd].
  destruct (scope_of_state 20 "c.smtc" "state 1 3:4" ["1"; "3:4"] Constr.init
              st' eq_refl ltac:(vm_compute; reflexivity) Hd)
    as (cs & H1 & _ & H3 & _).
  exists st', cs. repeat split; [exact H1 | exact H3].
Defined.

Lemma empty_scope_records_nothing_witness :
  exists st2,
    Constr.parse_lines 20 "c.smtc" ["state 5:3"; "assert [a]"] Constr.init
    = Ok st2
    /\ Constr.constr_asserts st2 = ∅.
Proof.
  destruct (Constr.parse_line 20 "c.smtc" "state 5:3" Constr.init)
    as [st1 |] eqn:H1; [| vm_compute in H1; discriminate H1].
  destruct (empty_scope_records_nothing 20 "c.smtc" "state 5:3" "assert [a]"
              "assert" ["5:3"] ["[a]"] Constr.init st1
              eq_refl ltac:(vm_compute; reflexivity) H1)
    as (st2 & H2 & Ha & _).
  - intros i Hex. apply Exists_cons in Hex as [Hex | Hex]; [| inversion Hex].
    unfold item_covers in Hex.
    change (Py.split_on ":" "" "5:3") with ["5"; "3"] in Hex.
    destruct Hex as (l & u & Hl & Hu & Hr).
    vm_compute in Hl, Hu. injection Hl as <-. injection Hu as <-. lia.
  - reflexivity.
  - vm_compute; reflexivity.
  - left; reflexivity.
  - exists st2. split; [exact H2 | exact Ha].
Defined.

Lemma scope_reset_per_file_witness :
  Constr.parse_file 20 "d.smtc" ["# asserts"; ""; "assert [a]"]
    (Constr.State None ∅ ∅ (Some {[Constr.step_key 0]}) 7)
  = Raise AssertionError.
Proof.
  apply (scope_reset_per_file 20 "d.smtc" "assert [a]" "assert"
           ["# asserts"; ""] [] ["[a]"]).
  - constructor; [left; reflexivity |].
    constructor; [right; vm_compute; reflexivity | constructor].
  - reflexivity.
  - vm_compute; reflexivity.
  - left; reflexivity.
Defined.

Lemma entry_location_witness :
  exists st' st1 cs,
    Constr.parse_file 20 "c.smtc" ["# reset"; "initial"; "assert [rst]"]
      Constr.init = Ok st'
    /\ Constr.parse_file 20 "c.smtc" ["# reset"; "initial"] Constr.init = Ok st1
    /\ Constr.current_states st1 = Some cs
    /\ forall k, k ∈ cs ->
         Constr.constr_asserts st' !! k
         = Some (default [] (Constr.constr_asserts st1 !! k)
                 ++ [("c.smtc" +:+ ":" +:+ Py.fmt_d 3, "[rst]")]).
Proof.
  destruct (Constr.parse_file 20 "c.smtc" ["# reset"; "initial"; "assert [rst]"]
              Constr.init) as [st' |] eqn:Hp;
    [| vm_compute in Hp; discriminate Hp].
  destruct (entry_location 20 "c.smtc" "assert [rst]" ["# reset"; "initial"]
              ["[rst]"] Constr.init st' eq_refl ltac:(vm_compute; reflexivity)
              Hp) as (st1 & cs & H1 & H2 & H3).
  exists st', st1, cs. split; [reflexivity |]. split; [exact H1 |].
  split; [exact H2 | exact H3].
Defined.

Lemma tables_only_grow_witness :
  exists st',
    Constr.parse_files 20 [("c.smtc", ["initial"; "assume [rst]"])]
      Constr.init = Ok st'
    /\ extends ∅ (Constr.constr_assumes st').
Proof.
  destruct (Constr.parse_files 20 [("c.smtc", ["initial"; "assume [rst]"])]
              Constr.init) as [st' |] eqn:Hp;
    [| vm_compute in Hp; discriminate Hp].
  exists st'. split; [reflexivity |].
  exact (proj2 (tables_only_grow 20 _ Constr.init st' Hp)).
Defined.

Lemma recorded_lists_nonempty_witness :
  exists st',
    Constr.parse_files 20 [("c.smtc", ["state 5:3"; "assume [rst]"])]
      Constr.init = Ok st'
    /\ filled (Constr.constr_assumes st').
Proof.
  destruct (Constr.parse_files 20 [("c.smtc", ["state 5:3"; "assume [rst]"])]
              Constr.init) as [st' |] eqn:Hp;
    [| vm_compute in Hp; discriminate Hp].
  exists st'. split; [reflexivity |].
  exact (proj2 (recorded_lists_nonempty 20 _ st' Hp)).
Defined.

(** ** What the option loop keeps *)

Lemma set_option_fields (so_handle : string -> string -> bool)
    (o a : string) (c c' : config) :
  set_option so_handle o a c = Ok c' ->
  inconstr c' = inconstr c ++ (if String.eqb o "--smtc" then [a] else [])
  /\ (gentrace c = true -> gentrace c' = true)
  /\ (tempind c = true -> tempind c' = true)
  /\ (dumpall c = true -> dumpall c' = true)
  /\ (final_only c = true -> final_only c' = true)
  /\ (sets_horizon o = false ->
      skip_steps c' = skip_steps c /\ step_size c' = step_size c
      /\ num_steps c' = num_steps c).
Proof.
  unfold set_option, sets_horizon.
  destruct (String.eqb o "-t") eqn:Ht.
  { apply String.eqb_eq in Ht. subst o. change (String.eqb "-t" "--smtc") with false.
    rewrite app_nil_r. unfold int_or_raise.
    destruct (Py.split_on ":" "" a) as [|a0 [|a1 [|a2 [|a3 rest]]]];
      try discriminate;
      repeat match goal with
             | |- context [Py.int ?x] => destruct (Py.int x); [| discriminate]
             end;
      cbn [res_bind]; intros H; inversion H; subst; cbn;
      repeat split; trivial; discriminate. }
  destruct (String.eqb o "--assume-skipped") eqn:H1.
  { apply String.eqb_eq in H1. subst o.
    change (String.eqb "--assume-skipped" "--smtc") with false.
    rewrite app_nil_r. unfold int_or_raise.
    destruct (Py.int a); [| discriminate]. cbn [res_bind].
    intros H; inversion H; subst; cbn. repeat split; trivial. }
  destruct (String.eqb o "--final-only") eqn:H2.
  { apply String.eqb_eq in H2. subst o.
    change (String.eqb "--final-only" "--smtc") with false.
    rewrite app_nil_r. intros H; inversion H; subst; cbn.
    repeat split; trivial. }
  destruct (String.eqb o "--smtc") eqn:H3.
  { intros H; inversion H; subst; cbn. repeat split; trivial. }
  rewrite app_nil_r.
  repeat match goal with
         | |- context [String.eqb o ?x] =>
             destruct (String.eqb o x);
             [intros H; inversion H; subst; cbn; repeat split; trivial |]
         end.
  destruct (so_handle o a); [| discriminate].
  intros H; inversion H; subst. repeat split; trivial.
Qed.

(** X10.  The constraint files are read in the order of their [--smtc]
    options: after the option loop [inconstr] is the list of the arguments
    of these options, as they stand on the command line, and no other
    option adds to it. *)
Theorem smtc_files_in_order (so_handle : string -> string -> bool)
    (opts : list (string * string)) (c : config) :
  set_options so_handle opts defaults = Ok c ->
  inconstr c = smtc_arguments opts.
Proof.
  assert (Hgen : forall c0 c1,
            set_options so_handle opts c0 = Ok c1 ->
            inconstr c1 = inconstr c0 ++ smtc_arguments opts).
  { induction opts as [|[o a] rest IH]; intros c0 c1; cbn [set_options].
    - intros H. inversion H; subst. cbn. now rewrite app_nil_r.
    - destruct (set_option so_handle o a c0) as [c2 |] eqn:H2; [| discriminate].
      cbn [res_bind]. intros Hrest. rewrite (IH c2 c1 Hrest).
      destruct (set_option_fields so_handle o a c0 c2 H2) as [-> _].
      unfold smtc_arguments. cbn [omap list_omap fst snd].
      destruct (String.eqb o "--smtc"); cbn [app];
        now rewrite <- ?app_assoc, ?app_nil_r. }
  intros H. now rewrite (Hgen defaults c H).
Qed.

(** X11.  No option takes a mode back: once [-g], [-i], [--dump-all] or
    [--final-only] has been seen, the flag stays set through the rest of
    the command line; and the horizon is changed by [-t] only. *)
Theorem mode_flags_stay (so_handle : string -> string -> bool)
    (opts : list (string * string)) (c c' : config) :
  set_options so_handle opts c = Ok c' ->
  (gentrace c = true -> gentrace c' = true)
  /\ (tempind c = true -> tempind c' = true)
  /\ (dumpall c = true -> dumpall c' = true)
  /\ (final_only c = true -> final_only c' = true)
  /\ (Forall (fun oa : string * string => sets_horizon oa.1 = false) opts ->
      skip_steps c' = skip_steps c /\ step_size c' = step_size c
      /\ num_steps c' = num_steps c).
Proof.
  revert c c'. induction opts as [|[o a] rest IH]; intros c c';
    cbn [set_options].
  - intros H. inversion H; subst. now repeat split.
  - destruct (set_option so_handle o a c) as [c1 |] eqn:H1; [| discriminate].
    cbn [res_bind]. intros Hrest.
    destruct (set_option_fields so_handle o a c c1 H1)
      as (_ & Hg & Hi & Hd & Hf & Hh).
    destruct (IH c1 c' Hrest) as (Hg' & Hi' & Hd' & Hf' & Hh').
    do 4 (split; [auto |]).
    intros Hall. inversion Hall as [|x l Ho Hl]; subst.
    cbn [fst] in Ho. destruct (Hh Ho) as (E1 & E2 & E3).
    destruct (Hh' Hl) as (F1 & F2 & F3). repeat split; congruence.
Qed.

Lemma smtc_files_in_order_witness :
  exists c,
    set_options (fun _ _ => false)
      [("--smtc", "a.smtc"); ("-g", ""); ("--smtc", "b.smtc")] defaults = Ok c
    /\ inconstr c = ["a.smtc"; "b.smtc"].
Proof.
  destruct (set_options (fun _ _ => false)
              [("--smtc", "a.smtc"); ("-g", ""); ("--smtc", "b.smtc")] defaults)
    as [c |] eqn:Hc; [| vm_compute in Hc; discriminate Hc].
  exists c. split; [reflexivity |].
  exact (smtc_files_in_order (fun _ _ => false) _ c Hc).
Defined.

Lemma mode_flags_stay_witness :
  exists c',
    set_options (fun _ _ => false) [("-i", ""); ("--dump-vcd", "t.vcd")]
      (set_horizon 2 1 9 (Config 0 1 20 None None [] None true false false None
                            false None)) = Ok c'
    /\ gentrace c' = true /\ num_steps c' = 9.
Proof.
  destruct (set_options (fun _ _ => false) [("-i", ""); ("--dump-vcd", "t.vcd")]
              (set_horizon 2 1 9 (Config 0 1 20 None None [] None true false
                                    false None false None)))
    as [c' |] eqn:Hc; [| vm_compute in Hc; discriminate Hc].
  destruct (mode_flags_stay (fun _ _ => false) _ _ c' Hc)
    as (Hg & _ & _ & _ & Hh).
  exists c'. split; [reflexivity |]. split; [now apply Hg |].
  destruct Hh as (_ & _ & Hn); [| exact Hn].
  repeat constructor.
Defined.

(** ** The session of the temporal induction *)

Lemma declared_app (ev1 ev2 : list event) :
  declared (ev1 ++ ev2) = declared ev1 ++ declared ev2.
Proof. unfold declared. apply omap_app. Qed.

Lemma trace_events_plain (c : config) (a b : Z) (index : string) :
  Forall plain (trace_events c a b index).
Proof.
  unfold trace_events.
  destruct (vcdfile c), (vlogtbfile c), (outconstr c); repeat constructor.
Qed.

Lemma trace_events_declared (c : config) (a b : Z) (index : string) :
  declared (trace_events c a b index) = [].
Proof.
  unfold trace_events.
  destruct (vcdfile c), (vlogtbfile c), (outconstr c); reflexivity.
Qed.

Lemma induction_frame_plain (c : config) (step : Z) :
  Forall plain (induction_frame c step).
Proof.
  unfold induction_frame. destruct (step =? num_steps c);
    repeat constructor; cbn; tauto.
Qed.

Lemma induction_frame_declared (c : config) (step : Z) :
  declared (induction_frame c step) = [step].
Proof. unfold induction_frame. now destruct (step =? num_steps c). Qed.

Lemma induction_report_plain (c : config) (step : Z) :
  Forall plain (induction_report c step).
Proof.
  unfold induction_report.
  destruct (step =? 0); [| destruct (dumpall c); [| constructor]];
    apply Forall_app; (split; [repeat constructor | apply trace_events_plain]).
Qed.

Lemma induction_report_declared (c : config) (step : Z) :
  declared (induction_report c step) = [].
Proof.
  unfold induction_report.
  destruct (step =? 0); [| destruct (dumpall c); [| reflexivity]];
    rewrite declared_app, trace_events_declared; reflexivity.
Qed.

Lemma induction_loop_plain (answers : nat -> string) (c : config)
    (steps : list Z) :
  forall skip_counter rs n,
    Forall plain (events (induction_loop answers c steps skip_counter rs n)).
Proof.
  induction steps as [|step rest IH]; intros sc rs n; [constructor |].
  rewrite induction_loop_cons.
  pose proof (induction_frame_plain c step) as Hf.
  pose proof (induction_report_plain c step) as Hr.
  destruct (num_steps c - skip_steps c <? step);
    [| destruct (sc + 1 <? step_size c);
       [| destruct (String.eqb (answers n) "sat")]];
    cbv zeta; cbn [events fst snd app];
    (apply Forall_app_2; [exact Hf |]).
  - constructor; [exact Logic.I | apply IH].
  - constructor; [exact Logic.I | apply IH].
  - do 2 (constructor; [exact Logic.I |]).
    apply Forall_app_2; [exact Hr | apply IH].
  - repeat (constructor; [exact Logic.I |]). constructor.
Qed.

(** X12.  The temporal induction works in one solver scope and without the
    constraint files: it never writes [push] or [pop], and no command it
    writes mentions a user constraint; the scope depth is 0 throughout. *)
Theorem induction_plain_session (answers : nat -> string) (c : config)
    (n : nat) :
  let ev := events (induction answers c n) in
  Forall plain ev
  /\ forall k, scope_depth (take k ev) = 0.
Proof.
  cbv zeta. pose proof (induction_loop_plain answers c
                          (Py.range_down (num_steps c)) (step_size c) false n)
    as Hall.
  fold (induction answers c) in Hall. split; [exact Hall |].
  intros k. apply scope_depth_scopeless.
  apply (Forall_take _ k) in Hall. eapply Forall_impl; [exact Hall |].
  intros [] H; try exact Logic.I. now destruct H.
Qed.

Lemma induction_loop_declared (answers : nat -> string) (c : config)
    (steps : list Z) :
  forall skip_counter rs n,
    let r := induction_loop answers c steps skip_counter rs n in
    (exists k, declared (events r) = take k steps)
    /\ (value r = false -> declared (events r) = steps).
Proof.
  induction steps as [|step rest IH]; intros sc rs n; cbv zeta.
  - split; [now exists 0%nat | reflexivity].
  - rewrite induction_loop_cons.
    assert (Hgo : forall r : bool * list event * nat,
              ((exists k, declared (events r) = take k rest)
               /\ (value r = false -> declared (events r) = rest)) ->
              forall mid, declared mid = [] ->
              (exists k, declared (induction_frame c step ++ mid ++ events r)
                         = take k (step :: rest))
              /\ (value r = false ->
                  declared (induction_frame c step ++ mid ++ events r)
                  = step :: rest)).
    { intros r [[k Hk] Hv] mid Hmid.
      rewrite !declared_app, induction_frame_declared, Hmid. cbn [app].
      split.
      - exists (S k). cbn [take]. now rewrite Hk.
      - intros Hf. now rewrite (Hv Hf). }
    destruct (num_steps c - skip_steps c <? step);
      [| destruct (sc + 1 <? step_size c);
         [| destruct (String.eqb (answers n) "sat")]];
      cbv zeta; cbn [value events checks fst snd].
    + apply Hgo; [apply IH | reflexivity].
    + apply Hgo; [apply IH | reflexivity].
    + rewrite app_assoc with (l := [Print (MsgTryInduction step); CheckSat]).
      apply Hgo; [apply IH |].
      rewrite declared_app, induction_report_declared. reflexivity.
    + split; [| discriminate]. exists 1%nat.
      rewrite declared_app, induction_frame_declared. reflexivity.
Qed.

(** X13.  The induction declares its frames from [num_steps] downwards, one
    after the other and each once: the frames declared in a run are the
    first ones of [num_steps, ..., 1, 0], and all of them when the
    induction does not succeed. *)
Theorem induction_frames_descend (answers : nat -> string) (c : config)
    (n : nat) :
  let r := induction answers c n in
  (exists k, declared (events r) = take k (Py.range_down (num_steps c)))
  /\ (value r = false -> declared (events r) = Py.range_down (num_steps c)).
Proof.
  apply (induction_loop_declared answers c (Py.range_down (num_steps c))).
Qed.

Lemma induction_loop_all_skipped (answers : nat -> string) (c : config)
    (steps : list Z) :
  Forall (fun step => num_steps c - skip_steps c < step) steps ->
  forall skip_counter rs n,
    let r := induction_loop answers c steps skip_counter rs n in
    value r = rs /\ checks r = n /\ (CheckSat ∉ events r).
Proof.
  induction 1 as [|step rest Hs _ IH]; intros sc rs n; cbv zeta.
  - repeat split. cbn. apply not_elem_of_nil.
  - rewrite induction_loop_cons. apply Z.ltb_lt in Hs. rewrite Hs. cbv zeta.
    cbn [value events checks fst snd].
    destruct (IH sc rs n) as (Hv & Hc & He). repeat split; try assumption.
    rewrite !elem_of_app. intros [Hin | [Hin | Hin]].
    + unfold induction_frame in Hin.
      destruct (step =? num_steps c);
        repeat (apply elem_of_cons in Hin as [Hin | Hin]; [discriminate |]);
        now apply not_elem_of_nil in Hin.
    + apply elem_of_cons in Hin as [Hin | Hin]; [discriminate |].
      now apply not_elem_of_nil in Hin.
    + now apply He.
Qed.

Lemma range_down_bounds (hi i : Z) : i ∈ Py.range_down hi -> 0 <= i <= hi.
Proof.
  unfold Py.range_down, Py.range. intros H.
  apply list_elem_of_In, in_rev, list_elem_of_In, elem_of_seqZ in H. lia.
Qed.

(** X14.  With more steps to skip than the horizon has ([skip_steps] above
    [num_steps]; also with a negative [num_steps], where there is no step at
    all) the induction skips every step: the solver is never asked, and the
    run ends as failed, with exit status 1. *)
Theorem induction_all_skipped (answers : nat -> string) (c : config)
    (db : Constr.state) (fuel n : nat) :
  tempind c = true ->
  num_steps c < skip_steps c \/ num_steps c < 0 ->
  let r := drive answers c db fuel n in
  value r = Some 1 /\ checks r = n /\ (CheckSat ∉ events r)
  /\ (Print (MsgStatus false) ∈ events r).
Proof.
  intros Hi Hskip. cbv zeta.
  destruct (induction_loop_all_skipped answers c (Py.range_down (num_steps c)))
    with (skip_counter := step_size c) (rs := false) (n := n)
    as (Hv & Hc & He).
  { apply Forall_forall. intros i Hin. apply range_down_bounds in Hin. lia. }
  fold (induction answers c) in Hv, Hc, He.
  rewrite drive_run, Hi. cbv zeta.
  cbn [value events checks fst snd]. rewrite Hv, Hc.
  cbn [value events checks fst snd]. repeat split.
  - unfold closing. rewrite elem_of_app.
    intros [Hin | Hin]; [now apply He |].
    repeat (apply elem_of_cons in Hin as [Hin | Hin]; [discriminate |]).
    now apply not_elem_of_nil in Hin.
  - unfold closing. rewrite elem_of_app. right.
    repeat constructor.
Qed.

Lemma induction_frame_writes (c : config) (step : Z) (m : message) :
  Print m ∉ induction_frame c step.
Proof.
  unfold induction_frame. intros Hin.
  destruct (step =? num_steps c);
    repeat (apply elem_of_cons in Hin as [Hin | Hin]; [discriminate |]);
    now apply not_elem_of_nil in Hin.
Qed.

Lemma trace_events_writes (c : config) (a b : Z) (index : string)
    (m : message) :
  Print m ∉ trace_events c a b index.
Proof.
  unfold trace_events. intros Hin.
  destruct (vcdfile c), (vlogtbfile c), (outconstr c);
    repeat (apply elem_of_cons in Hin as [Hin | Hin]; [discriminate |]);
    now apply not_elem_of_nil in Hin.
Qed.

Lemma induction_report_prints (c : config) (step : Z) (m : message) :
  Print m ∈ induction_report c step -> m = MsgInductionFailed /\ step = 0.
Proof.
  unfold induction_report. intros Hin.
  destruct (step =? 0) eqn:H0.
  - apply elem_of_app in Hin as [Hin | Hin];
      [| now apply trace_events_writes in Hin].
    apply elem_of_cons in Hin as [Hin | Hin].
    + inversion Hin. split; [reflexivity | lia].
    + repeat (apply elem_of_cons in Hin as [Hin | Hin]; [discriminate |]).
      now apply not_elem_of_nil in Hin.
  - destruct (dumpall c); [| now apply not_elem_of_nil in Hin].
    apply elem_of_app in Hin as [Hin | Hin];
      [| now apply trace_events_writes in Hin].
    repeat (apply elem_of_cons in Hin as [Hin | Hin]; [discriminate |]).
    now apply not_elem_of_nil in Hin.
Qed.

Lemma range_down_S (k : nat) :
  Py.range_down (Z.of_nat k) = Z.of_nat k :: Py.range_down (Z.of_nat k - 1).
Proof.
  unfold Py.range_down, Py.range.
  replace (Z.of_nat k + 1 - 0) with (Z.of_nat (S k)) by lia.
  replace (Z.of_nat k - 1 + 1 - 0) with (Z.of_nat k) by lia.
  rewrite seqZ_S, rev_app_distr. cbn [rev app]. reflexivity.
Qed.

Lemma range_down_negative (hi : Z) : hi < 0 -> Py.range_down hi = [].
Proof.
  intros H. unfold Py.range_down, Py.range.
  destruct (hi + 1 - 0) eqn:E; try lia; reflexivity.
Qed.

Lemma induction_loop_failed (answers : nat -> string) (c : config) (k : nat) :
  forall skip_counter n,
    let r := induction_loop answers c (Py.range_down (Z.of_nat k - 1))
               skip_counter false n in
    Print MsgInductionFailed ∈ events r ->
    value r = false /\ (Print (MsgTryInduction 0) ∈ events r).
Proof.
  induction k as [|k IH]; intros sc n; cbv zeta.
  - rewrite range_down_negative by lia. cbn. intros Hin.
    now apply not_elem_of_nil in Hin.
  - replace (Z.of_nat (S k) - 1) with (Z.of_nat k) by lia.
    rewrite range_down_S, induction_loop_cons.
    destruct (num_steps c - skip_steps c <? Z.of_nat k);
      [| destruct (sc + 1 <? step_size c);
         [| destruct (String.eqb (answers n) "sat")]];
      cbv zeta; cbn [value events checks fst snd]; rewrite !elem_of_app.
    + intros [Hin | [Hin | Hin]].
      * now apply induction_frame_writes in Hin.
      * apply elem_of_cons in Hin as [Hin | Hin]; [discriminate |].
        now apply not_elem_of_nil in Hin.
      * destruct (IH sc n Hin) as [Hv Ht]. split; [exact Hv |]. auto.
    + intros [Hin | [Hin | Hin]].
      * now apply induction_frame_writes in Hin.
      * apply elem_of_cons in Hin as [Hin | Hin]; [discriminate |].
        now apply not_elem_of_nil in Hin.
      * destruct (IH (sc + 1) n Hin) as [Hv Ht]. split; [exact Hv |]. auto.
    + intros [Hin | [Hin | [Hin | Hin]]].
      * now apply induction_frame_writes in Hin.
      * repeat (apply elem_of_cons in Hin as [Hin | Hin]; [discriminate |]).
        now apply not_elem_of_nil in Hin.
      * apply induction_report_prints in Hin as [_ H0].
        assert (Hk : k = 0%nat) by lia. subst k.
        rewrite range_down_negative by lia. cbn [induction_loop ret value fst].
        split; [reflexivity |]. right. left. now left.
      * destruct (IH 0 (S n) Hin) as [Hv Ht]. split; [exact Hv |]. auto.
    + intros [Hin | Hin].
      * now apply induction_frame_writes in Hin.
      * repeat (apply elem_of_cons in Hin as [Hin | Hin]; [discriminate |]).
        now apply not_elem_of_nil in Hin.
Qed.

Lemma induction_loop_all_sat (answers : nat -> string) (c : config)
    (steps : list Z) :
  (forall k, answers k = "sat") ->
  forall skip_counter n,
    let r := induction_loop answers c steps skip_counter false n in
    value r = false
    /\ (Print (MsgTryInduction 0) ∈ events r ->
        Print MsgInductionFailed ∈ events r).
Proof.
  intros Hsat. induction steps as [|step rest IH]; intros sc n; cbv zeta.
  - split; [reflexivity |]. cbn. intros Hin. now apply not_elem_of_nil in Hin.
  - rewrite induction_loop_cons, Hsat. change (String.eqb "sat" "sat") with true.
    destruct (num_steps c - skip_steps c <? step);
      [| destruct (sc + 1 <? step_size c)];
      cbv zeta; cbn [value events checks fst snd]; rewrite !elem_of_app.
    + destruct (IH sc n) as [Hv Ht]. split; [exact Hv |].
      intros [Hin | [Hin | Hin]]; [| | auto].
      * now apply induction_frame_writes in Hin.
      * apply elem_of_cons in Hin as [Hin | Hin]; [discriminate |].
        now apply not_elem_of_nil in Hin.
    + destruct (IH (sc + 1) n) as [Hv Ht]. split; [exact Hv |].
      intros [Hin | [Hin | Hin]]; [| | auto].
      * now apply induction_frame_writes in Hin.
      * apply elem_of_cons in Hin as [Hin | Hin]; [discriminate |].
        now apply not_elem_of_nil in Hin.
    + destruct (IH 0 (S n)) as [Hv Ht]. split; [exact Hv |].
      intros [Hin | [Hin | [Hin | Hin]]]; [| | | auto].
      * now apply induction_frame_writes in Hin.
      * apply elem_of_cons in Hin as [Hin | Hin].
        -- inversion Hin; subst step. right. right. left.
           unfold induction_report. change (0 =? 0) with true.
           apply elem_of_app. left. now left.
        -- apply elem_of_cons in Hin as [Hin | Hin]; [discriminate |].
           now apply not_elem_of_nil in Hin.
      * apply induction_report_prints in Hin as [Hm _]. discriminate Hm.
Qed.

(** X15.  "Temporal induction failed!" is printed only after step 0 has
    been tried, and then the run fails.  A run in which the solver answers
    ["sat"] every time fails in any case, but it prints the message (and
    the counterexample) only if the pacing by [step_size] lets step 0 be
    tried: otherwise it fails with the status line alone. *)
Theorem induction_failure_report (answers : nat -> string) (c : config)
    (n : nat) :
  let r := induction answers c n in
  (Print MsgInductionFailed ∈ events r ->
   value r = false /\ (Print (MsgTryInduction 0) ∈ events r))
  /\ ((forall k, answers k = "sat") ->
      value r = false
      /\ (Print (MsgTryInduction 0) ∈ events r <->
          Print MsgInductionFailed ∈ events r)).
Proof.
  cbv zeta. unfold induction.
  assert (Hfail : Print MsgInductionFailed
                  ∈ events (induction_loop answers c
                              (Py.range_down (num_steps c)) (step_size c)
                              false n) ->
                  value (induction_loop answers c
                           (Py.range_down (num_steps c)) (step_size c) false n)
                  = false
                  /\ (Print (MsgTryInduction 0)
                      ∈ events (induction_loop answers c
                                  (Py.range_down (num_steps c)) (step_size c)
                                  false n))).
  { destruct (Z_lt_le_dec (num_steps c) 0) as [Hneg | Hpos].
    - rewrite range_down_negative by exact Hneg. cbn. intros Hin.
      now apply not_elem_of_nil in Hin.
    - pose proof (induction_loop_failed answers c
                    (S (Z.to_nat (num_steps c))) (step_size c) n) as H.
      cbv zeta in H.
      replace (Z.of_nat (S (Z.to_nat (num_steps c))) - 1)
        with (num_steps c) in H by lia.
      exact H. }
  split; [exact Hfail |].
  intros Hsat.
  destruct (induction_loop_all_sat answers c (Py.range_down (num_steps c)) Hsat
              (step_size c) n) as [Hv Ht].
  split; [exact Hv |]. split; [exact Ht |]. intros Hin. now apply Hfail.
Qed.

(** ** Instances of the induction properties *)

Lemma induction_plain_session_witness :
  scope_depth
    (take 7 (events (induction (fun _ => "sat") (set_horizon 0 1 2 defaults)
                       0%nat))) = 0.
Proof.
  exact (proj2 (induction_plain_session (fun _ => "sat")
                  (set_horizon 0 1 2 defaults) 0%nat) 7%nat).
Defined.

Lemma induction_frames_descend_witness :
  declared (events (induction (fun _ => "sat") (set_horizon 0 1 2 defaults)
                      0%nat))
  = [2; 1; 0].
Proof.
  apply (proj2 (induction_frames_descend (fun _ => "sat")
                  (set_horizon 0 1 2 defaults) 0%nat)).
  vm_compute. reflexivity.
Defined.

Lemma induction_all_skipped_witness :
  value (drive (fun _ => "unsat")
           (Config 5 1 3 None None [] None false true false None false None)
           Constr.init 0 0%nat) = Some 1.
Proof.
  apply (induction_all_skipped (fun _ => "unsat")
           (Config 5 1 3 None None [] None false true false None false None)
           Constr.init 0 0%nat eq_refl).
  left. cbn. lia.
Defined.

Lemma induction_failure_report_witness :
  value (induction (fun _ => "sat") (set_horizon 0 2 1 defaults) 0%nat) = false
  /\ (Print MsgInductionFailed
      ∉ events (induction (fun _ => "sat") (set_horizon 0 2 1 defaults) 0%nat)).
Proof.
  destruct (induction_failure_report (fun _ => "sat")
              (set_horizon 0 2 1 defaults) 0%nat) as [_ Hsat].
  destruct (Hsat (fun _ => eq_refl)) as [Hv Hiff].
  split; [exact Hv |]. intros Hin. apply Hiff in Hin.
  revert Hin.
  match goal with
  | |- ?P -> False => change (~ P); refine (@bool_decide_unpack (~ P) _ _)
  end.
  vm_compute. exact Logic.I.
Defined.

(** ** The session of the bounded check *)

Lemma trace_events_window (c : config) (a b : Z) (index : string) :
  Forall window_event (trace_events c a b index).
Proof.
  unfold trace_events.
  destruct (vcdfile c), (vlogtbfile c), (outconstr c); repeat constructor.
Qed.

Lemma commit_events_window (step last : Z) :
  Forall window_event (commit_events step last).
Proof.
  unfold commit_events. induction (Py.range step (last + 1)) as [|i l IH];
    [constructor |].
  cbn [mbind list_bind app]. repeat (constructor; [exact Logic.I |]). exact IH.
Qed.

Lemma failure_report_window (c : config) (step last : Z) :
  Forall window_event (failure_report c step last).
Proof.
  unfold failure_report. do 2 (constructor; [exact Logic.I |]).
  apply Forall_app_2; [| apply trace_events_window].
  induction (Py.range step (last + 1)) as [|i l IH]; constructor;
    [exact Logic.I | exact IH].
Qed.

Lemma final_report_window (c : config) (i : Z) :
  Forall window_event (final_report c i).
Proof.
  unfold final_report. do 3 (constructor; [exact Logic.I |]).
  apply trace_events_window.
Qed.

Lemma bmc_window_events (answers : nat -> string) (c : config)
    (db : Constr.state) (step last : Z) (rs : bool) (n : nat) :
  Forall window_event (events (bmc_window answers c db step last rs n)).
Proof.
  destruct (gentrace c) eqn:Hg.
  - rewrite bmc_window_gentrace by exact Hg.
    destruct (String.eqb (answers n) "sat"); cbn [events fst snd];
      (apply Forall_app_2; [apply commit_events_window |]).
    + do 2 (constructor; [exact Logic.I |]).
      destruct (dumpall c); [| constructor].
      constructor; [exact Logic.I | apply trace_events_window].
    + repeat (constructor; [exact Logic.I |]). constructor.
  - rewrite bmc_window_check by exact Hg. cbv zeta.
    assert (H1 : Forall window_event
                   (events (check_asserts answers c step last rs n))).
    { rewrite check_asserts_run. destruct (final_only c); [constructor |].
      destruct (String.eqb (answers n) "sat"); cbn [events fst snd].
      - do 4 (constructor; [exact Logic.I |]). apply failure_report_window.
      - repeat (constructor; [exact Logic.I |]). constructor. }
    destruct (value (check_asserts answers c step last rs n)) as [[] rs1];
      [| exact H1].
    destruct (Constr.constr_final_start db) as [fs |]; cbn [events fst snd].
    + apply Forall_app_2; [exact H1 |].
      apply Forall_app_2; [apply commit_events_window |].
      apply final_checks_events. intros i _ _.
      split; [repeat constructor |]. split; [exact Logic.I |].
      apply final_report_window.
    + apply Forall_app_2; [exact H1 | apply commit_events_window].
Qed.

Lemma declared_window (ev : list event) :
  Forall window_event ev -> declared ev = [].
Proof.
  induction 1 as [|e ev He _ IH]; [reflexivity |].
  unfold declared in *. cbn [omap list_omap].
  destruct e as [| cmd | | | | | | | | | |]; try exact IH.
  destruct cmd; try exact IH. destruct He.
Qed.

Lemma range_cons (lo hi : Z) :
  lo < hi -> Py.range lo hi = lo :: Py.range (lo + 1) hi.
Proof.
  intros H. unfold Py.range.
  replace (hi - lo) with (Z.succ (hi - (lo + 1))) by lia.
  rewrite seqZ_cons by lia. f_equal. f_equal; lia.
Qed.

Lemma extension_events_declared (i : Z) : declared (extension_events i) = [i].
Proof. reflexivity. Qed.

Lemma extend_events_declared (c : config) (step : Z) (m : nat) :
  forall a,
    declared (extend_events c step (seqZ a (Z.of_nat m)))
    = Py.range (step + a) (Z.min (step + a + Z.of_nat m) (num_steps c)).
Proof.
  induction m as [|m IH]; intros a.
  - cbn. symmetry. apply range_empty. lia.
  - rewrite seqZ_cons by lia. unfold extend_events. cbn [mbind list_bind].
    fold (extend_events c step (seqZ (Z.succ a) (Z.pred (Z.of_nat (S m))))).
    replace (Z.pred (Z.of_nat (S m))) with (Z.of_nat m) by lia.
    rewrite declared_app, IH.
    destruct (step + a <? num_steps c) eqn:Hlt.
    + apply Z.ltb_lt in Hlt. rewrite extension_events_declared. cbn [app].
      rewrite (range_cons (step + a)) by lia. f_equal. f_equal; lia.
    + apply Z.ltb_ge in Hlt. cbn [declared omap list_omap app].
      rewrite !range_empty by lia. reflexivity.
Qed.

Lemma frame_events_declared (step : Z) : declared (frame_events step) = [step].
Proof. unfold frame_events. now destruct (step =? 0). Qed.

Lemma skip_events_declared (c : config) (step : Z) :
  declared (skip_events c step) = [].
Proof. unfold skip_events. now destruct (assumed_skipped c step). Qed.

Lemma window_events_declared (c : config) (step : Z) :
  step < num_steps c ->
  1 <= step_size c ->
  declared (window_events c step)
  = Py.range step (Z.min (step + step_size c) (num_steps c)).
Proof.
  intros Hlt Hsz. unfold window_events.
  rewrite declared_app, frame_events_declared. unfold Py.range at 1.
  replace (step_size c - 1) with (Z.of_nat (Z.to_nat (step_size c - 1))) by lia.
  rewrite extend_events_declared. cbn [app].
  rewrite (range_cons step) by lia. f_equal. f_equal. lia.
Qed.

Lemma bmc_loop_declared (answers : nat -> string) (c : config)
    (db : Constr.state) :
  1 <= step_size c ->
  forall fuel step n,
    let r := bmc_loop answers c db fuel step true n in
    (exists k, step <= k <= Z.max step (num_steps c)
               /\ declared (events r) = Py.range step k)
    /\ (value r = Some true ->
        declared (events r) = Py.range step (num_steps c)).
Proof.
  intros Hsz. induction fuel as [|fuel IH]; intros step n; cbv zeta.
  - cbn. split; [| discriminate]. exists step. split; [lia |].
    symmetry. apply range_empty. lia.
  - rewrite bmc_loop_S. destruct (step <? num_steps c) eqn:Hlt.
    2:{ apply Z.ltb_ge in Hlt. cbn [value events fst snd]. split.
        - exists step. split; [lia |]. symmetry. apply range_empty. lia.
        - intros _. symmetry. now apply range_empty. }
    apply Z.ltb_lt in Hlt. cbv zeta.
    destruct (Z.lt_ge_cases step (skip_steps c)) as [Hskip | Hskip].
    + rewrite bmc_iteration_skip by exact Hskip.
      cbn [value events checks fst snd].
      destruct (IH (step + 1) n) as [(k & Hk & Hd) Hpass].
      rewrite !declared_app, frame_events_declared, skip_events_declared.
      cbn [app]. split.
      * exists k. split; [lia |]. rewrite Hd.
        symmetry. apply range_cons. lia.
      * intros Hv. rewrite (Hpass Hv). symmetry. now apply range_cons.
    + rewrite bmc_iteration_window by exact Hskip. cbv zeta.
      pose proof (bmc_window_events answers c db step (window_last c step)
                    true n) as Hw.
      apply declared_window in Hw.
      destruct (bmc_window_verdict answers c db step (window_last c step) n)
        as [[Hv _] | [Hv _]]; cbv zeta in Hv;
        cbn [value events checks fst snd]; rewrite Hv;
        cbn [value events checks fst snd].
      * destruct (IH (step + step_size c)
                    (checks (bmc_window answers c db step (window_last c step)
                               true n))) as [(k & Hk & Hd) Hpass].
        rewrite !declared_app, (window_events_declared c step Hlt Hsz), Hw.
        rewrite app_nil_r. destruct (Z.le_gt_cases (step + step_size c) (num_steps c))
          as [Hin | Hout].
        -- rewrite Z.min_l by lia. split.
           ++ exists k. split; [lia |]. rewrite Hd. apply range_split. lia.
           ++ intros Hvv. rewrite (Hpass Hvv). apply range_split. lia.
        -- rewrite Z.min_r by lia. rewrite Hd.
           assert (Hk' : k = step + step_size c) by lia. subst k.
           rewrite (range_empty (step + step_size c)) by lia.
           rewrite app_nil_r. split; [| reflexivity].
           exists (num_steps c). split; [lia | reflexivity].
      * rewrite !declared_app, (window_events_declared c step Hlt Hsz), Hw.
        rewrite !app_nil_r. split; [| discriminate].
        exists (Z.min (step + step_size c) (num_steps c)).
        split; [lia | reflexivity].
Qed.

(** X16.  With a step size of at least 1 the bounded check declares the
    frames [s0, s1, ...] in increasing order, without a gap, each once and
    none at or beyond [num_steps]; a run that passes has declared exactly
    [s0 .. s(num_steps - 1)]. *)
Theorem bmc_frames_ascend (answers : nat -> string) (c : config)
    (db : Constr.state) (fuel n : nat) :
  1 <= step_size c ->
  let r := bmc_loop answers c db fuel 0 true n in
  (exists k, 0 <= k <= Z.max 0 (num_steps c)
             /\ declared (events r) = Py.range 0 k)
  /\ (value r = Some true -> declared (events r) = Py.range 0 (num_steps c)).
Proof.
  intros Hsz. apply (bmc_loop_declared answers c db Hsz fuel 0 n).
Qed.

Lemma framed_mono (ev ev' : list event) (i : Z) :
  ev ⊆ ev' -> framed ev i -> framed ev' i.
Proof.
  intros Hsub (H1 & H2 & H3 & H4). repeat split; try (now apply Hsub).
  destruct H4 as [H4 | (H0 & H4 & H5)]; [left | right]; auto.
Qed.

Lemma window_event_declares (ev : list event) (i : Z) :
  Forall window_event ev -> Write (DeclareFun i) ∉ ev.
Proof.
  intros Hall Hin. rewrite Forall_forall in Hall. exact (Hall _ Hin).
Qed.

Lemma frame_events_framed (step i : Z) :
  Write (DeclareFun i) ∈ frame_events step -> framed (frame_events step) i.
Proof.
  unfold frame_events. intros Hin.
  assert (Hi : i = step).
  { apply elem_of_app in Hin as [Hin | Hin].
    - apply elem_of_cons in Hin as [Hin | Hin]; [now inversion Hin |].
      repeat (apply elem_of_cons in Hin as [Hin | Hin]; [discriminate |]).
      now apply not_elem_of_nil in Hin.
    - destruct (step =? 0);
        repeat (apply elem_of_cons in Hin as [Hin | Hin]; [discriminate |]);
        now apply not_elem_of_nil in Hin. }
  subst i. unfold framed. rewrite !elem_of_app.
  split; [left; repeat constructor |].
  split; [left; repeat constructor |].
  split; [left; repeat constructor |].
  destruct (step =? 0) eqn:H0.
  - right. apply Z.eqb_eq in H0. split; [exact H0 |].
    split; right; repeat constructor.
  - left. right. repeat constructor.
Qed.

Lemma extend_events_framed (c : config) (step i : Z) (offsets : list Z) :
  Write (DeclareFun i) ∈ extend_events c step offsets ->
  framed (extend_events c step offsets) i.
Proof.
  unfold extend_events. intros Hin.
  apply list_elem_of_bind in Hin as (j & Hin & Hj).
  apply framed_mono
    with (ev := if step + j <? num_steps c then extension_events (step + j)
                else []).
  { intros e He. apply list_elem_of_bind. now exists j. }
  destruct (step + j <? num_steps c); [| now apply not_elem_of_nil in Hin].
  unfold extension_events in *.
  apply elem_of_cons in Hin as [Hin | Hin].
  - inversion Hin; subst i. unfold framed.
    split; [repeat constructor |]. split; [repeat constructor |].
    split; [repeat constructor |]. left. repeat constructor.
  - repeat (apply elem_of_cons in Hin as [Hin | Hin]; [discriminate |]).
    now apply not_elem_of_nil in Hin.
Qed.

Lemma bmc_iteration_framed (answers : nat -> string) (c : config)
    (db : Constr.state) (step : Z) (rs : bool) (n : nat) (i : Z) :
  Write (DeclareFun i) ∈ events (bmc_iteration answers c db step rs n) ->
  framed (events (bmc_iteration answers c db step rs n)) i.
Proof.
  destruct (Z.lt_ge_cases step (skip_steps c)) as [Hskip | Hskip].
  - rewrite bmc_iteration_skip by exact Hskip. cbn [events fst snd].
    intros Hin. apply elem_of_app in Hin as [Hin | Hin].
    + eapply framed_mono; [| apply frame_events_framed, Hin].
      intros e He. apply elem_of_app. now left.
    + unfold skip_events in Hin.
      destruct (assumed_skipped c step);
        repeat (apply elem_of_cons in Hin as [Hin | Hin]; [discriminate |]);
        now apply not_elem_of_nil in Hin.
  - rewrite bmc_iteration_window by exact Hskip. cbv zeta.
    cbn [events fst snd]. unfold window_events. intros Hin.
    rewrite !elem_of_app in Hin. destruct Hin as [[Hin | Hin] | Hin].
    + eapply framed_mono; [| apply frame_events_framed, Hin].
      intros e He. rewrite !elem_of_app. now left; left.
    + eapply framed_mono; [| apply extend_events_framed, Hin].
      intros e He. rewrite !elem_of_app. now left; right.
    + exfalso. revert Hin. apply window_event_declares, bmc_window_events.
Qed.

Lemma bmc_loop_framed (answers : nat -> string) (c : config)
    (db : Constr.state) (i : Z) :
  forall fuel step rs n,
    Write (DeclareFun i) ∈ events (bmc_loop answers c db fuel step rs n) ->
    framed (events (bmc_loop answers c db fuel step rs n)) i.
Proof.
  induction fuel as [|fuel IH]; intros step rs n.
  - cbn. intros Hin. now apply not_elem_of_nil in Hin.
  - rewrite bmc_loop_S. destruct (step <? num_steps c).
    2:{ cbn. intros Hin. now apply not_elem_of_nil in Hin. }
    cbv zeta.
    pose proof (bmc_iteration_framed answers c db step rs n i) as Hit.
    destruct (value (bmc_iteration answers c db step rs n))
      as [[[] step'] rs']; cbn [events fst snd].
    + intros Hin. apply elem_of_app in Hin as [Hin | Hin].
      * eapply framed_mono; [| apply Hit, Hin].
        intros e He. apply elem_of_app. now left.
      * eapply framed_mono; [| apply IH, Hin].
        intros e He. apply elem_of_app. now right.
    + exact Hit.
Qed.

(** X17.  No frame is declared bare: whenever the bounded check declares a
    frame [s_i], at the cursor or in the extension of a window, it also
    asserts the module's [_u] and [_h] for it and the user assumptions of
    step [i], and ties it to the frame before by the transition relation
    or, for the frame of step 0 at the cursor, to the initial state. *)
Theorem declared_frame_complete (answers : nat -> string) (c : config)
    (db : Constr.state) (fuel : nat) (n : nat) (i : Z) :
  let ev := events (bmc_loop answers c db fuel 0 true n) in
  Write (DeclareFun i) ∈ ev -> framed ev i.
Proof. apply bmc_loop_framed. Qed.

(** ** The scope the session ends in *)

Lemma commit_events_scopeless (step last : Z) :
  Forall scopeless (commit_events step last).
Proof.
  unfold commit_events. induction (Py.range step (last + 1)) as [|i l IH];
    [constructor |].
  cbn [mbind list_bind app]. repeat (constructor; [exact Logic.I |]). exact IH.
Qed.

Lemma window_events_scopeless (c : config) (step : Z) :
  Forall scopeless (window_events c step).
Proof.
  unfold window_events. apply Forall_app_2.
  - unfold frame_events. destruct (step =? 0); repeat constructor.
  - unfold extend_events. induction (Py.range 1 (step_size c)) as [|i l IH];
      [constructor |].
    cbn [mbind list_bind]. apply Forall_app_2; [| exact IH].
    destruct (step + i <? num_steps c); repeat constructor.
Qed.

Lemma final_checks_depth (answers : nat -> string) (c : config) (fs : Z)
    (l : list Z) :
  forall n,
    let r := final_checks answers c fs l true n in
    scope_depth (events r) = if value r then 0 else 1.
Proof.
  induction l as [|i l IH]; intros n; cbv zeta; [reflexivity |].
  rewrite final_checks_cons. destruct (i <? fs); [apply IH |].
  destruct (String.eqb (answers n) "sat"); cbv zeta;
    cbn [value events checks fst snd].
  - rewrite scope_depth_app, final_report_depth. reflexivity.
  - rewrite scope_depth_app. rewrite (IH (S n)).
    cbn. destruct (value (final_checks answers c fs l true (S n))); lia.
Qed.

Lemma bmc_window_depth (answers : nat -> string) (c : config)
    (db : Constr.state) (step last : Z) (n : nat) :
  let r := bmc_window answers c db step last true n in
  scope_depth (events r)
  = match value r with
    | (Continue, _) => 0
    | (Break, _) => if gentrace c then 0 else 1
    end.
Proof.
  cbv zeta. pose proof (scope_depth_scopeless _ (commit_events_scopeless step last))
    as Hcommit.
  destruct (gentrace c) eqn:Hg.
  - rewrite bmc_window_gentrace by exact Hg.
    destruct (String.eqb (answers n) "sat"); cbn [value events fst snd];
      rewrite scope_depth_app, Hcommit; [| reflexivity].
    apply scope_depth_scopeless. do 2 (constructor; [exact Logic.I |]).
    destruct (dumpall c); [| constructor].
    constructor; [exact Logic.I | apply trace_events_scopeless].
  - rewrite bmc_window_check by exact Hg. cbv zeta.
    rewrite check_asserts_run.
    destruct (final_only c);
      [| destruct (String.eqb (answers n) "sat")];
      cbn [value events checks fst snd].
    + destruct (Constr.constr_final_start db) as [fs |];
        cbn [value events checks fst snd app]; [| exact Hcommit].
      rewrite scope_depth_app, Hcommit, final_checks_depth.
      destruct (value (final_checks answers c fs (Py.range step (last + 1))
                         true n)); reflexivity.
    + rewrite scope_depth_app, failure_report_depth. reflexivity.
    + destruct (Constr.constr_final_start db) as [fs |];
        cbn [value events checks fst snd].
      * rewrite !scope_depth_app, Hcommit, final_checks_depth.
        destruct (value (final_checks answers c fs (Py.range step (last + 1))
                           true (S n))); reflexivity.
      * rewrite !scope_depth_app, Hcommit. reflexivity.
Qed.

Lemma bmc_loop_depth (answers : nat -> string) (c : config)
    (db : Constr.state) :
  forall fuel step n,
    let r := bmc_loop answers c db fuel step true n in
    scope_depth (events r)
    = match value r with
      | Some false => if gentrace c then 0 else 1
      | _ => 0
      end.
Proof.
  induction fuel as [|fuel IH]; intros step n; cbv zeta; [reflexivity |].
  rewrite bmc_loop_S. destruct (step <? num_steps c); [| reflexivity].
  cbv zeta. destruct (Z.lt_ge_cases step (skip_steps c)) as [Hskip | Hskip].
  - rewrite bmc_iteration_skip by exact Hskip.
    cbn [value events checks fst snd]. rewrite scope_depth_app, IH.
    rewrite (scope_depth_scopeless (frame_events step ++ skip_events c step));
      [reflexivity |].
    apply Forall_app_2.
    + unfold frame_events. destruct (step =? 0); repeat constructor.
    + unfold skip_events. destruct (assumed_skipped c step); repeat constructor.
  - rewrite bmc_iteration_window by exact Hskip. cbv zeta.
    pose proof (bmc_window_depth answers c db step (window_last c step) n)
      as Hd. cbv zeta in Hd.
    pose proof (scope_depth_scopeless _ (window_events_scopeless c step))
      as Hw.
    destruct (bmc_window_verdict answers c db step (window_last c step) n)
      as [[Hv _] | [Hv _]]; cbv zeta in Hv;
      cbn [value events checks fst snd]; rewrite Hv in *;
      cbn [value events checks fst snd];
      rewrite !scope_depth_app, Hw, Hd, ?IH; reflexivity.
Qed.

(** X18.  In a bounded check the solver is left in scope 0 by every run
    that passes and by every trace generation; a check that fails leaves it
    one scope deep, inside the obligation that failed: the scope depth at
    [(exit)] is the exit status of the process. *)
Theorem exit_scope_depth (answers : nat -> string) (c : config)
    (db : Constr.state) (fuel n : nat) (code : Z) :
  tempind c = false ->
  let r := drive answers c db fuel n in
  value r = Some code ->
  scope_depth (events r) = if gentrace c then 0 else code.
Proof.
  intros Hi. cbv zeta. rewrite drive_run, Hi. cbv zeta. rewrite bmc_run.
  cbv zeta. pose proof (bmc_loop_depth answers c db fuel 0 n) as Hd.
  cbv zeta in Hd.
  destruct (value (bmc_loop answers c db fuel 0 true n)) as [rs |];
    cbn [value events checks fst snd]; [| discriminate].
  intros H. inversion H; subst code; clear H.
  rewrite !scope_depth_app, Hd.
  assert (Hdump : scope_depth
                    (if gentrace c
                     then PrintAnyconsts 0 :: trace_events c 0 (num_steps c) "%"
                     else []) = 0).
  { apply scope_depth_scopeless. destruct (gentrace c); [| constructor].
    constructor; [exact Logic.I | apply trace_events_scopeless]. }
  rewrite Hdump. unfold closing. destruct rs, (gentrace c); reflexivity.
Qed.

(** ** Horizons the loop is not made for *)

Lemma stops_never (go : string -> bool) (answers : nat -> string) (n n' : nat) :
  (forall k, go (answers k) = true) -> ~ stops go answers n n'.
Proof. intros Hgo (_ & _ & Hstop). rewrite Hgo in Hstop. discriminate. Qed.

Lemma bmc_loop_diverges (answers : nat -> string) (c : config)
    (db : Constr.state) :
  step_size c <= 0 ->
  skip_steps c < num_steps c ->
  (forall k, bmc_go c (answers k) = true) ->
  forall fuel step n,
    step < num_steps c ->
    value (bmc_loop answers c db fuel step true n) = None.
Proof.
  intros Hsz Hskip Hgo. induction fuel as [|fuel IH]; intros step n Hlt;
    [reflexivity |].
  rewrite bmc_loop_S. apply Z.ltb_lt in Hlt as Hb. rewrite Hb. cbv zeta.
  destruct (Z.lt_ge_cases step (skip_steps c)) as [Hs | Hs].
  - rewrite bmc_iteration_skip by exact Hs. cbn [value events checks fst snd].
    apply IH. lia.
  - rewrite bmc_iteration_window by exact Hs. cbv zeta.
    destruct (bmc_window_verdict answers c db step (window_last c step) n)
      as [[Hv _] | [_ Hstop]].
    + cbv zeta in Hv. cbn [value events checks fst snd]. rewrite Hv.
      cbn [value events checks fst snd]. apply IH. lia.
    + exfalso. revert Hstop. now apply stops_never.
Qed.

(** X19.  The loop takes its step size as it is given.  With a step size of
    0 or below ([-t 0:0:N]), at least one step to check and a solver that
    never ends the run (never ["sat"] in a check, always ["sat"] in a trace
    generation) the cursor never reaches [num_steps]: the loop does not
    end, however many iterations it is given. *)
Theorem nonpositive_step_size_loops (answers : nat -> string) (c : config)
    (db : Constr.state) (fuel n : nat) :
  tempind c = false ->
  step_size c <= 0 ->
  skip_steps c < num_steps c ->
  0 < num_steps c ->
  (forall k, bmc_go c (answers k) = true) ->
  value (drive answers c db fuel n) = None.
Proof.
  intros Hi Hsz Hskip Hpos Hgo. rewrite drive_run, Hi. cbv zeta.
  rewrite bmc_run. cbv zeta.
  rewrite (bmc_loop_diverges answers c db Hsz Hskip Hgo fuel 0 n Hpos).
  reflexivity.
Qed.



(** ** What the trace generation leaves out *)

Lemma trace_events_solving (c : config) (a b : Z) (index : string) :
  Forall solving_event (trace_events c a b index).
Proof.
  unfold trace_events.
  destruct (vcdfile c), (vlogtbfile c), (outconstr c); repeat constructor.
Qed.

Lemma bmc_iteration_solving (answers : nat -> string) (c : config)
    (db : Constr.state) (step : Z) (rs : bool) (n : nat) :
  gentrace c = true ->
  Forall solving_event (events (bmc_iteration answers c db step rs n)).
Proof.
  intros Hg.
  assert (Hframe : Forall solving_event (frame_events step)).
  { unfold frame_events. destruct (step =? 0); repeat constructor. }
  destruct (Z.lt_ge_cases step (skip_steps c)) as [Hskip | Hskip].
  - rewrite bmc_iteration_skip by exact Hskip. cbn [events fst snd].
    apply Forall_app_2; [exact Hframe |].
    unfold skip_events. destruct (assumed_skipped c step); repeat constructor.
  - rewrite bmc_iteration_window by exact Hskip. cbv zeta.
    cbn [events fst snd]. unfold window_events.
    apply Forall_app_2; [apply Forall_app_2; [exact Hframe |] |].
    + unfold extend_events. induction (Py.range 1 (step_size c)) as [|i l IH];
        [constructor |].
      cbn [mbind list_bind]. apply Forall_app_2; [| exact IH].
      destruct (step + i <? num_steps c); repeat constructor.
    + rewrite bmc_window_gentrace by exact Hg.
      assert (Hcommit : Forall solving_event
                          (commit_events step (window_last c step))).
      { unfold commit_events.
        induction (Py.range step (window_last c step + 1)) as [|i l IH];
          [constructor |].
        cbn [mbind list_bind app]. repeat (constructor; [exact Logic.I |]).
        exact IH. }
      destruct (String.eqb (answers n) "sat"); cbn [events fst snd];
        (apply Forall_app_2; [exact Hcommit |]).
      * do 2 (constructor; [exact Logic.I |]).
        destruct (dumpall c); [| constructor].
        constructor; [exact Logic.I | apply trace_events_solving].
      * repeat constructor.
Qed.

(** X21.  The trace generation only builds a model.  With [-g] the run
    opens no scope, negates neither the asserts of the module nor a user
    constraint, writes nothing of a [final] constraint and reports no
    failed assert: the final-state constraints of the constraint files have
    no effect on a generated trace. *)
Theorem gentrace_only_solves (answers : nat -> string) (c : config)
    (db : Constr.state) (fuel n : nat) :
  gentrace c = true ->
  Forall solving_event (events (bmc answers c db fuel n)).
Proof.
  intros Hg. rewrite bmc_run. cbv zeta.
  assert (Hloop : Forall solving_event
                    (events (bmc_loop answers c db fuel 0 true n))).
  { apply bmc_loop_events. intros. now apply bmc_iteration_solving. }
  destruct (value (bmc_loop answers c db fuel 0 true n));
    cbn [events fst snd]; [| exact Hloop].
  apply Forall_app_2; [exact Hloop |]. rewrite Hg.
  constructor; [exact Logic.I | apply trace_events_solving].
Qed.

(** ** Checked, then assumed *)

Lemma commit_events_covers (step last i : Z) :
  step <= i <= last ->
  (Write (Assert (P_a i)) ∈ commit_events step last)
  /\ (Write (Assert (Constr Asserts false i)) ∈ commit_events step last).
Proof.
  intros Hi. unfold commit_events.
  split; apply list_elem_of_bind; exists i;
    (split; [repeat constructor | apply elem_of_seqZ; lia]).
Qed.

Lemma bmc_window_commits (answers : nat -> string) (c : config)
    (db : Constr.state) (step last : Z) (rs : bool) (n : nat) :
  (exists rs', value (bmc_window answers c db step last rs n) = (Continue, rs')) ->
  commit_events step last ⊆ events (bmc_window answers c db step last rs n).
Proof.
  intros [rs' Hv] e He. destruct (gentrace c) eqn:Hg.
  - rewrite bmc_window_gentrace in * by exact Hg.
    destruct (String.eqb (answers n) "sat"); cbn [value events fst snd] in *;
      apply elem_of_app; now left.
  - rewrite bmc_window_check in * by exact Hg. cbv zeta in *.
    destruct (value (check_asserts answers c step last rs n)) as [[] rs1];
      cbn [value fst snd] in Hv; [| discriminate].
    destruct (Constr.constr_final_start db) as [fs |]; cbn [events fst snd];
      rewrite !elem_of_app; auto.
Qed.

Lemma bmc_loop_commits (answers : nat -> string) (c : config)
    (db : Constr.state) (i : Z) :
  1 <= step_size c ->
  skip_steps c <= i ->
  forall fuel step n,
    step <= i < num_steps c ->
    value (bmc_loop answers c db fuel step true n) = Some true ->
    let ev := events (bmc_loop answers c db fuel step true n) in
    (Write (Assert (P_a i)) ∈ ev)
    /\ (Write (Assert (Constr Asserts false i)) ∈ ev).
Proof.
  intros Hsz Hskip. induction fuel as [|fuel IH]; intros step n Hi;
    [discriminate |].
  cbv zeta. rewrite bmc_loop_S.
  assert (Hlt : (step <? num_steps c) = true) by (apply Z.ltb_lt; lia).
  rewrite Hlt. cbv zeta.
  destruct (Z.lt_ge_cases step (skip_steps c)) as [Hs | Hs].
  - rewrite bmc_iteration_skip by exact Hs. cbn [value events checks fst snd].
    intros Hv. destruct (IH (step + 1) n ltac:(lia) Hv) as [H1 H2].
    split; apply elem_of_app; now right.
  - rewrite bmc_iteration_window by exact Hs. cbv zeta.
    pose proof (window_last_eq c step ltac:(lia) Hsz) as Hlast.
    destruct (bmc_window_verdict answers c db step (window_last c step) n)
      as [[Hv _] | [Hv _]]; cbv zeta in Hv;
      cbn [value events checks fst snd]; rewrite Hv;
      cbn [value events checks fst snd]; [| discriminate].
    intros Hloop.
    destruct (Z.le_gt_cases i (window_last c step)) as [Hin | Hout].
    + destruct (commit_events_covers step (window_last c step) i ltac:(lia))
        as [H1 H2].
      pose proof (bmc_window_commits answers c db step (window_last c step)
                    true n (ex_intro _ true Hv)) as Hsub.
      split; rewrite !elem_of_app; left; right; now apply Hsub.
    + destruct (IH (step + step_size c) _ ltac:(lia) Hloop) as [H1 H2].
      split; apply elem_of_app; now right.
Qed.

(** X22.  What has been checked is assumed from then on: in a run that
    passes (step size at least 1), the module's asserts and the user
    asserts of every step from [skip_steps] to [num_steps - 1] are asserted
    to the solver, so that the later windows are checked under them.  The
    trace generation asserts them as well, without a check. *)
Theorem checked_asserts_assumed (answers : nat -> string) (c : config)
    (db : Constr.state) (fuel n : nat) (i : Z) :
  1 <= step_size c ->
  skip_steps c <= i ->
  0 <= i < num_steps c ->
  let r := bmc_loop answers c db fuel 0 true n in
  value r = Some true ->
  (Write (Assert (P_a i)) ∈ events r)
  /\ (Write (Assert (Constr Asserts false i)) ∈ events r).
Proof.
  intros Hsz Hskip Hi. apply (bmc_loop_commits answers c db i Hsz Hskip fuel 0 n Hi).
Qed.

(** ** Instances of the properties of the bounded check *)

Lemma bmc_frames_ascend_witness :
  declared (events (bmc_loop (fun _ => "unsat") (set_horizon 0 2 3 defaults)
                      Constr.init 5 0 true 0%nat))
  = [0; 1; 2].
Proof.
  apply (proj2 (bmc_frames_ascend (fun _ => "unsat")
                  (set_horizon 0 2 3 defaults) Constr.init 5 0%nat
                  ltac:(cbn; lia))).
  vm_compute. reflexivity.
Defined.

Lemma declared_frame_complete_witness :
  framed (events (bmc_loop (fun _ => "unsat") (set_horizon 0 2 3 defaults)
                    Constr.init 5 0 true 0%nat)) 1.
Proof.
  apply (declared_frame_complete (fun _ => "unsat")
           (set_horizon 0 2 3 defaults) Constr.init 5 0%nat 1).
  match goal with
  | |- ?P => refine (@bool_decide_unpack P _ _)
  end.
  vm_compute. exact Logic.I.
Defined.

Lemma exit_scope_depth_witness :
  scope_depth (events (drive (fun _ => "sat") (set_horizon 0 1 2 defaults)
                         Constr.init 3 0%nat)) = 1.
Proof.
  apply (exit_scope_depth (fun _ => "sat") (set_horizon 0 1 2 defaults)
           Constr.init 3 0%nat 1 eq_refl).
  vm_compute. reflexivity.
Defined.

Lemma nonpositive_step_size_loops_witness :
  value (drive (fun _ => "unsat") (set_horizon 0 0 1 defaults) Constr.init
           1000 0%nat) = None.
Proof.
  apply (nonpositive_step_size_loops (fun _ => "unsat")
           (set_horizon 0 0 1 defaults) Constr.init 1000 0%nat eq_refl
           ltac:(cbn; lia) ltac:(cbn; lia) ltac:(cbn; lia)
           (fun _ => eq_refl)).
Defined.


Lemma gentrace_only_solves_witness :
  Forall solving_event
    (events (bmc (fun _ => "sat")
               (Config 0 1 2 None None [] None true false false None false None)
               (Constr.State (Some 0) ∅ ∅ None 0) 3 0%nat)).
Proof.
  apply (gentrace_only_solves (fun _ => "sat")
           (Config 0 1 2 None None [] None true false false None false None)
           (Constr.State (Some 0) ∅ ∅ None 0) 3 0%nat eq_refl).
Defined.

Lemma checked_asserts_assumed_witness :
  Write (Assert (P_a 2))
  ∈ events (bmc_loop (fun _ => "unsat") (set_horizon 1 2 3 defaults)
              Constr.init 5 0 true 0%nat).
Proof.
  apply (checked_asserts_assumed (fun _ => "unsat")
           (set_horizon 1 2 3 defaults) Constr.init 5 0%nat 2);
    try (cbn; lia).
  vm_compute. reflexivity.
Defined.

(** ** The depth of the first induction attempt *)

Lemma induction_loop_skips (answers : nat -> string) (c : config)
    (pre : list Z) :
  Forall (fun step => num_steps c - skip_steps c < step) pre ->
  forall rest skip_counter rs n,
    induction_loop answers c (pre ++ rest) skip_counter rs n
    = let r := induction_loop answers c rest skip_counter rs n in
      (value r,
       (pre ≫= (fun step =>
                  induction_frame c step ++ [Print (MsgSkipInduction step)]))
       ++ events r,
       checks r).
Proof.
  induction 1 as [|step pre Hs _ IH]; intros rest sc rs n; cbv zeta.
  - cbn [app mbind list_bind].
    now destruct (induction_loop answers c rest sc rs n) as [[v e] k].
  - cbn [app]. rewrite induction_loop_cons. apply Z.ltb_lt in Hs. rewrite Hs.
    cbv zeta. rewrite IH. cbv zeta. cbn [value events checks fst snd].
    cbn [mbind list_bind]. now rewrite <- !app_assoc.
Qed.

Lemma skipped_frames_declared (c : config) (pre : list Z) :
  declared (pre ≫= (fun step =>
              induction_frame c step ++ [Print (MsgSkipInduction step)]))
  = pre.
Proof.
  induction pre as [|step pre IH]; [reflexivity |].
  cbn [mbind list_bind]. rewrite !declared_app, induction_frame_declared, IH.
  reflexivity.
Qed.

Lemma range_down_split (hi k : Z) :
  0 <= k <= hi ->
  Py.range_down hi
  = rev (Py.range (hi - k + 1) (hi + 1)) ++ (hi - k) :: Py.range_down (hi - k - 1).
Proof.
  intros Hk. unfold Py.range_down.
  rewrite <- (range_split 0 (hi - k) (hi + 1)) by lia.
  rewrite (range_cons (hi - k)) by lia. rewrite rev_app_distr.
  cbn [rev]. rewrite <- app_assoc. cbn [app].
  replace (hi - k - 1 + 1) with (hi - k) by lia. reflexivity.
Qed.

(** X25.  [skip_steps] is the depth of the first induction attempt.  With
    [0 <= skip_steps <= num_steps] the frames [num_steps] down to
    [num_steps - skip_steps] are declared before the solver is asked for
    the first time, whatever the step size; when that first answer is not
    ["sat"] the induction has succeeded with this one check, and no further
    frame is declared. *)
Theorem induction_first_try (answers : nat -> string) (c : config) (n : nat) :
  0 <= skip_steps c <= num_steps c ->
  answers n <> "sat" ->
  let r := induction answers c n in
  value r = true
  /\ checks r = S n
  /\ declared (events r)
     = rev (Py.range (num_steps c - skip_steps c) (num_steps c + 1))
  /\ (Print (MsgTryInduction (num_steps c - skip_steps c)) ∈ events r).
Proof.
  intros Hk Hns. cbv zeta. unfold induction.
  rewrite (range_down_split (num_steps c) (skip_steps c) Hk).
  rewrite induction_loop_skips.
  2:{ apply Forall_forall. intros i Hin.
      apply list_elem_of_In, in_rev, list_elem_of_In, elem_of_seqZ in Hin. lia. }
  cbv zeta. rewrite induction_loop_cons.
  assert (H1 : (num_steps c - skip_steps c <? num_steps c - skip_steps c) = false)
    by (apply Z.ltb_ge; lia).
  assert (H2 : (step_size c + 1 <? step_size c) = false)
    by (apply Z.ltb_ge; lia).
  apply String.eqb_neq in Hns. rewrite H1, H2, Hns.
  cbn [value events checks fst snd].
  split; [reflexivity |]. split; [reflexivity |]. split.
  - rewrite !declared_app, skipped_frames_declared, induction_frame_declared.
    cbn [declared omap list_omap]. rewrite app_nil_r.
    rewrite (range_cons (num_steps c - skip_steps c)) by lia.
    cbn [rev]. reflexivity.
  - rewrite !elem_of_app. right. right. now left.
Qed.

Lemma induction_first_try_witness :
  declared (events (induction (fun _ => "unsat") (set_horizon 2 1 5 defaults)
                      0%nat))
  = [5; 4; 3].
Proof.
  destruct (induction_first_try (fun _ => "unsat") (set_horizon 2 1 5 defaults)
              0%nat ltac:(cbn; lia) ltac:(discriminate))
    as (_ & _ & Hd & _).
  exact Hd.
Defined.

(** ** Final constraints only, and none given *)

Lemma bmc_loop_final_only (answers : nat -> string) (c : config)
    (db : Constr.state) :
  gentrace c = false ->
  final_only c = true ->
  Constr.constr_final_start db = None ->
  1 <= step_size c ->
  forall fuel step n,
    (Z.to_nat (num_steps c - step) < fuel)%nat ->
    let r := bmc_loop answers c db fuel step true n in
    value r = Some true /\ checks r = n /\ Forall scopeless (events r)
    /\ (CheckSat ∉ events r).
Proof.
  intros Hg Hf Hnone Hsz. induction fuel as [|fuel IH]; intros step n Hfuel;
    [lia |].
  cbv zeta. rewrite bmc_loop_S. destruct (step <? num_steps c) eqn:Hlt.
  2:{ cbn. repeat split; [constructor | apply not_elem_of_nil]. }
  apply Z.ltb_lt in Hlt. cbv zeta.
  assert (Hframe : Forall scopeless (frame_events step)
                   /\ (CheckSat ∉ frame_events step)).
  { unfold frame_events. split.
    - destruct (step =? 0); repeat constructor.
    - intros Hin. apply elem_of_app in Hin as [Hin | Hin];
        [| destruct (step =? 0)];
        repeat (apply elem_of_cons in Hin as [Hin | Hin]; [discriminate |]);
        now apply not_elem_of_nil in Hin. }
  destruct Hframe as [Hf1 Hf2].
  destruct (Z.lt_ge_cases step (skip_steps c)) as [Hskip | Hskip].
  - rewrite bmc_iteration_skip by exact Hskip.
    cbn [value events checks fst snd].
    destruct (IH (step + 1) n ltac:(lia)) as (Hv & Hc & Hs & Hn).
    split; [exact Hv |]. split; [exact Hc |]. split.
    + apply Forall_app_2; [apply Forall_app_2; [exact Hf1 |] | exact Hs].
      unfold skip_events. destruct (assumed_skipped c step); repeat constructor.
    + rewrite !elem_of_app. intros [[Hin | Hin] | Hin]; [now apply Hf2 | |
                                                          now apply Hn].
      unfold skip_events in Hin. destruct (assumed_skipped c step);
        repeat (apply elem_of_cons in Hin as [Hin | Hin]; [discriminate |]);
        now apply not_elem_of_nil in Hin.
  - rewrite bmc_iteration_window by exact Hskip. cbv zeta.
    rewrite bmc_window_check by exact Hg. cbv zeta.
    rewrite check_asserts_run, Hf, Hnone. cbn [value events checks fst snd app].
    destruct (IH (step + step_size c) n ltac:(lia)) as (Hv & Hc & Hs & Hn).
    split; [exact Hv |]. split; [exact Hc |]. split.
    + apply Forall_app_2; [apply Forall_app_2 | exact Hs].
      * apply window_events_scopeless.
      * apply commit_events_scopeless.
    + rewrite !elem_of_app. intros [[Hin | Hin] | Hin]; [| | now apply Hn].
      * revert Hin. unfold window_events. rewrite elem_of_app.
        intros [Hin | Hin]; [now apply Hf2 |].
        unfold extend_events in Hin.
        apply list_elem_of_bind in Hin as (j & Hin & _).
        destruct (step + j <? num_steps c); [| now apply not_elem_of_nil in Hin].
        unfold extension_events in Hin.
        repeat (apply elem_of_cons in Hin as [Hin | Hin]; [discriminate |]).
        now apply not_elem_of_nil in Hin.
      * unfold commit_events in Hin.
        apply list_elem_of_bind in Hin as (j & Hin & _).
        repeat (apply elem_of_cons in Hin as [Hin | Hin]; [discriminate |]).
        now apply not_elem_of_nil in Hin.
Qed.

(** X26.  [--final-only] leaves out the assert check of every window.  When
    the constraint files hold no [final] directive there is no final-state
    check either: the run declares and assumes its way to the horizon,
    never asks the solver, and ends as passed with exit status 0, whatever
    the design. *)
Theorem final_only_without_final (answers : nat -> string) (c : config)
    (db : Constr.state) (fuel n : nat) :
  tempind c = false ->
  gentrace c = false ->
  final_only c = true ->
  Constr.constr_final_start db = None ->
  1 <= step_size c ->
  (Z.to_nat (num_steps c) < fuel)%nat ->
  let r := drive answers c db fuel n in
  value r = Some 0 /\ checks r = n /\ (CheckSat ∉ events r).
Proof.
  intros Hi Hg Hf Hnone Hsz Hfuel. cbv zeta. rewrite drive_run, Hi. cbv zeta.
  rewrite bmc_run. cbv zeta.
  destruct (bmc_loop_final_only answers c db Hg Hf Hnone Hsz fuel 0 n
              ltac:(rewrite Z.sub_0_r; exact Hfuel)) as (Hv & Hc & _ & Hn).
  cbv zeta in Hv, Hc, Hn. rewrite Hv, Hg. cbn [value events checks fst snd].
  split; [reflexivity |]. split; [exact Hc |].
  rewrite app_nil_r, elem_of_app. intros [Hin | Hin]; [now apply Hn |].
  unfold closing in Hin.
  repeat (apply elem_of_cons in Hin as [Hin | Hin]; [discriminate |]).
  now apply not_elem_of_nil in Hin.
Qed.

Lemma final_only_without_final_witness :
  value (drive (fun _ => "sat")
           (Config 0 1 2 None None [] None false false false None true None)
           Constr.init 3 0%nat) = Some 0.
Proof.
  apply (final_only_without_final (fun _ => "sat")
           (Config 0 1 2 None None [] None false false false None true None)
           Constr.init 3 0%nat eq_refl eq_refl eq_refl eq_refl
           ltac:(cbn; lia) ltac:(cbn; lia)).
Defined.

(** ** Free constants down the hierarchy *)

Lemma fold_cells_ok (W : string * string -> option (res (list string)))
    (l : list (string * string)) :
  forall acc qs,
    fold_left
      (fun acc (cell : string * string) =>
         match acc with
         | Some (Ok qs) =>
             match W cell with
             | Some (Ok qs') => Some (Ok (qs ++ qs'))
             | other => other
             end
         | other => other
         end) l acc = Some (Ok qs) ->
    (exists qs0, acc = Some (Ok qs0) /\ qs0 ⊆ qs)
    /\ forall cell, cell ∈ l -> exists qs', W cell = Some (Ok qs') /\ qs' ⊆ qs.
Proof.
  induction l as [|cell l IH]; intros acc qs; cbn [fold_left].
  - intros ->. split; [now exists qs |]. intros cell Hin.
    now apply not_elem_of_nil in Hin.
  - intros Hf. destruct (IH _ _ Hf) as [(q1 & Hq1 & Hsub1) Hall].
    destruct acc as [[q0 | e] |]; try discriminate.
    destruct (W cell) as [[q' | e] |] eqn:HW; try discriminate.
    inversion Hq1; subst q1; clear Hq1. split.
    + exists q0. split; [reflexivity |]. intros x Hx. apply Hsub1.
      apply elem_of_app. now left.
    + intros cell' Hin. apply elem_of_cons in Hin as [-> | Hin];
        [| now apply Hall].
      exists q'. split; [exact HW |]. intros x Hx. apply Hsub1.
      apply elem_of_app. now right.
Qed.

Lemma print_anyconsts_worker_instances
    (smt_modinfo : string -> option modinfo) (fuel : nat) :
  forall mod_ state path qs m s,
    print_anyconsts_worker smt_modinfo fuel mod_ state path = Some (Ok qs) ->
    instance_of smt_modinfo mod_ state m s ->
    exists mi,
      smt_modinfo m = Some mi
      /\ forall fi, fi ∈ anyconsts mi ->
           ("(|" +:+ fi.1 +:+ "| " +:+ s +:+ ")") ∈ qs.
Proof.
  induction fuel as [|fuel IH]; intros mod_ state path qs m s; [discriminate |].
  cbn [print_anyconsts_worker].
  destruct (smt_modinfo mod_) as [mi |] eqn:Hmi; [| discriminate].
  match goal with
  | |- match ?f with _ => _ end = _ -> _ => destruct f as [[cq | e] |] eqn:Hf
  end; try discriminate.
  intros Hq Hinst. inversion Hq; subst qs; clear Hq.
  inversion Hinst as [| ? ? mi' cell ? ? Hmi' Hcell Hsub]; subst.
  - exists mi. split; [exact Hmi |]. intros fi Hfi.
    apply elem_of_app. right. apply list_elem_of_fmap.
    exists fi. split; [reflexivity | exact Hfi].
  - rewrite Hmi in Hmi'. inversion Hmi'; subst mi'; clear Hmi'.
    apply (fold_cells_ok
             (fun cell : string * string =>
                print_anyconsts_worker smt_modinfo fuel cell.2
                  ("(|" +:+ mod_ +:+ "_h " +:+ cell.1 +:+ "| " +:+ state +:+ ")")
                  (path +:+ "." +:+ cell.1))) in Hf.
    destruct Hf as [_ Hall].
    destruct (Hall cell Hcell) as (qs' & HW & Hsub').
    destruct (IH _ _ _ _ _ _ HW Hsub) as (mi' & Hm & Hfi).
    exists mi'. split; [exact Hm |]. intros fi Hin.
    apply elem_of_app. left. apply Hsub'. now apply Hfi.
Qed.

(** X23.  [print_anyconsts] goes down the whole cell hierarchy.  When it
    returns, every instance below the top module is a module the solver
    session knows, and for every free constant of every such instance the
    solver was asked for its value, at the state expression of that
    instance: [s<i>] for the top, [(|<mod>_h <cell>| <state>)] one level
    further down. *)
Theorem anyconsts_of_hierarchy (smt_modinfo : string -> option modinfo)
    (fuel : nat) (top : string) (state : Z) (qs : list string) (m s : string) :
  print_anyconsts_queries smt_modinfo fuel top state = Some (Ok qs) ->
  instance_of smt_modinfo top ("s" +:+ Py.fmt_d state) m s ->
  exists mi,
    smt_modinfo m = Some mi
    /\ forall fi, fi ∈ anyconsts mi ->
         ("(|" +:+ fi.1 +:+ "| " +:+ s +:+ ")") ∈ qs.
Proof.
  unfold print_anyconsts_queries. apply print_anyconsts_worker_instances.
Qed.

Lemma anyconsts_of_hierarchy_witness :
  exists qs,
    print_anyconsts_queries two_level 3 "top" 0 = Some (Ok qs)
    /\ ("(|sub#0| (|top_h u1| s0))" ∈ qs).
Proof.
  destruct (print_anyconsts_queries two_level 3 "top" 0) as [[qs | e] |] eqn:Hq;
    [| vm_compute in Hq; discriminate Hq | vm_compute in Hq; discriminate Hq].
  exists qs. split; [reflexivity |].
  destruct (anyconsts_of_hierarchy two_level 3 "top" 0 qs "sub"
              "(|top_h u1| s0)" Hq) as (mi & Hmi & Hall).
  - apply (instance_cell two_level "top" "s0" (ModInfo [("u1", "sub")] [] [])
             ("u1", "sub")); [reflexivity | now left |].
    apply instance_here.
  - vm_compute in Hmi. inversion Hmi; subst mi; clear Hmi.
    apply (Hall ("sub#0", "sub.v:3")). now left.
Defined.

(** ** A top module the session does not know *)

(** X24.  The top module is the one named by [-m], and only without [-m]
    the one the solver session reports.  When there is none, or the session
    has no such module, the script stops with [AssertionError] after the
    design was sent to the solver: exit status 1, whatever the solver would
    answer, and no frame was declared and nothing checked.  (A design file
    that cannot be opened stops it just before, with the error of
    [open()].) *)
Theorem unknown_top_module (w : world) (fuel : nat) (c : config)
    (input : string) (cdb : Constr.state) :
  startup (so_handle w) (cmdline w) = Ok (c, input) ->
  read_constraints (files w) (num_steps c) (inconstr c) Constr.init = Ok cdb ->
  match topmod c with
  | Some t => smt_modinfo w t = None
  | None =>
      match smt_topmod w with
      | Some t => smt_modinfo w t = None
      | None => True
      end
  end ->
  exists e ev,
    main w fuel = Some (Raise e, ev)
    /\ (files w input <> None -> e = AssertionError)
    /\ exit_code (Raise e) = 1
    /\ (Setup "QF_AUFBV" ∈ ev)
    /\ (CheckSat ∉ ev)
    /\ declared ev = [].
Proof.
  intros Hs Hp Htop. unfold main. rewrite Hs, Hp.
  assert (Hinput : forall lines,
            (CheckSat ∉ send_input lines) /\ declared (send_input lines) = []).
  { intros lines. unfold send_input.
    induction lines as [|l lines [IH1 IH2]].
    - split; [apply not_elem_of_nil | reflexivity].
    - cbn [mbind list_bind app]. split.
      + intros Hin.
        repeat (apply elem_of_cons in Hin as [Hin | Hin]; [discriminate |]).
        now apply IH1.
      + exact IH2. }
  unfold open_file. destruct (files w input) as [lines |].
  - destruct (Hinput lines) as [H1 H2].
    exists AssertionError,
      ([Print MsgSolver; Setup "QF_AUFBV"] ++ send_input lines).
    split.
    { unfold top_module. destruct (topmod c) as [t |]; [now rewrite Htop |].
      destruct (smt_topmod w) as [t |]; [now rewrite Htop | reflexivity]. }
    split; [reflexivity |]. split; [reflexivity |].
    split; [right; now left |]. split; [| exact H2].
    intros Hin.
    repeat (apply elem_of_cons in Hin as [Hin | Hin]; [discriminate |]).
    now apply H1.
  - exists (OSError input), [Print MsgSolver; Setup "QF_AUFBV"].
    split; [reflexivity |]. split; [intros H; now destruct H |].
    split; [reflexivity |]. split; [right; now left |].
    split; [| reflexivity].
    intros Hin.
    repeat (apply elem_of_cons in Hin as [Hin | Hin]; [discriminate |]).
    now apply not_elem_of_nil in Hin.
Qed.

Lemma unknown_top_module_witness :
  exists ev,
    main wrong_top_world 5 = Some (Raise AssertionError, ev)
    /\ declared ev = [].
Proof.
  destruct (unknown_top_module wrong_top_world 5
              (Config 0 1 20 None None [] None false false false None false
                 (Some "cpu"))
              "design.smt2" Constr.init eq_refl eq_refl eq_refl)
    as (e & ev & Hm & He & _ & _ & _ & Hd).
  rewrite (He ltac:(discriminate)) in Hm.
  exists ev. split; [exact Hm | exact Hd].
Defined.

(** ** Reading the constraint files *)

Lemma read_constraints_app (files : string -> option (list string)) (n : Z)
    (before after : list string) :
  forall st,
    read_constraints files n (before ++ after) st
    = (st' <-? read_constraints files n before st;
       read_constraints files n after st').
Proof.
  induction before as [|fn before IH]; intros st; [reflexivity |].
  cbn [app read_constraints].
  destruct (open_file files fn) as [lines |]; cbn [res_bind]; [| reflexivity].
  destruct (Constr.parse_file n fn lines st); cbn [res_bind];
    [apply IH | reflexivity].
Qed.

(** When every file can be opened, reading them is [Constr.parse_files] on
    their contents. *)
Lemma read_constraints_parse_files (files : string -> option (list string))
    (contents : string -> list string) (n : Z) (fns : list string) :
  (forall fn, fn ∈ fns -> files fn = Some (contents fn)) ->
  forall st,
    read_constraints files n fns st
    = Constr.parse_files n ((fun fn => (fn, contents fn)) <$> fns) st.
Proof.
  induction fns as [|fn fns IH]; intros Hall st; [reflexivity |].
  cbn [read_constraints fmap list_fmap Constr.parse_files]. unfold open_file.
  rewrite (Hall fn) by now left. cbn [res_bind].
  destruct (Constr.parse_file n fn (contents fn) st); cbn [res_bind];
    [| reflexivity].
  apply IH. intros f Hf. apply Hall. now right.
Qed.

Lemma parse_file_exn (n : Z) (fn : string) (lines : list string)
    (st : Constr.state) (e : exn) :
  Constr.parse_file n fn lines st = Raise e -> parser_exn e.
Proof.
  intros H. apply (parse_files_exn n [(fn, lines)] st e).
  cbn [Constr.parse_files]. now rewrite H.
Qed.

(** The exceptions of the constraint files: those of the parser, and the
    one of [open()]. *)
Lemma read_constraints_exn (files : string -> option (list string)) (n : Z)
    (fns : list string) :
  forall st e,
    read_constraints files n fns st = Raise e ->
    parser_exn e \/ exists f, e = OSError f.
Proof.
  induction fns as [|fn fns IH]; intros st e; [discriminate |].
  cbn [read_constraints]. unfold open_file.
  destruct (files fn) as [lines |]; cbn [res_bind].
  - destruct (Constr.parse_file n fn lines st) as [st' |] eqn:Hp;
      cbn [res_bind]; [apply IH |].
    intros H; inversion H; subst. left. eapply parse_file_exn, Hp.
  - intros H; inversion H. right. now eexists.
Qed.

Lemma read_constraints_code (files : string -> option (list string)) (n : Z)
    (fns : list string) (st : Constr.state) (e : exn) :
  read_constraints files n fns st = Raise e -> exit_code (Raise e) = 1.
Proof.
  intros H.
  apply read_constraints_exn in H as [[-> | [tok ->]] | [f ->]]; reflexivity.
Qed.

(** A line that is bad whatever the scope makes its file raise, wherever it
    stands. *)
Lemma parse_lines_bad (n : Z) (fn line : string) (pre post : list string) :
  (forall cs, bad_line cs line) ->
  forall st, exists e, Constr.parse_lines n fn (pre ++ line :: post) st = Raise e.
Proof.
  intros Hbad st. rewrite parse_lines_app.
  destruct (Constr.parse_lines n fn pre st) as [st1 |]; cbn [res_bind];
    [| now eexists].
  cbn [Constr.parse_lines]. unfold Constr.parse_line.
  destruct (directive_bad n fn line
              (Constr.State (Constr.constr_final_start st1)
                 (Constr.constr_asserts st1) (Constr.constr_assumes st1)
                 (Constr.current_states st1) (Constr.current_line st1 + 1))
              (Hbad _)) as (e & He & _).
  rewrite He. now eexists.
Qed.

Lemma read_constraints_bad (files : string -> option (list string)) (n : Z)
    (fn line : string) (pre post : list string) (fns : list string) :
  (forall cs, bad_line cs line) ->
  fn ∈ fns ->
  files fn = Some (pre ++ line :: post) ->
  forall st, exists e, read_constraints files n fns st = Raise e.
Proof.
  intros Hbad Hin Hfile. induction fns as [|f fns IH]; intros st.
  - now apply elem_of_nil in Hin.
  - cbn [read_constraints]. unfold open_file.
    destruct (files f) as [lines |] eqn:Hf; cbn [res_bind]; [| now eexists].
    destruct (Constr.parse_file n f lines st) as [st' |] eqn:Hp;
      cbn [res_bind]; [| now eexists].
    apply elem_of_cons in Hin as [-> | Hin]; [| now apply IH].
    exfalso. rewrite Hfile in Hf. inversion Hf; subst lines.
    unfold Constr.parse_file in Hp.
    destruct (parse_lines_bad n f line pre post Hbad
                (Constr.State (Constr.constr_final_start st)
                   (Constr.constr_asserts st) (Constr.constr_assumes st)
                   None 0)) as [e He].
    rewrite He in Hp. discriminate Hp.
Qed.

(** C7, as the code has it.  A line with an unknown leading directive, an
    [assert] or [assume] before any state scope, a [final] or [always]
    argument that is not one negative integer, or a [state] item that is not
    an integer or a range, makes the parser raise [AssertionError] or the
    [ValueError] of [int()].  Nothing catches it: a run whose constraint
    files hold such a line ends there, before the solver is started, with
    exit status 1.  The exception carries no location: it is the same
    whatever the file name and the line number. *)
Theorem parse_error_aborts (n : Z) (fn line : string) (st : Constr.state) :
  bad_line (Constr.current_states st) line ->
  exists e,
    Constr.parse_line n fn line st = Raise e
    /\ parser_exn e
    /\ exit_code (Raise e) = 1
    /\ (forall fn' k,
          Constr.directive n fn' line
            (Constr.State (Constr.constr_final_start st)
               (Constr.constr_asserts st) (Constr.constr_assumes st)
               (Constr.current_states st) k) = Raise e)
    /\ (forall pre post st0,
          Constr.parse_lines n fn pre st0 = Ok st ->
          Constr.parse_lines n fn (pre ++ line :: post) st0 = Raise e)
    /\ (forall w fuel c input before after pre post st0,
          startup (so_handle w) (cmdline w) = Ok (c, input) ->
          num_steps c = n ->
          inconstr c = before ++ fn :: after ->
          read_constraints (files w) n before Constr.init = Ok st0 ->
          files w fn = Some (pre ++ line :: post) ->
          Constr.parse_file n fn pre st0 = Ok st ->
          main w fuel = Some (Raise e, []))
    /\ (forall w fuel c input pre post,
          (forall cs, bad_line cs line) ->
          startup (so_handle w) (cmdline w) = Ok (c, input) ->
          num_steps c = n ->
          fn ∈ inconstr c ->
          files w fn = Some (pre ++ line :: post) ->
          exists e',
            main w fuel = Some (Raise e', [])
            /\ exit_code (Raise e') = 1).
Proof.
  intros Hbad. unfold Constr.parse_line.
  destruct (directive_bad n fn line
              (Constr.State (Constr.constr_final_start st)
                 (Constr.constr_asserts st) (Constr.constr_assumes st)
                 (Constr.current_states st) (Constr.current_line st + 1)) Hbad)
    as (e & He & Hp).
  exists e. split; [exact He |]. split; [exact Hp |]. split.
  { destruct Hp as [-> | [tok ->]]; reflexivity. }
  assert (Hlines : forall pre post st0,
            Constr.parse_lines n fn pre st0 = Ok st ->
            Constr.parse_lines n fn (pre ++ line :: post) st0 = Raise e).
  { intros pre post st0 Hpre. rewrite parse_lines_app, Hpre. cbn [res_bind].
    cbn [Constr.parse_lines]. unfold Constr.parse_line. now rewrite He. }
  split; [| split; [exact Hlines | split]].
  - intros fn' k. eapply directive_raise_anywhere; [| exact He]. reflexivity.
  - intros w fuel c input before after pre post st0 Hs Hn Hfiles Hbefore
      Hfile Hpre.
    unfold main. rewrite Hs, Hn, Hfiles, read_constraints_app, Hbefore.
    cbn [res_bind read_constraints]. unfold open_file. rewrite Hfile.
    cbn [res_bind]. unfold Constr.parse_file in *.
    now rewrite (Hlines pre post _ Hpre).
  - intros w fuel c input pre post Hall Hs Hn Hin Hfile.
    destruct (read_constraints_bad (files w) n fn line pre post (inconstr c)
                Hall Hin Hfile Constr.init) as [e' He'].
    exists e'. split.
    + unfold main. now rewrite Hs, Hn, He'.
    + eapply read_constraints_code, He'.
Qed.

(** ** The reporting calls carried out *)


Lemma reports_app (smt_modinfo : string -> option modinfo)
    (smt_get : nat -> string -> string) (writable : string -> bool)
    (top : string) (fuel : nat) (a b : list event) :
  forall n,
    reports smt_modinfo smt_get writable top fuel n (a ++ b)
    = match reports smt_modinfo smt_get writable top fuel n a with
      | None => None
      | Some (a', Some x) => Some (a', Some x)
      | Some (a', None) =>
          match
            reports smt_modinfo smt_get writable top fuel (solved n a) b
          with
          | None => None
          | Some (b', x) => Some (a' ++ b', x)
          end
      end.
Proof.
  induction a as [|e a IH]; intros n.
  - cbn [app reports solved fold_left].
    now destruct (reports _ _ _ _ _ n b) as [[b' x] |].
  - cbn [app reports]. unfold solved. cbn [fold_left].
    fold (solved (match e with CheckSat => S n | _ => n end) a).
    destruct (report_call _ _ _ _ _ n e) as [[gets | x] |]; try reflexivity.
    rewrite IH.
    destruct (reports _ _ _ _ _ _ a) as [[a' [x |]] |]; try reflexivity.
    destruct (reports _ _ _ _ _ _ b) as [[b' x] |]; [| reflexivity].
    cbn [app]. now rewrite <- app_assoc.
Qed.

Lemma report_call_silent (smt_modinfo : string -> option modinfo)
    (smt_get : nat -> string -> string) (writable : string -> bool)
    (top : string) (fuel n : nat) (e : event) :
  silent e ->
  report_call smt_modinfo smt_get writable top fuel n e = Some (Ok []).
Proof.
  destruct e as [| | | | | state [|] | | | | | |]; cbn; intros H;
    now try destruct H.
Qed.

Lemma reports_silent (smt_modinfo : string -> option modinfo)
    (smt_get : nat -> string -> string) (writable : string -> bool)
    (top : string) (fuel : nat) (ev : list event) :
  Forall silent ev ->
  forall n, reports smt_modinfo smt_get writable top fuel n ev = Some (ev, None).
Proof.
  induction 1 as [|e ev He _ IH]; intros n; [reflexivity |].
  cbn [reports]. rewrite (report_call_silent _ _ _ _ _ _ _ He), IH.
  reflexivity.
Qed.

Lemma fold_cells_raise (W : string * string -> option (res (list string)))
    (l : list (string * string)) :
  forall acc x,
    fold_left
      (fun acc (cell : string * string) =>
         match acc with
         | Some (Ok qs) =>
             match W cell with
             | Some (Ok qs') => Some (Ok (qs ++ qs'))
             | other => other
             end
         | other => other
         end) l acc = Some (Raise x) ->
    acc = Some (Raise x)
    \/ exists cell, cell ∈ l /\ W cell = Some (Raise x).
Proof.
  induction l as [|cell l IH]; intros acc x; cbn [fold_left]; [now left |].
  intros H. apply IH in H as [H | (cell' & Hin & H)].
  - destruct acc as [[qs | y] |]; [| now left | discriminate].
    right. exists cell. split; [now left |].
    destruct (W cell) as [[qs' | y] |]; [discriminate | exact H | discriminate].
  - right. exists cell'. split; [now right | exact H].
Qed.

Lemma print_anyconsts_worker_exn (smt_modinfo : string -> option modinfo)
    (fuel : nat) :
  forall mod_ state path x,
    print_anyconsts_worker smt_modinfo fuel mod_ state path = Some (Raise x) ->
    x = AssertionError.
Proof.
  induction fuel as [|fuel IH]; intros mod_ state path x; [discriminate |].
  cbn [print_anyconsts_worker].
  destruct (smt_modinfo mod_) as [mi |]; [| now intros [= <-]].
  match goal with
  | |- context [fold_left ?f ?l ?a] => destruct (fold_left f l a) as [[qs | y] |] eqn:Hf
  end; [discriminate | | discriminate].
  intros [= ->].
  apply (fold_cells_raise
           (fun cell : string * string =>
              print_anyconsts_worker smt_modinfo fuel cell.2
                ("(|" +:+ mod_ +:+ "_h " +:+ cell.1 +:+ "| " +:+ state +:+ ")")
                (path +:+ "." +:+ cell.1))) in Hf
    as [Hf | (cell & _ & Hf)]; [discriminate |].
  eapply IH, Hf.
Qed.




Lemma replace_same (s : string) : Py.replace "%" "%" s = s.
Proof.
  induction s as [|a s IH]; [reflexivity |]. cbn [Py.replace].
  destruct (Ascii.eqb a "%") eqn:Ha; rewrite IH; [| reflexivity].
  apply Ascii.eqb_eq in Ha. now subst.
Qed.

(** The trace writers of the final dump go through when their files can be
    written. *)
Lemma reports_trace_events (smt_modinfo : string -> option modinfo)
    (smt_get : nat -> string -> string) (writable : string -> bool)
    (top : string) (fuel n : nat) (c : config) (a b : Z) :
  Forall (fun f => writable f = true) (trace_files c) ->
  reports smt_modinfo smt_get writable top fuel n (trace_events c a b "%")
  = Some (trace_events c a b "%", None).
Proof.
  unfold trace_files, trace_events. intros H.
  destruct (vcdfile c) as [f1 |], (vlogtbfile c) as [f2 |],
    (outconstr c) as [f3 |]; cbn [app] in *;
    repeat match goal with
           | H : Forall _ (_ :: _) |- _ => apply Forall_cons_1 in H as [? H]
           end;
    cbn [reports report_call]; unfold open_trace; rewrite ?replace_same;
    repeat match goal with
           | H : writable _ = true |- _ => rewrite H; clear H
           end; reflexivity.
Qed.

(** ** Runs without a reporting call *)

Lemma frame_events_silent (step : Z) : Forall silent (frame_events step).
Proof.
  unfold frame_events. destruct (step =? 0);
    repeat (constructor; [exact Logic.I |]); constructor.
Qed.

Lemma skip_events_silent (c : config) (step : Z) :
  Forall silent (skip_events c step).
Proof.
  unfold skip_events. destruct (assumed_skipped c step);
    repeat (constructor; [exact Logic.I |]); constructor.
Qed.

Lemma window_events_silent (c : config) (step : Z) :
  Forall silent (window_events c step).
Proof.
  unfold window_events. apply Forall_app_2; [apply frame_events_silent |].
  unfold extend_events. apply Forall_forall. intros e He.
  apply list_elem_of_bind in He as (i & He & _).
  destruct (step + i <? num_steps c); [| now apply elem_of_nil in He].
  unfold extension_events in He.
  repeat (apply elem_of_cons in He as [-> | He]; [exact Logic.I |]).
  now apply elem_of_nil in He.
Qed.

Lemma commit_events_silent (step last : Z) :
  Forall silent (commit_events step last).
Proof.
  unfold commit_events. apply Forall_forall. intros e He.
  apply list_elem_of_bind in He as (i & He & _).
  repeat (apply elem_of_cons in He as [-> | He]; [exact Logic.I |]).
  now apply elem_of_nil in He.
Qed.


(** Without [--dump-all] the loop of trace generation makes no reporting
    call. *)
Lemma gentrace_loop_silent (answers : nat -> string) (c : config)
    (db : Constr.state) :
  gentrace c = true ->
  dumpall c = false ->
  forall fuel step rs n,
    Forall silent (events (bmc_loop answers c db fuel step rs n)).
Proof.
  intros Hg Hd. apply bmc_loop_events. intros step rs n.
  destruct (Z.ltb_spec step (skip_steps c)) as [Hlt | Hge].
  - rewrite bmc_iteration_skip by exact Hlt. cbn [events fst snd].
    apply Forall_app_2; [apply frame_events_silent | apply skip_events_silent].
  - rewrite bmc_iteration_window by exact Hge. cbv zeta. cbn [events fst snd].
    apply Forall_app_2; [apply window_events_silent |].
    rewrite bmc_window_gentrace by exact Hg. rewrite Hd.
    destruct (String.eqb _ "sat"); cbn [events fst snd];
      (apply Forall_app_2; [apply commit_events_silent |]);
      repeat (constructor; [exact Logic.I |]); constructor.
Qed.








(** ** A design without cells *)

Lemma print_anyconsts_flat (smt_modinfo : string -> option modinfo)
    (fuel : nat) (top : string) (mi : modinfo) (state : Z) :
  smt_modinfo top = Some mi ->
  cells mi = [] ->
  print_anyconsts_queries smt_modinfo (S fuel) top state
  = Some (Ok ((fun fi : string * string =>
                 "(|" +:+ fi.1 +:+ "| s" +:+ Py.fmt_d state +:+ ")")
              <$> anyconsts mi)).
Proof.
  intros Hmi Hcells. unfold print_anyconsts_queries.
  cbn [print_anyconsts_worker]. rewrite Hmi, Hcells. reflexivity.
Qed.



(** ** The final dump of trace generation *)

(** C10, as the code has it.  In trace generation mode, once the loop has
    ended the driver calls [print_anyconsts(0)] and then
    [write_trace(0, num_steps, '%')], whatever the status: the events of the
    run are those of the loop, followed by these two calls, followed by
    [(exit)].  When the status is false the loop was left through the "No
    solution found" branch: the last answer of the solver was not ["sat"],
    and the two calls still follow.  In the run of the script,
    [print_anyconsts(0)] asks the solver for the value of each free constant
    it finds in the cell hierarchy, those of the top module among them, and
    each configured trace writer is then called; when [print_anyconsts(0)]
    raises, the run ends there and [write_trace] is not reached.  On a
    design without cells the constants asked for are those of the top
    module, in order. *)
Theorem gentrace_final_dump (w : world) (c : config) (db : Constr.state)
    (fuel : nat) (rs : bool) :
  tempind c = false ->
  gentrace c = true ->
  let loop := bmc_loop (answers w) c db fuel 0 true 0%nat in
  value loop = Some rs ->
  drive (answers w) c db fuel 0%nat
  = (Some (if rs then 0 else 1),
     events loop
     ++ PrintAnyconsts 0 :: trace_events c 0 (num_steps c) "%"
     ++ [Write ExitCmd; Wait; Print (MsgStatus rs)],
     checks loop)
  /\ (rs = false ->
      (exists pre, events loop = pre ++ [CheckSat; Print MsgNoSolution])
      /\ (0 < checks loop)%nat
      /\ answers w (checks loop - 1)%nat <> "sat")
  /\ (forall top,
        dumpall c = false ->
        reports (smt_modinfo w) (smt_get w) (writable w) top fuel 0%nat
          (events loop)
        = Some (events loop, None))
  /\ (forall input lines top mi evl r ev,
        startup (so_handle w) (cmdline w) = Ok (c, input) ->
        read_constraints (files w) (num_steps c) (inconstr c) Constr.init
        = Ok db ->
        files w input = Some lines ->
        top_module w c = Some top ->
        smt_modinfo w top = Some mi ->
        reports (smt_modinfo w) (smt_get w) (writable w) top fuel 0%nat
          (events loop)
        = Some (evl, None) ->
        main w fuel = Some (r, ev) ->
        let ev1 := [Print MsgSolver; Setup "QF_AUFBV"] ++ send_input lines in
        (rs = false -> exists pre, evl = pre ++ [CheckSat; Print MsgNoSolution])
        /\ (cells mi = [] ->
            print_anyconsts_queries (smt_modinfo w) fuel top 0
            = Some (Ok ((fun fi : string * string =>
                           "(|" +:+ fi.1 +:+ "| s0)") <$> anyconsts mi)))
        /\ match print_anyconsts_queries (smt_modinfo w) fuel top 0 with
           | None => False
           | Some (Raise e) =>
               r = Raise AssertionError
               /\ ev = ev1 ++ evl ++ [PrintAnyconsts 0]
           | Some (Ok qs) =>
               (forall fi, fi ∈ anyconsts mi ->
                  ("(|" +:+ fi.1 +:+ "| s0)") ∈ qs)
               /\ exists tail,
                    ev = ev1 ++ evl ++ PrintAnyconsts 0 :: (Get <$> qs) ++ tail
                    /\ (Forall (fun f => writable w f = true) (trace_files c) ->
                        r = Raise (SystemExit (if rs then 0 else 1))
                        /\ tail = trace_events c 0 (num_steps c) "%"
                                  ++ [Write ExitCmd; Wait; Print (MsgStatus rs)])
           end).
Proof.
  intros Ht Hg loop Hv.
  assert (Hrun : drive (answers w) c db fuel 0%nat
                 = (Some (if rs then 0 else 1),
                    events loop
                    ++ PrintAnyconsts 0 :: trace_events c 0 (num_steps c) "%"
                    ++ [Write ExitCmd; Wait; Print (MsgStatus rs)],
                    checks loop)).
  { rewrite drive_run, Ht. cbv zeta. rewrite bmc_run. cbv zeta.
    fold loop. rewrite Hv, Hg. cbn [value events checks fst snd].
    unfold closing. rewrite <- app_assoc. reflexivity. }
  assert (Hno : rs = false ->
                exists pre, events loop = pre ++ [CheckSat; Print MsgNoSolution]).
  { intros ->. now apply bmc_loop_no_solution. }
  split; [exact Hrun |]. split; [| split].
  - intros ->. split; [now apply Hno |].
    destruct (bmc_loop_verdict (answers w) c db fuel 0 0%nat false Hv)
      as [[Hf _] | [_ (Hlt & _ & Hbad)]]; [discriminate |].
    fold loop in Hlt, Hbad. split; [exact Hlt |].
    unfold bmc_go in Hbad. rewrite Hg in Hbad. now apply String.eqb_neq.
  - intros top Hd. apply reports_silent.
    now apply gentrace_loop_silent.
  - intros input lines top mi evl r ev Hs Hc Hin Htop Hmi Hr Hmain. cbv zeta.
    split.
    { intros Hrs. destruct (Hno Hrs) as [pre Hpre].
      rewrite Hpre, reports_app in Hr.
      destruct (reports _ _ _ _ _ _ pre) as [[pre' [x |]] |];
        [discriminate | | discriminate].
      cbn in Hr. injection Hr as <-. now exists pre'. }
    split.
    { intros Hcells. destruct fuel as [|fuel']; [discriminate Hv |].
      apply (print_anyconsts_flat _ _ _ _ 0 Hmi Hcells). }
    unfold main in Hmain. rewrite Hs, Hc in Hmain. unfold open_file in Hmain.
    rewrite Hin, Htop, Hmi, Hrun, reports_app, Hr in Hmain.
    cbn [reports report_call] in Hmain.
    destruct (print_anyconsts_queries (smt_modinfo w) fuel top 0)
      as [[qs | e] |] eqn:Hq.
    + split.
      { intros fi Hfi. eapply print_anyconsts_asks; eauto. }
      destruct (reports _ _ _ _ _ _ (trace_events _ _ _ _ ++ _))
        as [[tail x] |] eqn:Htail; [| discriminate].
      exists tail. split.
      { destruct x; injection Hmain as _ <-; now rewrite <- app_assoc. }
      intros Hw. rewrite reports_app, reports_trace_events in Htail by exact Hw.
      rewrite reports_silent in Htail
        by (repeat (constructor; [exact Logic.I |]); constructor).
      injection Htail as <- <-. injection Hmain as <- _. now split.
    + injection Hmain as <- <-. split; [| now rewrite <- app_assoc].
      f_equal. eapply print_anyconsts_worker_exn, Hq.
    + discriminate.
Qed.

(** ** What a run has to answer *)







Lemma window_checks_nonneg (c : config) (db : Constr.state) (step last : Z) :
  0 <= window_checks c db step last.
Proof.
  unfold window_checks.
  destruct (gentrace c); [lia |].
  destruct (final_only c), (Constr.constr_final_start db); lia.
Qed.

(** ** Counting the checks of a run *)













(** ** The exit status *)






(** ** The frames of a window *)

(** C2 at [-t 0:2:2].  The window of step 0 is extended by the frame [s1]:
    the frame is declared, and nothing tells the solver that it is not an
    initial state.  The frame of a cursor step other than 0 gets that
    assertion. *)
Theorem extension_frame_unmarked :
  let r := bmc_loop (fun _ => "unsat") (set_horizon 0 2 2 defaults)
             Constr.init 3 0 true 0%nat in
  value r = Some true
  /\ (Write (DeclareFun 1) ∈ events r)
  /\ (Write (AssertNot (P_is 1)) ∉ events r)
  /\ (Write (AssertNot (P_is 1)) ∈ frame_events 1).
Proof.
  cbv zeta. split; [vm_compute; reflexivity |].
  split; [| split];
    match goal with
    | |- ?P => refine (@bool_decide_unpack P _ _)
    end; vm_compute; exact Logic.I.
Qed.

(** ** Instances *)

Lemma push_without_pop_on_sat :
  ~ (forall (answers : nat -> string) (c : config) (step last : Z)
       (retstatus : bool) (n : nat) (before : list event),
       scope_depth
         (before ++ events (check_asserts answers c step last retstatus n))
       = scope_depth before).
Proof.
  intros Hbal.
  specialize (Hbal (fun _ => "sat") defaults 0 0 true 0%nat []).
  vm_compute in Hbal. discriminate Hbal.
Qed.

Lemma check_window_scope_witness :
  scope_depth (events (check_asserts (fun _ => "unsat") defaults 0 0 true 0%nat)) = 0
  /\ scope_depth (events (check_asserts (fun _ => "sat") defaults 0 0 true 0%nat)) = 1.
Proof.
  split.
  - destruct (check_window_scope (fun _ => "unsat") defaults 0 0 0 true 0%nat [])
      as [Hpass _].
    destruct (Hpass ltac:(discriminate)) as (Hd & _). exact Hd.
  - destruct (check_window_scope (fun _ => "sat") defaults 0 0 0 true 0%nat [])
      as [_ Hfail].
    destruct (Hfail eq_refl) as [Ha _]. destruct (Ha eq_refl) as [Hd _].
    exact Hd.
Defined.

Lemma skipped_steps_witness :
  Write (Assert (P_a 1))
  ∈ events (bmc_loop (fun _ => "unsat")
              (Config 2 1 3 None None [] None false false false (Some 1) false None)
              Constr.init 5 0 true 0%nat).
Proof.
  destruct (skipped_steps (fun _ => "unsat")
              (Config 2 1 3 None None [] None false false false (Some 1) false None)
              Constr.init 5 1 ltac:(cbn; lia) ltac:(cbn; lia) ltac:(cbn; lia))
    as (Hassumed & _).
  destruct (Hassumed 1 eq_refl ltac:(lia)) as [Ha _]. exact Ha.
Defined.





Lemma parse_error_without_location :
  exists e,
    Constr.parse_files 20 [("c.smtc", ["bogus 1"])] Constr.init = Raise e
    /\ contains (Constr.loc "c.smtc" 1) (exn_message e) = false.
Proof. exists AssertionError. split; vm_compute; reflexivity. Qed.

Lemma parse_error_aborts_witness :
  exists e,
    main bad_constraints_world 5 = Some (Raise e, [])
    /\ exit_code (Raise e) = 1.
Proof.
  assert (Hbad : forall cs, bad_line cs "bogus 1").
  { intros cs. split; [reflexivity |]. exists "bogus", ["1"].
    split; [reflexivity |]. left. intros Hin. cbn in Hin.
    repeat (destruct Hin as [Hin | Hin]; [discriminate Hin |]). exact Hin. }
  destruct (parse_error_aborts 20 "c.smtc" "bogus 1" Constr.init (Hbad _))
    as (e & _ & _ & _ & _ & _ & _ & Hrun).
  apply (Hrun bad_constraints_world 5%nat
           (Config 0 1 20 None None ["c.smtc"] None false false false None
              false None)
           "design.smt2" ["state 0"; "assert [x]"] [] Hbad eq_refl eq_refl).
  - cbn. apply list_elem_of_here.
  - reflexivity.
Defined.


Lemma only_sat_fails_witness :
  value (check_asserts (fun _ => "unknown") defaults 0 0 true 0%nat)
  = (Continue, true).
Proof.
  destruct (only_sat_fails (fun _ => "unknown") defaults Constr.init 0 0)
    as (_ & Hpass & _).
  destruct (Hpass 0 0 0 true ltac:(discriminate)) as [Ha _]. exact Ha.
Defined.

Lemma gentrace_final_dump_witness :
  exists r ev,
    main no_solution_world 3 = Some (r, ev)
    /\ exit_code r = 1
    /\ (Get "(|top#0| s0)" ∈ ev).
Proof.
  pose (c := Config 0 1 1 None None [] None true false false None false None).
  pose (mi := ModInfo [] [("top#0", "top.v:7")] []).
  destruct (main no_solution_world 3) as [[r ev] |] eqn:Hmain;
    [| vm_compute in Hmain; discriminate Hmain].
  exists r, ev. split; [reflexivity |].
  destruct (gentrace_final_dump no_solution_world c Constr.init 3 false
              eq_refl eq_refl ltac:(vm_compute; reflexivity))
    as (_ & _ & Hloop & Hrun).
  destruct (Hrun "design.smt2" [] "top" mi _ r ev eq_refl eq_refl eq_refl
              eq_refl eq_refl (Hloop "top" eq_refl) Hmain) as (_ & _ & Hdump).
  destruct (print_anyconsts_queries (smt_modinfo no_solution_world) 3 "top" 0)
    as [[qs | e] |] eqn:Hq; [| vm_compute in Hq; discriminate Hq | destruct Hdump].
  destruct Hdump as (Hqs & tail & Hev & Hexit).
  destruct (Hexit ltac:(constructor)) as [-> _].
  split; [reflexivity |]. rewrite Hev.
  apply elem_of_app. right. apply elem_of_app. right.
  apply list_elem_of_further, elem_of_app. left.
  apply list_elem_of_fmap. exists "(|top#0| s0)". split; [reflexivity |].
  apply (Hqs ("top#0", "top.v:7")). apply list_elem_of_here.
Defined.

(** Trace generation at [-t 1] for which the solver finds no trace.  On a
    design without free constants and with no trace file asked for, nothing
    is asked of the solver after the failed query: [(exit)] follows
    [print_anyconsts(0)].  On a design with a cell of a type the solver
    session does not know, [print_anyconsts(0)] raises, and the trace file
    asked for with [--dump-vcd] is not written. *)
Lemma final_dump_without_queries :
  main (World (fun _ _ => false)
          (Some ([("-g", ""); ("-t", "1")], ["design.smt2"]))
          (fun _ => Some []) (fun _ => true) (Some "top")
          (fun m => if String.eqb m "top" then Some (ModInfo [] [] []) else None)
          (fun _ => "unsat") (fun _ _ => "true")) 3
  = Some (Raise (SystemExit 1),
          [Print MsgSolver; Setup "QF_AUFBV"]
          ++ frame_events 0 ++ commit_events 0 0
          ++ [Print (MsgSolving 0); CheckSat; Print MsgNoSolution;
              PrintAnyconsts 0; Write ExitCmd; Wait; Print (MsgStatus false)])
  /\ main (World (fun _ _ => false)
             (Some ([("-g", ""); ("-t", "1"); ("--dump-vcd", "trace.vcd")],
                    ["design.smt2"]))
             (fun _ => Some []) (fun _ => true) (Some "top")
             (fun m =>
                if String.eqb m "top" then Some (ModInfo [("u1", "sub")] [] [])
                else None)
             (fun _ => "unsat") (fun _ _ => "true")) 3
     = Some (Raise AssertionError,
             [Print MsgSolver; Setup "QF_AUFBV"]
             ++ frame_events 0 ++ commit_events 0 0
             ++ [Print (MsgSolving 0); CheckSat; Print MsgNoSolution;
                 PrintAnyconsts 0]).
Proof. split; vm_compute; reflexivity. Qed.
